(** * redis-init: schema loading pipeline

    A shallow embedding of the core of the redis-init loader:

    - [processTemplate]          (lib/templates.js)
    - [parseSchemaForLuaScripts], [findLuaScriptsInSchema],
      [registerLuaScripts]       (lib/lua-scripts.js)
    - [parseSchemaContent], [sortSchemasByDependencies], [loadSchemas],
      [loadSchemaFromString]     (lib/schema-loader.js)
    - [applyPrefixToCommand], [applyTTL]
                                 (lib/utils.js)
    - [executeInTransaction]     (lib/transactions.js)

    Conventions of the embedding.

    - A JavaScript string is a [string]; a character is an [ascii].  The
      development covers ASCII text: white space is the ASCII part of what
      [String.prototype.trim] and the regular expression class [\s] accept,
      and [toUpperCase] maps the letters a-z.
    - A JavaScript array is a [list]; [undefined] results of an index or a
      property lookup are [None].
    - An object used as a dictionary whose key order is observed ([for ... in])
      is an insertion-ordered association list; the template variables, which
      are only looked up, are a [gmap]; a [Set] is a [gset].  These hold
      the own properties.  A lookup [o[name]] that finds no own property
      goes on to the prototype of [o], which is [Object.prototype] unless
      an assignment to [o["__proto__"]] has replaced it; [Prototype] lists
      what is found there.
    - The Redis client is a collaborator: an oracle that answers from the
      trace of calls made so far.  Every call on the client is recorded in
      that trace, so "nothing was submitted" is "the trace is empty".
      [sendCommand] may throw and [exec] may throw or resolve to an array of
      results; [multi()] and [pipeline()] only create a queue and return.
    - The file system is what the loader reads from it: whether the schemas
      directory exists, the paths the glob returns, each of which ends in
      one of the two extensions of the pattern, and the content of each
      file.  [path.basename] is the POSIX one.
    - A loop whose bound is not structural takes fuel; each such function
      comes with a lemma that the fuel it is given is enough.
    - Logging has no effect on results and is left out. *)

From stdpp Require Import base strings list gmap sorting pretty.
From Stdlib Require Import Ascii ZArith.

Local Open Scope Z_scope.
Local Open Scope nat_scope.

(** ** JavaScript strings *)

Module JsString.

(** White space of [trim] and of the class [\s]: tab, line feed, vertical
    tab, form feed, carriage return and space. *)
Definition is_space (c : ascii) : bool :=
  match c with
  | "009" | "010" | "011" | "012" | "013" | " " => true
  | _ => false
  end%char.

(** Line terminators: the characters the class [.] does not accept. *)
Definition is_line_terminator (c : ascii) : bool :=
  match c with
  | "010" | "013" => true
  | _ => false
  end%char.

Definition is_digit (c : ascii) : bool :=
  match c with
  | "0" | "1" | "2" | "3" | "4" | "5" | "6" | "7" | "8" | "9" => true
  | _ => false
  end%char.

Definition digit_value (c : ascii) : N :=
  (N_of_ascii c - 48)%N.

Definition upper_char (c : ascii) : ascii :=
  let n := N_of_ascii c in
  if ((97 <=? n) && (n <=? 122))%N then ascii_of_N (n - 32) else c.

Fixpoint toUpperCase (s : string) : string :=
  match s with
  | EmptyString => EmptyString
  | String c r => String (upper_char c) (toUpperCase r)
  end.

Fixpoint trimStart (s : string) : string :=
  match s with
  | EmptyString => EmptyString
  | String c r => if is_space c then trimStart r else s
  end.

Fixpoint trimEnd (s : string) : string :=
  match s with
  | EmptyString => EmptyString
  | String c r =>
      match trimEnd r with
      | EmptyString => if is_space c then EmptyString else String c EmptyString
      | r' => String c r'
      end
  end.

Definition trim (s : string) : string := trimEnd (trimStart s).

Fixpoint startsWith (p s : string) : bool :=
  match p, s with
  | EmptyString, _ => true
  | String a p', String b s' =>
      if decide (a = b) then startsWith p' s' else false
  | String _ _, EmptyString => false
  end.

Fixpoint last_char (s : string) : option ascii :=
  match s with
  | EmptyString => None
  | String c EmptyString => Some c
  | String _ r => last_char r
  end.

(** [s.endsWith(c)] for a one-character [c]. *)
Definition endsWithChar (c : ascii) (s : string) : bool :=
  bool_decide (last_char s = Some c).

(** [s.slice(0, -1)] *)
Fixpoint dropLast (s : string) : string :=
  match s with
  | EmptyString => EmptyString
  | String _ EmptyString => EmptyString
  | String c r => String c (dropLast r)
  end.

(** [s.substring(n)] *)
Fixpoint substring_from (n : nat) (s : string) : string :=
  match n, s with
  | O, _ => s
  | S n', String _ r => substring_from n' r
  | S _, EmptyString => EmptyString
  end.

Fixpoint includes (c : ascii) (s : string) : bool :=
  match s with
  | EmptyString => false
  | String a r => if decide (a = c) then true else includes c r
  end.

(** [s.split('\n')]: never the empty list. *)
Fixpoint split_on (sep : ascii) (s : string) : list string :=
  match s with
  | EmptyString => [EmptyString]
  | String c r =>
      if decide (c = sep) then EmptyString :: split_on sep r
      else match split_on sep r with
           | h :: t => String c h :: t
           | [] => [String c EmptyString]
           end
  end.

(** [parts.join(sep)] *)
Fixpoint join (sep : string) (parts : list string) : string :=
  match parts with
  | [] => EmptyString
  | [p] => p
  | p :: rest => p +:+ sep +:+ join sep rest
  end.

(** The double quote character. *)
Definition dquote : ascii := "034"%char.

Definition newline : string := String "010"%char "".

(** [s] between double quotes. *)
Definition quoted (s : string) : string :=
  String dquote (s +:+ String dquote "").

Definition is_empty (s : string) : bool :=
  match s with EmptyString => true | _ => false end.

End JsString.

Import JsString.

(** ** Inherited properties *)

Module Prototype.

(** The properties of [Object.prototype] whose value is a function. *)
Definition object_methods : list string :=
  ["constructor"; "__defineGetter__"; "__defineSetter__";
   "hasOwnProperty"; "__lookupGetter__"; "__lookupSetter__";
   "isPrototypeOf"; "propertyIsEnumerable"; "toString"; "valueOf";
   "toLocaleString"].

(** The properties every object literal inherits: the methods and the
    accessor [__proto__]. *)
Definition inherited (name : string) : bool :=
  bool_decide (name = "__proto__") || bool_decide (name ∈ object_methods).

(** The properties of [Array.prototype] whose value is a function, as of
    Node 20; [length] is a property of the array itself.  Which of the
    later names exist depends on the version of Node. *)
Definition array_methods : list string :=
  ["constructor"; "at"; "concat"; "copyWithin"; "fill"; "find";
   "findIndex"; "findLast"; "findLastIndex"; "lastIndexOf"; "pop"; "push";
   "reverse"; "shift"; "unshift"; "slice"; "sort"; "splice"; "includes";
   "indexOf"; "join"; "keys"; "entries"; "values"; "forEach"; "filter";
   "flat"; "flatMap"; "map"; "every"; "some"; "reduce"; "reduceRight";
   "toLocaleString"; "toString"; "toReversed"; "toSorted"; "toSpliced";
   "with"].

(** The text V8 gives for a built-in function. *)
Definition native_text (fname : string) : string :=
  "function " +:+ fname +:+ "() { [native code] }".

(** [String(({})[name])] for an inherited property: [__proto__] is
    [Object.prototype] itself, [constructor] is the function [Object]. *)
Definition inherited_text (name : string) : option string :=
  if bool_decide (name = "__proto__") then Some "[object Object]"
  else if bool_decide (name = "constructor") then Some (native_text "Object")
  else if bool_decide (name ∈ object_methods) then Some (native_text name)
  else None.

End Prototype.

(** ** Template substitution (lib/templates.js) *)

Module Templates.

(** The part [[^}]+}] of the marker pattern, without the test that the name
    is not empty: the text up to the first closing brace, and what follows
    the brace. *)
Fixpoint until_brace (s : string) : option (string * string) :=
  match s with
  | EmptyString => None
  | String c r =>
      if decide (c = "}"%char) then Some (EmptyString, r)
      else match until_brace r with
           | Some (n, rest) => Some (String c n, rest)
           | None => None
           end
  end.

(** A match of [/\${([^}]+)}/] that starts at the first character of [s]:
    the captured name and the text after the match. *)
Definition marker_at (s : string) : option (string * string) :=
  match s with
  | String "$"%char (String "{"%char r) =>
      match until_brace r with
      | Some (String c n, rest) => Some (String c n, rest)
      | _ => None
      end
  | _ => None
  end.

Definition marker (name : string) : string := "${" +:+ name +:+ "}".

(** [content.replace(/\${([^}]+)}/g, replacer)]: the pattern is tried at each
    position from the left; a match is replaced by the replacer's result and
    the scan resumes after the match; a character where no match starts is
    kept.  Each step consumes a character, so [fuel] the length of the text
    is enough. *)
Fixpoint replace_markers (fuel : nat) (replacer : string -> string)
    (s : string) : string :=
  match fuel with
  | O => s
  | S fuel' =>
      match marker_at s with
      | Some (name, rest) =>
          replacer name +:+ replace_markers fuel' replacer rest
      | None =>
          match s with
          | EmptyString => EmptyString
          | String c r => String c (replace_markers fuel' replacer r)
          end
      end
  end.

(** The replacer of [processTemplate]: [variables[varName]] if it is not
    [undefined], otherwise the marker itself.  The lookup finds the
    variable's value, or else what the object inherits under that name,
    which [replace] turns into text. *)
Definition replacer (variables : gmap string string) (varName : string)
    : string :=
  match variables !! varName with
  | Some v => v
  | None =>
      match Prototype.inherited_text varName with
      | Some t => t
      | None => marker varName
      end
  end.

(** [variables] is [None] when the argument is absent. *)
Definition processTemplate (content : string)
    (variables : option (gmap string string)) : string :=
  match variables with
  | None => content
  | Some vars =>
      if decide (vars = ∅) then content
      else replace_markers (String.length content) (replacer vars) content
  end.

End Templates.

Import Templates.

(** ** Script blocks (lib/lua-scripts.js) *)

Module LuaScripts.

Record scriptInfo := {
  name : string;
  script : string;
  startIndex : nat;
  endIndex : nat
}.

(** The loop that looks for the terminator: [i] is the index of the first
    line of [rest]; the result is the lines before the terminator and the
    terminator's index. *)
Fixpoint find_end (i : nat) (rest : list string)
    : option (list string * nat) :=
  match rest with
  | [] => None
  | l :: rest' =>
      if decide (trim l = "END_SCRIPT") then Some ([], i)
      else match find_end (S i) rest' with
           | Some (body, e) => Some (l :: body, e)
           | None => None
           end
  end.

Definition parseSchemaForLuaScripts (lines : list string) (startIndex : nat)
    : option scriptInfo :=
  match lines !! startIndex with
  | None => None
  | Some tag =>
      if is_empty tag || negb (startsWith "SCRIPT:" tag) then None
      else
        let scriptName := trim (substring_from 7 tag) in
        if is_empty scriptName then None
        else match find_end (S startIndex) (drop (S startIndex) lines) with
             | None => None
             | Some (scriptLines, e) =>
                 Some {| name := scriptName;
                         script := join newline scriptLines;
                         startIndex := startIndex;
                         endIndex := e |}
             end
  end.

Record luaScript := {
  ls_name : string;
  ls_script : string;
  ls_source : string
}.

(** [findLuaScriptsInSchema]: the loop variable is set to the terminator's
    index when a block is found, so the lines up to it are passed over. *)
Fixpoint find_scripts_loop (lines : list string) (sourceName : string)
    (i : nat) (todo : list string) (skip : nat) : list luaScript :=
  match todo with
  | [] => []
  | l :: todo' =>
      match skip with
      | S k => find_scripts_loop lines sourceName (S i) todo' k
      | O =>
          if startsWith "SCRIPT:" (trim l) then
            match parseSchemaForLuaScripts lines i with
            | Some info =>
                {| ls_name := info.(name); ls_script := info.(script);
                   ls_source := sourceName |}
                :: find_scripts_loop lines sourceName (S i) todo'
                     (info.(endIndex) - i)
            | None => find_scripts_loop lines sourceName (S i) todo' 0
            end
          else find_scripts_loop lines sourceName (S i) todo' 0
      end
  end.

Definition findLuaScriptsInSchema (content sourceName : string)
    : list luaScript :=
  let lines := split_on "010"%char content in
  find_scripts_loop lines sourceName 0 lines 0.

End LuaScripts.

Import LuaScripts.

(** ** Schema parsing (lib/schema-loader.js) *)

Module SchemaParser.

Record Metadata := {
  version : N;
  description : string;
  dependencies : list string
}.

Record Parsed := {
  commands : list (list string);
  metadata : Metadata
}.

Definition default_metadata : Metadata :=
  {| version := 1; description := ""; dependencies := [] |}.

(** *** Metadata: three regular expressions over the whole content *)

(** The text after the first occurrence of [marker] for which [after]
    accepts what follows: a pattern that starts with a literal is tried at
    each position from the left. *)
Fixpoint first_match {A} (marker : string) (after : string -> option A)
    (s : string) : option A :=
  let here :=
    if startsWith marker s
    then after (substring_from (String.length marker) s) else None in
  match here with
  | Some r => Some r
  | None =>
      match s with
      | EmptyString => None
      | String _ r => first_match marker after r
      end
  end.

(** The group [\d+]: the longest run of digits. *)
Fixpoint take_digits (s : string) : string :=
  match s with
  | String c r => if is_digit c then String c (take_digits r) else EmptyString
  | EmptyString => EmptyString
  end.

(** The group [.*]: the longest run of characters that are not line
    terminators. *)
Fixpoint take_line (s : string) : string :=
  match s with
  | String c r =>
      if is_line_terminator c then EmptyString else String c (take_line r)
  | EmptyString => EmptyString
  end.

(** [parseInt(digits, 10)] on a run of digits. *)
Fixpoint parse_digits_from (acc : N) (s : string) : N :=
  match s with
  | EmptyString => acc
  | String c r => parse_digits_from (acc * 10 + digit_value c)%N r
  end.

Definition parse_digits (s : string) : N := parse_digits_from 0%N s.

(** [content.match] of the pattern [version:], white space [\s*], group
    [\d+]: the captured group. *)
Definition versionMatch (content : string) : option string :=
  first_match "version:"
    (fun rest =>
       match take_digits (trimStart rest) with
       | EmptyString => None
       | ds => Some ds
       end) content.

(** [content.match] of the pattern [description:], white space [\s*],
    group [.*]: the captured group. *)
Definition descriptionMatch (content : string) : option string :=
  first_match "description:"
    (fun rest => Some (take_line (trimStart rest))) content.

(** [content.match] of the pattern [dependencies:], white space [\s*],
    group [.*]: the captured group. *)
Definition dependenciesMatch (content : string) : option string :=
  first_match "dependencies:"
    (fun rest => Some (take_line (trimStart rest))) content.

(** Does [/\s*,/] match at the start of [s]?  If so, what follows the
    comma. *)
Fixpoint separator_at (s : string) : option string :=
  match s with
  | EmptyString => None
  | String c r =>
      if decide (c = ","%char) then Some r
      else if is_space c then separator_at r
      else None
  end.

(** [s.split(/\s*,\s*/)]: the separator is tried at each position from the
    left; after a match the scan resumes behind the white space that
    follows the comma.  [skip] counts the characters of a separator still
    to pass over, [cur] is the piece read so far, in reverse. *)
Fixpoint split_commas (s : string) (skip : nat) (cur : string)
    : list string :=
  match s with
  | EmptyString => [String.rev cur]
  | String c r =>
      match skip with
      | S k => split_commas r k cur
      | O =>
          match separator_at s with
          | Some after =>
              String.rev cur
              :: split_commas r
                   (String.length s - String.length (trimStart after) - 1)
                   EmptyString
          | None => split_commas r 0 (String c cur)
          end
      end
  end.

Definition parse_dependencies (captured : string) : list string :=
  map trim (split_commas captured 0 EmptyString).

Definition extract_metadata (content : string) : Metadata :=
  {| version :=
       match versionMatch content with
       | Some ds => parse_digits ds
       | None => 1%N
       end;
     description :=
       match descriptionMatch content with
       | Some d => trim d
       | None => ""
       end;
     dependencies :=
       match dependenciesMatch content with
       | Some d => parse_dependencies d
       | None => []
       end |}.

(** *** Lines *)

(** [line.replace(/#.*$/, '')].  Without the [m] flag [$] is the end of
    the string, and [.] does not accept a line terminator: the pattern
    matches at the first [#] that no carriage return follows (a line holds
    no line feed), and the match runs to the end of the line. *)
Definition no_terminator (s : string) : bool :=
  is_empty (substring_from (String.length (take_line s)) s).

Fixpoint strip_comment (line : string) : string :=
  match line with
  | EmptyString => EmptyString
  | String c r =>
      if bool_decide (c = "#"%char) && no_terminator r then EmptyString
      else String c (strip_comment r)
  end.

(** *** Tokens *)

(** Remove surrounding quotes if present. *)
Definition strip_quotes (part : string) : string :=
  if startsWith (String dquote EmptyString) part && endsWithChar dquote part
     && bool_decide (1 < String.length part)
  then dropLast (substring_from 1 part)
  else part.

Record tokenizer := {
  prev : option ascii;
  inQuotes : bool;
  currentPart : string;   (* in reverse *)
  parts : list string     (* in reverse *)
}.

Definition push_part (cur : string) (ps : list string) : list string :=
  if is_empty cur then ps else strip_quotes (String.rev cur) :: ps.

Definition token_step (t : tokenizer) (char : ascii) : tokenizer :=
  let q :=
    if bool_decide (char = dquote)
       && negb (bool_decide (t.(prev) = Some "\"%char))
    then negb t.(inQuotes) else t.(inQuotes) in
  if bool_decide (char = " "%char) && negb q
  then {| prev := Some char; inQuotes := q; currentPart := EmptyString;
          parts := push_part t.(currentPart) t.(parts) |}
  else {| prev := Some char; inQuotes := q;
          currentPart := String char t.(currentPart);
          parts := t.(parts) |}.

Fixpoint token_loop (t : tokenizer) (s : string) : tokenizer :=
  match s with
  | EmptyString => t
  | String c r => token_loop (token_step t c) r
  end.

Definition tokenize (commandStr : string) : list string :=
  let t := token_loop {| prev := None; inQuotes := false;
                         currentPart := EmptyString; parts := [] |}
             commandStr in
  rev (push_part t.(currentPart) t.(parts)).

(** *** The line loop *)

Record parser := {
  skipToLine : Z;
  currentCommand : list string;   (* in reverse *)
  emitted : list (list string)    (* in reverse *)
}.

Definition parse_line (lines : list string) (p : parser) (i : nat)
    : parser :=
  if (Z.of_nat i <? p.(skipToLine))%Z then p
  else
    match lines !! i with
    | None => p
    | Some raw =>
        let line := trim (strip_comment raw) in
        if is_empty line then p
        else
          let script :=
            if startsWith "SCRIPT:" line
            then parseSchemaForLuaScripts lines i else None in
          match script with
          | Some scriptResult =>
              {| skipToLine := Z.of_nat scriptResult.(endIndex) + 1;
                 currentCommand := p.(currentCommand);
                 emitted := p.(emitted) |}
          | None =>
              let cur := line :: p.(currentCommand) in
              if endsWithChar ";"%char line then
                let commandStr := dropLast (join " " (rev cur)) in
                let ps := tokenize commandStr in
                {| skipToLine := p.(skipToLine);
                   currentCommand := [];
                   emitted :=
                     match ps with
                     | [] => p.(emitted)
                     | _ => ps :: p.(emitted)
                     end |}
              else
                {| skipToLine := p.(skipToLine);
                   currentCommand := cur;
                   emitted := p.(emitted) |}
          end
    end.

Definition parse_lines (lines : list string) : list (list string) :=
  let p := foldl (parse_line lines)
             {| skipToLine := -1; currentCommand := []; emitted := [] |}
             (seq 0 (length lines)) in
  rev p.(emitted).

(** [config.variables] is all of the configuration the parser reads. *)
Definition parseSchemaContent (content : string)
    (variables : option (gmap string string)) : Parsed :=
  let metadata := extract_metadata content in
  let processedContent :=
    match variables with
    | Some vars =>
        if decide (vars = ∅) then content
        else processTemplate content (Some vars)
    | None => content
    end in
  {| commands := parse_lines (split_on "010"%char processedContent);
     metadata := metadata |}.

End SchemaParser.

Import SchemaParser.

(** ** Key prefixes (lib/utils.js) *)

Module Utils.

(** [parseInt(s, 10)]: leading white space, an optional sign, then the
    longest run of digits; [None] is [NaN]. *)
Definition parseInt (s : string) : option Z :=
  let t := trimStart s in
  let '(negative, body) :=
    match t with
    | String "-"%char r => (true, r)
    | String "+"%char r => (false, r)
    | _ => (false, t)
    end in
  match take_digits body with
  | EmptyString => None
  | ds =>
      let n := Z.of_N (parse_digits ds) in
      Some (if negative then (- n)%Z else n)
  end.

(** Commands where the first argument is always a key. *)
Definition firstArgKeyCommands : list string :=
  [ "APPEND"; "DECR"; "DECRBY"; "DEL"; "EXISTS"; "EXPIRE"; "EXPIREAT";
    "GET"; "GETBIT"; "GETRANGE"; "GETSET"; "HDEL"; "HEXISTS"; "HGET";
    "HGETALL"; "HINCRBY"; "HINCRBYFLOAT"; "HKEYS"; "HLEN"; "HMGET";
    "HMSET"; "HSET"; "HSETNX"; "HSTRLEN"; "HVALS"; "INCR"; "INCRBY";
    "INCRBYFLOAT"; "LINDEX"; "LINSERT"; "LLEN"; "LPOP"; "LPUSH";
    "LPUSHX"; "LRANGE"; "LREM"; "LSET"; "LTRIM"; "PERSIST"; "PEXPIRE";
    "PEXPIREAT"; "PSETEX"; "PTTL"; "RENAME"; "RENAMENX"; "RPOP"; "RPUSH";
    "RPUSHX"; "SADD"; "SCARD"; "SDIFF"; "SDIFFSTORE"; "SET"; "SETBIT";
    "SETEX"; "SETNX"; "SETRANGE"; "SINTER"; "SINTERSTORE"; "SISMEMBER";
    "SMEMBERS"; "SMOVE"; "SPOP"; "SRANDMEMBER"; "SREM"; "STRLEN";
    "SUNION"; "SUNIONSTORE"; "TTL"; "TYPE"; "ZADD"; "ZCARD"; "ZCOUNT";
    "ZINCRBY"; "ZINTERSTORE"; "ZLEXCOUNT"; "ZRANGE"; "ZRANGEBYLEX";
    "ZRANGEBYSCORE"; "ZRANK"; "ZREM"; "ZREMRANGEBYLEX"; "ZREMRANGEBYRANK";
    "ZREMRANGEBYSCORE"; "ZREVRANGE"; "ZREVRANGEBYLEX"; "ZREVRANGEBYSCORE";
    "ZREVRANK"; "ZSCORE"; "ZUNIONSTORE" ].

Section Rewrite.
Variable prefix : string.

(** [MSET], [MSETNX]: the arguments at even indices. *)
Fixpoint prefix_even (args : list string) : list string :=
  match args with
  | [] => []
  | k :: rest =>
      (prefix +:+ k)
      :: match rest with
         | [] => []
         | v :: rest' => v :: prefix_even rest'
         end
  end.

(** [MGET]: every argument. *)
Definition prefix_all (args : list string) : list string :=
  map (String.app prefix) args.

(** [RENAME], [RENAMENX]: the first two arguments, when there are two. *)
Definition prefix_two (args : list string) : list string :=
  match args with
  | a :: b :: rest => (prefix +:+ a) :: (prefix +:+ b) :: rest
  | _ => args
  end.

Definition has_glob (pattern : string) : bool :=
  includes "*"%char pattern || includes "?"%char pattern
  || includes "["%char pattern.

(** [SCAN]: the loop from index 1; it stops at the first [MATCH] that
    has a successor. *)
Fixpoint scan_match (args : list string) : list string :=
  match args with
  | a :: ((b :: rest) as tl) =>
      if decide (toUpperCase a = "MATCH")
      then a :: (if has_glob b then b else prefix +:+ b) :: rest
      else a :: scan_match tl
  | _ => args
  end.

Definition prefix_scan (args : list string) : list string :=
  match args with
  | [] => []
  | cursor :: rest => cursor :: scan_match rest
  end.

(** The first [n] elements. *)
Fixpoint prefix_first (n : nat) (keys : list string) : list string :=
  match n, keys with
  | S n', k :: rest => (prefix +:+ k) :: prefix_first n' rest
  | _, _ => keys
  end.

(** [EVAL], [EVALSHA]: script, key count, then that many keys. *)
Definition prefix_eval (args : list string) : list string :=
  match args with
  | script :: count :: rest =>
      match parseInt count with
      | Some keyCount =>
          if (0 <? keyCount)%Z
          then script :: count :: prefix_first (Z.to_nat keyCount) rest
          else args
      | None => args
      end
  | _ => args
  end.

Definition prefix_head (args : list string) : list string :=
  match args with
  | k :: rest => (prefix +:+ k) :: rest
  | [] => []
  end.

Definition rewrite_args (cmd : string) (args : list string)
    : list string :=
  if bool_decide (cmd ∈ ["MSET"; "MSETNX"]) then prefix_even args
  else if bool_decide (cmd = "MGET") then prefix_all args
  else if bool_decide (cmd ∈ ["RENAME"; "RENAMENX"]) then prefix_two args
  else if bool_decide (cmd = "SCAN") then prefix_scan args
  else if bool_decide (cmd ∈ ["EVALSHA"; "EVAL"]) then prefix_eval args
  else if bool_decide (cmd ∈ firstArgKeyCommands) then prefix_head args
  else args.

End Rewrite.

Definition applyPrefixToCommand (command : list string) (prefix : string)
    : list string :=
  if is_empty prefix then command
  else
    match command with
    | [] => command
    | verb :: args =>
        let cmd := toUpperCase verb in
        cmd :: rewrite_args prefix cmd args
    end.

End Utils.

Import Utils.

(** ** The client *)

Module Client.

(** One entry of the array a transaction or a pipeline resolves to;
    [Failure] is an instance of [Error]. *)
Inductive reply :=
| Value (v : string)
| Failure (message : string).

Inductive execOutcome :=
| Resolved (results : list reply)
| Rejected (message : string).

(** The calls made on the client, each with what it answered; for
    [sendCommand], [Some message] is the error it threw. *)
Inductive event :=
| EvMulti
| EvPipeline
| EvSend (cmd : list string) (threw : option string)
| EvExec (outcome : execOutcome).

(** The collaborator: it answers from the calls made so far.  [multi()]
    and [pipeline()] only create a queue and return. *)
Record client := {
  on_send : list event -> list string -> option string;
  on_exec : list event -> execOutcome
}.

Definition is_exec (e : event) : bool :=
  match e with EvExec _ => true | _ => false end.

Definition send_threw (e : event) : bool :=
  match e with EvSend _ (Some _) => true | _ => false end.

Definition exec_rejected (e : event) : bool :=
  match e with EvExec (Rejected _) => true | _ => false end.

End Client.

Import Client.

(** ** Transactions (lib/transactions.js) *)

Module Transactions.

Record txError := {
  index : nat;
  command : string;
  error : string
}.

Record txResult := {
  success : bool;
  commandsExecuted : option nat;
  message : option string;          (* the field [error] *)
  errors : option (list txError)
}.

(** The message of the [TypeError] for [commands[i].join] on a missing
    entry. *)
Definition undefined_join : string :=
  "Cannot read properties of undefined (reading 'join')".

(** Queue commands; the first [sendCommand] that throws ends the loop,
    [Some message] is its error. *)
Fixpoint queue_all (c : client) (tr : list event)
    (commands : list (list string)) : list event * option string :=
  match commands with
  | [] => (tr, None)
  | [] :: rest => queue_all c tr rest
  | (verb :: args) :: rest =>
      let cmd := toUpperCase verb :: args in
      match c.(on_send) tr cmd with
      | Some m => (tr ++ [EvSend cmd (Some m)], Some m)
      | None => queue_all c (tr ++ [EvSend cmd None]) rest
      end
  end.

(** Check for errors in results; [None] when [commands[i]] is missing. *)
Fixpoint collect_errors (commands : list (list string)) (i : nat)
    (results : list reply) : option (list txError) :=
  match results with
  | [] => Some []
  | Value _ :: rest => collect_errors commands (S i) rest
  | Failure m :: rest =>
      match commands !! i with
      | None => None
      | Some cmd =>
          match collect_errors commands (S i) rest with
          | None => None
          | Some es =>
              Some ({| index := i; command := join " " cmd; error := m |}
                    :: es)
          end
      end
  end.

Definition failed (m : string) : txResult :=
  {| success := false; commandsExecuted := None; message := Some m;
     errors := None |}.

(** [tr] is the trace of calls made on the client before this one; the
    result comes with the extended trace.  [pretty n] is the decimal
    numeral of [n]. *)
Definition executeInTransaction (c : client) (tr : list event)
    (commands : list (list string)) : txResult * list event :=
  match commands with
  | [] =>
      ({| success := true; commandsExecuted := Some 0; message := None;
          errors := None |}, tr)
  | _ =>
      let tr1 := tr ++ [EvMulti] in
      match queue_all c tr1 commands with
      | (tr2, Some m) =>
          (failed ("Failed to add command to transaction: " +:+ m), tr2)
      | (tr2, None) =>
          let outcome := c.(on_exec) tr2 in
          let tr3 := tr2 ++ [EvExec outcome] in
          match outcome with
          | Rejected m => (failed m, tr3)
          | Resolved results =>
              match collect_errors commands 0 results with
              | None => (failed undefined_join, tr3)
              | Some [] =>
                  ({| success := true;
                      commandsExecuted := Some (length commands);
                      message := None; errors := None |}, tr3)
              | Some es =>
                  ({| success := false; commandsExecuted := None;
                      message :=
                        Some ("Transaction had " +:+ pretty (length es)
                              +:+ " errors");
                      errors := Some es |}, tr3)
              end
          end
      end
  end.

End Transactions.

(** ** Objects used as dictionaries *)

Module JsObject.

(** Properties in insertion order, one entry per key. *)
Definition obj (V : Type) : Type := list (string * V).

Fixpoint get {V} (k : string) (o : obj V) : option V :=
  match o with
  | [] => None
  | (k', v) :: r => if decide (k' = k) then Some v else get k r
  end.

(** [o[k] = v]: an existing property keeps its place. *)
Fixpoint set {V} (k : string) (v : V) (o : obj V) : obj V :=
  match o with
  | [] => [(k, v)]
  | (k', v') :: r =>
      if decide (k' = k) then (k, v) :: r else (k', v') :: set k v r
  end.

Fixpoint all_digits (s : string) : bool :=
  match s with
  | EmptyString => true
  | String c r => is_digit c && all_digits r
  end.

(** A key that is the canonical numeral of an integer below [2^32 - 1] is
    an array index. *)
Definition array_index (k : string) : option N :=
  match k with
  | EmptyString => None
  | String c r =>
      if all_digits k
         && (is_empty r || negb (bool_decide (c = "0"%char)))
         && (parse_digits k <=? 4294967294)%N
      then Some (parse_digits k) else None
  end.

Definition indexed (k : string) : option (N * string) :=
  match array_index k with
  | Some n => Some (n, k)
  | None => None
  end.

Definition index_le (a b : N * string) : Prop := (a.1 <= b.1)%N.

Global Instance index_le_dec : RelDecision index_le.
Proof. intros a b. unfold index_le. apply _. Defined.

(** The order of [for (const k in o)]: array indices in ascending order,
    then the other keys in insertion order. *)
Definition keys {V} (o : obj V) : list string :=
  let ks := map fst o in
  map snd (merge_sort index_le (omap indexed ks))
  ++ filter (fun k => array_index k = None) ks.

End JsObject.

(** ** Dependency order and loading (lib/schema-loader.js) *)

Module Loader.

Import JsObject.

Record schemaFile := {
  path : string;
  content : string;
  commands : list (list string);
  metadata : Metadata
}.

(** [path.basename] of POSIX paths: the last component, trailing
    separators ignored. *)
Definition basename (p : string) : string :=
  default "" (last (filter (fun s => s <> "") (split_on "/"%char p))).

Inductive sortError :=
| CircularDependency (name : string)
| MissingDependency (name dep : string)
| NotIterable.

(** The messages of the two errors of the resolver, and the message V8
    gives the [TypeError] of a [for ... of] whose subject is not
    iterable. *)
Definition error_message (e : sortError) : string :=
  match e with
  | CircularDependency name =>
      "Circular dependency detected in schema " +:+ name
  | MissingDependency name dep =>
      "Schema " +:+ name +:+ " depends on " +:+ dep +:+ ", but " +:+ dep
      +:+ " was not found"
  | NotIterable => "(dependencyMap[name] || []) is not iterable"
  end.

(** A computation that returns, throws, or needs more fuel. *)
Inductive outcome (E A : Type) :=
| Ok (a : A)
| Throw (e : E)
| OutOfFuel.
Arguments Ok {E A} a.
Arguments Throw {E A} e.
Arguments OutOfFuel {E A}.

Definition bind {E A B} (m : outcome E A) (k : A -> outcome E B)
    : outcome E B :=
  match m with
  | Ok a => k a
  | Throw e => Throw e
  | OutOfFuel => OutOfFuel
  end.

Global Instance outcome_bind {E} : MBind (outcome E) :=
  fun A B k m => bind m k.

(** [for (const dep of deps) if (check(dep)) return true; return false] *)
Fixpoint any_dep (check : string -> outcome sortError bool)
    (deps : list string) : outcome sortError bool :=
  match deps with
  | [] => Ok false
  | dep :: rest =>
      match check dep with
      | Ok false => any_dep check rest
      | r => r
      end
  end.

(** What a lookup in one of the two dictionaries of the resolver can
    give: nothing, a string (a path, or an element of an array of
    dependencies), a number (the length of an array), an array of
    dependencies, or another object (a function or a prototype). *)
Inductive jsValue :=
| VUndefined
| VString (s : string)
| VNumber (n : nat)
| VArray (items : list string)
| VObject.

(** [!!value] *)
Definition truthy (v : jsValue) : bool :=
  match v with
  | VUndefined => false
  | VString s => negb (is_empty s)
  | VNumber n => negb (bool_decide (n = 0))
  | VArray _ | VObject => true
  end.

(** The characters of a string. *)
Fixpoint chars (s : string) : list string :=
  match s with
  | EmptyString => []
  | String c r => String c EmptyString :: chars r
  end.

(** What [for (const dep of value || [])] runs over: the elements of an
    array, the characters of a string, nothing for a value that is not
    truthy; [None] for a number other than 0 and for an object that is
    not an array, which are not iterable. *)
Definition iterated (v : jsValue) : option (list string) :=
  match v with
  | VUndefined => Some []
  | VString s => Some (chars s)
  | VNumber n => if bool_decide (n = 0) then Some [] else None
  | VArray items => Some items
  | VObject => None
  end.

(** [o[name]] for an object [o] without the own property [name] whose
    prototype is [Object.prototype]; for [__proto__] the value is the
    prototype itself. *)
Definition object_prototype (name : string) : jsValue :=
  if Prototype.inherited name then VObject else VUndefined.

(** The index properties of an array, keyed by the numerals. *)
Definition array_props (arr : list string) : obj string :=
  imap (fun i s => (pretty i, s)) arr.

(** An object whose prototype has been assigned: its own properties,
    and the array that has taken the place of [Object.prototype], if
    any. *)
Record dictionary := {
  props : obj (list string);
  proto : option (list string)
}.

Section Sort.
Variable schemaFiles : list schemaFile.

(** [nameToPath[name] = schema.path].  For the name [__proto__] the
    assignment of a string changes nothing. *)
Definition nameToPath : obj string :=
  foldl (fun o s =>
           let name := basename s.(path) in
           if bool_decide (name = "__proto__") then o
           else set name s.(path) o)
    [] schemaFiles.

(** [dependencyMap[name] = schema.metadata.dependencies || []]; the
    array of dependencies is never falsy.  For the name [__proto__]
    the assignment makes the array the prototype of the object and
    adds no property. *)
Definition dependencyMap : dictionary :=
  foldl (fun o s =>
           let name := basename s.(path) in
           let deps := s.(metadata).(dependencies) in
           if bool_decide (name = "__proto__")
           then {| props := o.(props); proto := Some deps |}
           else {| props := set name deps o.(props);
                   proto := o.(proto) |})
    {| props := []; proto := None |} schemaFiles.

(** [dependencyMap[name]]: an own property; else, when an array is the
    prototype, the array itself for [__proto__], its elements and its
    length, and what [Array.prototype] has; else what
    [Object.prototype] has. *)
Definition dependency_lookup (name : string) : jsValue :=
  match get name dependencyMap.(props) with
  | Some deps => VArray deps
  | None =>
      match dependencyMap.(proto) with
      | None => object_prototype name
      | Some arr =>
          if bool_decide (name = "__proto__") then VArray arr
          else
            match get name (array_props arr) with
            | Some s => VString s
            | None =>
                if bool_decide (name = "length")
                then VNumber (length arr)
                else if bool_decide (name ∈ Prototype.array_methods)
                then VObject
                else object_prototype name
            end
      end
  end.

(** [nameToPath[dep]] *)
Definition path_lookup (dep : string) : jsValue :=
  match get dep nameToPath with
  | Some p => VString p
  | None => object_prototype dep
  end.

(** The subject of [for (const dep of dependencyMap[name] || [])];
    [None] when it is not iterable. *)
Definition deps_of (name : string) : option (list string) :=
  iterated (dependency_lookup name).

(** [!nameToPath[dep]] *)
Definition not_found (dep : string) : bool :=
  negb (truthy (path_lookup dep)).

(** The names [for (const name in dependencyMap)] runs over: the own
    properties, then the indices of an array that is the prototype,
    but for those that are own properties too. *)
Definition for_in_names : list string :=
  keys dependencyMap.(props)
  ++ match dependencyMap.(proto) with
     | Some arr =>
         filter (fun k => get k dependencyMap.(props) = None)
           (map fst (array_props arr))
     | None => []
     end.

(** The depth-first check with a visited set local to the path. *)
Fixpoint checkCircular (fuel : nat) (name : string)
    (visited : gset string) : outcome sortError bool :=
  match fuel with
  | O => OutOfFuel
  | S fuel' =>
      if decide (name ∈ visited) then Ok true
      else
        match deps_of name with
        | None => Throw NotIterable
        | Some deps =>
            any_dep
              (fun dep => checkCircular fuel' dep ({[name]} ∪ visited))
              deps
        end
  end.

Fixpoint check_all (fuel : nat) (names : list string)
    : outcome sortError unit :=
  match names with
  | [] => Ok ()
  | name :: rest =>
      match checkCircular fuel name ∅ with
      | OutOfFuel => OutOfFuel
      | Throw e => Throw e
      | Ok true => Throw (CircularDependency name)
      | Ok false => check_all fuel rest
      end
  end.

(** The state of the topological sort: the visited names and the
    result; [find] may answer [undefined]. *)
Definition sortState : Type := gset string * list (option schemaFile).

Fixpoint visit_deps (visit : string -> sortState -> outcome sortError sortState)
    (name : string) (deps : list string) (st : sortState)
    : outcome sortError sortState :=
  match deps with
  | [] => Ok st
  | dep :: rest =>
      if not_found dep then Throw (MissingDependency name dep)
      else st' ← visit dep st; visit_deps visit name rest st'
  end.

Definition find_schema (name : string) : option schemaFile :=
  List.find (fun s => bool_decide (basename s.(path) = name)) schemaFiles.

Fixpoint visit (fuel : nat) (name : string) (st : sortState)
    : outcome sortError sortState :=
  match fuel with
  | O => OutOfFuel
  | S fuel' =>
      if decide (name ∈ st.1) then Ok st
      else
        match deps_of name with
        | None => Throw NotIterable
        | Some deps =>
            st' ← visit_deps (visit fuel') name deps
                    ({[name]} ∪ st.1, st.2);
            Ok (st'.1, st'.2 ++ [find_schema name])
        end
  end.

Fixpoint visit_all (fuel : nat) (names : list string) (st : sortState)
    : outcome sortError sortState :=
  match names with
  | [] => Ok st
  | name :: rest => st' ← visit fuel name st; visit_all fuel rest st'
  end.

(** Neither traversal goes deeper than the number of names that have
    dependencies, which are the names of the loop and [__proto__], so
    the fuel is enough (see [sortSchemasByDependencies_total]). *)
Definition sortSchemasByDependencies
    : outcome sortError (list (option schemaFile)) :=
  let names := for_in_names in
  let fuel := length names + 2 in
  _ ← check_all fuel names;
  st ← visit_all fuel names (∅, []);
  Ok st.2.

End Sort.

(** *** loadSchemas *)

Record Config := {
  variables : option (gmap string string);
  prefix : string;          (* empty when not set *)
  batchSize : nat;          (* 0 when not set *)
  useTransactions : bool;
  dryRun : bool
}.

(** The two extensions of the pattern [**/*.{redis,schema}]. *)
Inductive extension := Redis | Schema.

Definition extension_text (e : extension) : string :=
  match e with
  | Redis => ".redis"
  | Schema => ".schema"
  end.

(** A path the pattern matches: some text, then one of the two
    extensions. *)
Record globMatch := {
  stem : string;
  ext : extension
}.

Definition match_path (g : globMatch) : string :=
  g.(stem) +:+ extension_text g.(ext).

(** What the loader sees of the file system: whether the schemas
    directory exists and, for each path the pattern matches, the content
    [readFileSync] returns, [None] when it throws. *)
Record fileSystem := {
  dirExists : bool;
  matches : list (globMatch * option string)
}.

(** The paths [globSync] returns, each with the content of the file. *)
Definition globbed (fs : fileSystem) : list (string * option string) :=
  map (fun m => (match_path m.1, m.2)) fs.(matches).

Record loadResult := {
  success : bool;
  details : option string;
  commandsExecuted : option nat;
  filesProcessed : option nat;
  errorCount : option nat
}.

Definition load_failed (d : string) : loadResult :=
  {| success := false; details := Some d; commandsExecuted := None;
     filesProcessed := None; errorCount := None |}.

(** The running counters and the trace of calls on the client. *)
Record runState := {
  trace : list event;
  executed : nat;
  errs : nat
}.

(** Parse all schemas first. *)
Fixpoint parse_files (vars : option (gmap string string))
    (fs : list (string * option string)) : list schemaFile :=
  match fs with
  | [] => []
  | (file, Some text) :: rest =>
      let parsed := parseSchemaContent text vars in
      {| path := file; content := text;
         commands := parsed.(SchemaParser.commands);
         metadata := parsed.(SchemaParser.metadata) |}
      :: parse_files vars rest
  | (_, None) :: rest => parse_files vars rest
  end.

Section Run.
Variable c : client.
Variable config : Config.

(** [config.prefix ? applyPrefixToCommand(cmd, config.prefix) : cmd] *)
Definition with_prefix (cmd : list string) : list string :=
  if is_empty config.(prefix) then cmd
  else applyPrefixToCommand cmd config.(prefix).

(** The body of the loop over a batch: an empty command is passed over;
    an error while preparing or queuing is counted. *)
Definition queue_command (st : runState) (command : list string)
    : runState :=
  match command with
  | [] => st
  | _ =>
      match with_prefix command with
      | [] =>
          {| trace := st.(trace); executed := st.(executed);
             errs := S st.(errs) |}
      | verb :: args =>
          let cmd := toUpperCase verb :: args in
          match c.(on_send) st.(trace) cmd with
          | None =>
              {| trace := st.(trace) ++ [EvSend cmd None];
                 executed := st.(executed); errs := st.(errs) |}
          | Some m =>
              {| trace := st.(trace) ++ [EvSend cmd (Some m)];
                 executed := st.(executed); errs := S st.(errs) |}
          end
      end
  end.

(** [await pipeline.exec()] and the two counters. *)
Definition exec_batch (batch : list (list string)) (st : runState)
    : runState :=
  let o := c.(on_exec) st.(trace) in
  match o with
  | Resolved _ =>
      {| trace := st.(trace) ++ [EvExec o];
         executed := st.(executed) + length batch; errs := st.(errs) |}
  | Rejected _ =>
      {| trace := st.(trace) ++ [EvExec o];
         executed := st.(executed); errs := S st.(errs) |}
  end.

(** [client.pipeline()] and the loop over the batch. *)
Definition queue_batch (batch : list (list string)) (st : runState)
    : runState :=
  foldl queue_command
    {| trace := st.(trace) ++ [EvPipeline];
       executed := st.(executed); errs := st.(errs) |}
    batch.

Definition run_batch (batch : list (list string)) (st : runState)
    : runState :=
  exec_batch batch (queue_batch batch st).

(** [for (let i = 0; i < commands.length; i += size)]; [None] when the
    fuel runs out. *)
Fixpoint batch_loop (fuel : nat) (size : nat)
    (cmds : list (list string)) (i : nat) (st : runState)
    : option runState :=
  if bool_decide (i < length cmds) then
    match fuel with
    | O => None
    | S fuel' =>
        let batch := take size (drop i cmds) in
        batch_loop fuel' size cmds (i + size) (run_batch batch st)
    end
  else Some st.

(** [config.batchSize || 100] *)
Definition effective_batch_size : nat :=
  match config.(batchSize) with
  | O => 100
  | n => n
  end.

Definition process_schema (schema : schemaFile) (st : runState)
    : option runState :=
  if config.(dryRun) then Some st
  else if config.(useTransactions)
          && bool_decide (0 < length schema.(commands))
  then
    let processedCommands := map with_prefix schema.(commands) in
    let '(result, tr) :=
      Transactions.executeInTransaction c st.(trace) processedCommands in
    if result.(Transactions.success)
    then Some {| trace := tr;
                 executed := st.(executed) + length schema.(commands);
                 errs := st.(errs) |}
    else Some {| trace := tr; executed := st.(executed);
                 errs := S st.(errs) |}
  else
    batch_loop (length schema.(commands)) effective_batch_size
      schema.(commands) 0 st.

Fixpoint process_all (schemas : list schemaFile) (st : runState)
    : option runState :=
  match schemas with
  | [] => Some st
  | schema :: rest =>
      match process_schema schema st with
      | Some st' => process_all rest st'
      | None => None
      end
  end.

(** [sortedSchemas] with every entry defined, or [None]. *)
Definition defined_schemas (l : list (option schemaFile))
    : option (list schemaFile) :=
  mapM id l.

Definition undefined_path : string :=
  "Cannot read properties of undefined (reading 'path')".

(** The directory variant of [loadSchemas] ([fromString] false), with
    the trace of calls made on the client; [None] when the fuel runs
    out. *)
Definition loadSchemas (fs : fileSystem)
    : option (loadResult * list event) :=
  if negb fs.(dirExists)
  then Some (load_failed "Schemas directory not found", [])
  else
    match globbed fs with
    | [] =>
        Some ({| success := true; details := None;
                 commandsExecuted := Some 0; filesProcessed := Some 0;
                 errorCount := None |}, [])
    | _ =>
        let schemaFiles := parse_files config.(variables) (globbed fs) in
        match sortSchemasByDependencies schemaFiles with
        | OutOfFuel => None
        | Throw e => Some (load_failed (error_message e), [])
        | Ok sorted =>
            match defined_schemas sorted with
            | None => Some (load_failed undefined_path, [])
            | Some sortedSchemas =>
                match process_all sortedSchemas
                        {| trace := []; executed := 0; errs := 0 |} with
                | None => None
                | Some st =>
                    Some ({| success := bool_decide (st.(errs) = 0);
                             details := None;
                             commandsExecuted := Some st.(executed);
                             filesProcessed := Some (length schemaFiles);
                             errorCount := Some st.(errs) |},
                          st.(trace))
                end
            end
        end
    end.

End Run.

End Loader.

(** ** Loading one schema from a string (lib/schema-loader.js) *)

Module StringMode.

Import Loader.

(** [loadSchemaFromString]; [schemaContent] is [config.schemaContent],
    [None] when the property is absent.  The result object has no
    [filesProcessed]. *)
Definition loadSchemaFromString (c : client) (config : Config)
    (schemaContent : option string) : option (loadResult * list event) :=
  match schemaContent with
  | None => Some (load_failed "No schema content provided", [])
  | Some text =>
      if is_empty text
      then Some (load_failed "No schema content provided", [])
      else
        let parsed := parseSchemaContent text config.(variables) in
        let commands := parsed.(SchemaParser.commands) in
        if config.(dryRun)
        then Some ({| success := true; details := None;
                      commandsExecuted := Some 0; filesProcessed := None;
                      errorCount := None |}, [])
        else if config.(useTransactions)
                && bool_decide (0 < length commands)
        then
          let processedCommands := map (with_prefix config) commands in
          let '(result, tr) :=
            Transactions.executeInTransaction c [] processedCommands in
          if result.(Transactions.success)
          then Some ({| success := true; details := None;
                        commandsExecuted := Some (length commands);
                        filesProcessed := None; errorCount := Some 0 |},
                     tr)
          else Some ({| success := false; details := None;
                        commandsExecuted := Some 0;
                        filesProcessed := None; errorCount := Some 1 |},
                     tr)
        else
          match batch_loop c config (length commands)
                  (effective_batch_size config) commands 0
                  {| trace := []; executed := 0; errs := 0 |} with
          | None => None
          | Some st =>
              Some ({| success := bool_decide (st.(errs) = 0);
                       details := None;
                       commandsExecuted := Some st.(executed);
                       filesProcessed := None;
                       errorCount := Some st.(errs) |}, st.(trace))
          end
  end.

End StringMode.

(** ** Expiry rules (lib/utils.js) *)

Module Ttl.

(** The calls [applyTTL] makes on the client, each with what it
    answered: [keys] resolves to an array of keys or throws, a queued
    [expire] and [exec] return or throw.  What [exec] resolves to is not
    looked at. *)
Inductive event :=
| EvKeys (pattern : string) (answer : list string + string)
| EvPipeline
| EvExpire (key : string) (seconds : Z) (threw : option string)
| EvExec (threw : option string).

Record client := {
  on_keys : list event -> string -> list string + string;
  on_expire : list event -> string -> Z -> option string;
  on_exec : list event -> option string
}.

Record ttlResult := {
  success : bool;
  keysAffected : option nat;
  message : option string          (* the field [error] *)
}.

Definition batchSize : nat := 1000.

(** [for (const key of batch) pipeline.expire(key, seconds)]: the trace,
    and the message of the call that threw, if one did. *)
Fixpoint expire_batch (c : client) (seconds : Z) (batch : list string)
    (tr : list event) : list event * option string :=
  match batch with
  | [] => (tr, None)
  | key :: rest =>
      let r := c.(on_expire) tr key seconds in
      let tr' := tr ++ [EvExpire key seconds r] in
      match r with
      | Some m => (tr', Some m)
      | None => expire_batch c seconds rest tr'
      end
  end.

(** [for (let i = 0; i < keys.length; i += batchSize)]; [None] when the
    fuel runs out. *)
Fixpoint batch_loop (fuel : nat) (c : client) (seconds : Z)
    (keys : list string) (i : nat) (tr : list event)
    : option (list event * option string) :=
  if bool_decide (i < length keys) then
    match fuel with
    | O => None
    | S fuel' =>
        let batch := take batchSize (drop i keys) in
        match expire_batch c seconds batch (tr ++ [EvPipeline]) with
        | (tr2, Some m) => Some (tr2, Some m)
        | (tr2, None) =>
            let x := c.(on_exec) tr2 in
            let tr3 := tr2 ++ [EvExec x] in
            match x with
            | Some m => Some (tr3, Some m)
            | None => batch_loop fuel' c seconds keys (i + batchSize) tr3
            end
        end
    end
  else Some (tr, None).

(** [config.prefix ? prefix + pattern : pattern] *)
Definition fullPattern (prefix pattern : string) : string :=
  if is_empty prefix then pattern else prefix +:+ pattern.

(** The loop over the rules: the trace, and the total or the message of
    the call that threw. *)
Fixpoint rules_loop (c : client) (prefix : string)
    (rules : list (string * Z)) (total : nat) (tr : list event)
    : option (list event * (string + nat)) :=
  match rules with
  | [] => Some (tr, inr total)
  | (pattern, seconds) :: rest =>
      let a := c.(on_keys) tr (fullPattern prefix pattern) in
      let tr1 := tr ++ [EvKeys (fullPattern prefix pattern) a] in
      match a with
      | inr m => Some (tr1, inl m)
      | inl [] => rules_loop c prefix rest total tr1
      | inl keys =>
          match batch_loop (length keys) c seconds keys 0 tr1 with
          | None => None
          | Some (tr2, Some m) => Some (tr2, inl m)
          | Some (tr2, None) =>
              rules_loop c prefix rest (total + length keys) tr2
          end
      end
  end.

(** [Object.entries(o)] *)
Definition entries {V} (o : JsObject.obj V) : list (string * V) :=
  omap (fun k => pair k <$> JsObject.get k o) (JsObject.keys o).

(** [ttlRules] is [config.ttlRules], [None] when absent; [prefix] is
    [config.prefix], empty when not set. *)
Definition applyTTL (c : client) (prefix : string)
    (ttlRules : option (JsObject.obj Z))
    : option (ttlResult * list event) :=
  let expiryRules := default [] ttlRules in
  match JsObject.keys expiryRules with
  | [] =>
      Some ({| success := true; keysAffected := Some 0;
               message := None |}, [])
  | _ =>
      match rules_loop c prefix (entries expiryRules) 0 [] with
      | None => None
      | Some (tr, inr total) =>
          Some ({| success := true; keysAffected := Some total;
                   message := None |}, tr)
      | Some (tr, inl m) =>
          Some ({| success := false; keysAffected := None;
                   message := Some m |}, tr)
      end
  end.

End Ttl.

(** ** Registering the scripts (lib/lua-scripts.js) *)

Module Registry.

(** An entry of the script registry. *)
Record info := {
  sha : string;
  source : string
}.

(** The calls [registerLuaScripts] makes on the client: [scriptLoad]
    resolves to a digest or throws, [del] and [hSet] return or throw.
    The value handed to [hSet] is [JSON.stringify] of the entry; the
    event records the entry. *)
Inductive event :=
| EvScriptLoad (script : string) (answer : string + string)
| EvDel (key : string) (threw : option string)
| EvHSet (key name : string) (value : info) (threw : option string).

Record client := {
  on_scriptLoad : list event -> string -> string + string;
  on_del : list event -> string -> option string;
  on_hSet : list event -> string -> string -> info -> option string
}.

Record registerResult := {
  success : bool;
  count : option nat;
  total : option nat;
  scripts : option (JsObject.obj info);
  message : option string          (* the field [error] *)
}.

Definition nothing_to_do (n : nat) : registerResult :=
  {| success := true; count := Some n; total := None; scripts := None;
     message := None |}.

Definition register_failed (m : string) : registerResult :=
  {| success := false; count := None; total := None; scripts := None;
     message := Some m |}.

(** [scriptRegistry[name] = value] on an object literal: the name
    [__proto__] is the accessor of [Object.prototype], so the assignment
    adds no property. *)
Definition assign (name : string) (value : info)
    (registry : JsObject.obj info) : JsObject.obj info :=
  if decide (name = "__proto__") then registry
  else JsObject.set name value registry.

(** Register each script: a [scriptLoad] that throws is passed over. *)
Fixpoint load_all (c : client) (found : list luaScript)
    (registry : JsObject.obj info) (successCount : nat)
    (tr : list event) : JsObject.obj info * nat * list event :=
  match found with
  | [] => (registry, successCount, tr)
  | script :: rest =>
      let a := c.(on_scriptLoad) tr script.(ls_script) in
      let tr' := tr ++ [EvScriptLoad script.(ls_script) a] in
      match a with
      | inl digest =>
          load_all c rest
            (assign script.(ls_name)
               {| sha := digest; source := script.(ls_source) |} registry)
            (S successCount) tr'
      | inr _ => load_all c rest registry successCount tr'
      end
  end.

(** Store the registry: the first [hSet] that throws ends the loop. *)
Fixpoint store_all (c : client) (registryKey : string)
    (entries : list (string * info)) (tr : list event) : list event :=
  match entries with
  | [] => tr
  | (name, value) :: rest =>
      let r := c.(on_hSet) tr registryKey name value in
      let tr' := tr ++ [EvHSet registryKey name value r] in
      match r with
      | Some _ => tr'
      | None => store_all c registryKey rest tr'
      end
  end.

Definition registryKey (prefix : string) : string :=
  if is_empty prefix then "lua:scripts" else prefix +:+ "lua:scripts".

(** What follows once the scripts are found. *)
Definition register (c : client) (prefix : string) (dryRun : bool)
    (found : list luaScript) : registerResult * list event :=
  match found with
  | [] => (nothing_to_do 0, [])
  | _ =>
      if dryRun then (nothing_to_do (length found), [])
      else
        let '(registry, successCount, tr) := load_all c found [] 0 [] in
        let tr' :=
          if bool_decide (0 < successCount) then
            let d := c.(on_del) tr (registryKey prefix) in
            let tr1 := tr ++ [EvDel (registryKey prefix) d] in
            match d with
            | Some _ => tr1
            | None =>
                store_all c (registryKey prefix) (Ttl.entries registry)
                  tr1
            end
          else tr in
        ({| success := bool_decide (0 < successCount);
            count := Some successCount;
            total := Some (length found);
            scripts := Some registry;
            message := None |}, tr')
  end.

(** [config.schemaName || 'inline-schema'] *)
Definition sourceName (schemaName : option string) : string :=
  match schemaName with
  | Some n => if is_empty n then "inline-schema" else n
  | None => "inline-schema"
  end.

(** [registerLuaScripts(client, config, true)] *)
Definition registerFromString (c : client) (prefix : string)
    (dryRun : bool) (schemaContent schemaName : option string)
    : registerResult * list event :=
  match schemaContent with
  | None => (nothing_to_do 0, [])
  | Some text =>
      if is_empty text then (nothing_to_do 0, [])
      else register c prefix dryRun
             (findLuaScriptsInSchema text (sourceName schemaName))
  end.

(** [file.endsWith(suffix)] *)
Definition endsWith (suffix s : string) : bool :=
  (String.length suffix <=? String.length s)
  && bool_decide
       (substring_from (String.length s - String.length suffix) s
        = suffix).

(** What the directory mode reads: whether [schemasDir] exists, and
    what [readdirSync] returns or throws, each entry with the content
    [readFileSync] returns, [None] when it throws.  An entry is a name
    without separator, so the base name of its joined path is the entry
    itself. *)
Record directory := {
  dirExists : bool;
  listing : list (string * option string) + string
}.

Fixpoint find_all (files : list (string * option string))
    : list luaScript :=
  match files with
  | [] => []
  | (file, Some text) :: rest =>
      findLuaScriptsInSchema text file ++ find_all rest
  | (_, None) :: rest => find_all rest
  end.

(** [registerLuaScripts(client, config)] *)
Definition registerFromDirectory (c : client) (prefix : string)
    (dryRun : bool) (schemasDir : string) (dir : directory)
    : registerResult * list event :=
  if negb dir.(dirExists)
  then (register_failed ("Schemas directory not found: " +:+ schemasDir),
        [])
  else
    match dir.(listing) with
    | inr m => (register_failed m, [])
    | inl names =>
        let files :=
          List.filter
            (fun f => endsWith ".redis" f.1 || endsWith ".schema" f.1)
            names in
        register c prefix dryRun (find_all files)
    end.

End Registry.

(** * Specification vocabulary *)

(** ** Markers of a text

    A text read from the left is a sequence of segments: where a marker
    starts, the marker is a segment and reading resumes behind it; elsewhere
    the character is a segment of its own. *)

Module TemplateSpec.

(** A marker name: not empty, no closing brace. *)
Definition valid_name (n : string) : Prop :=
  n <> "" /\ includes "}"%char n = false.

Definition starts_with_marker (s : string) : Prop :=
  exists n rest, valid_name n /\ s = marker n +:+ rest.

Inductive segment :=
| Lit (c : ascii)
| Marker (name : string).

Inductive segments : string -> list segment -> Prop :=
| segments_nil : segments "" []
| segments_marker n rest l :
    valid_name n -> segments rest l ->
    segments (marker n +:+ rest) (Marker n :: l)
| segments_lit c s l :
    ~ starts_with_marker (String c s) -> segments s l ->
    segments (String c s) (Lit c :: l).

(** The text of a segment as it stands. *)
Definition seg_text (s : segment) : string :=
  match s with
  | Lit c => String c ""
  | Marker n => marker n
  end.


(** The text of a segment after substitution, when a marker whose name
    is not in the mapping but is that of a property every object inherits
    changes too: it becomes the text of the inherited value. *)
Definition seg_value (vars : gmap string string) (s : segment) : string :=
  match s with
  | Marker n =>
      match vars !! n with
      | Some v => v
      | None => default (marker n) (Prototype.inherited_text n)
      end
  | other => seg_text other
  end.


Definition concat_map (f : segment -> string) (l : list segment) : string :=
  foldr (fun s acc => f s +:+ acc) "" l.

End TemplateSpec.

(** ** Verb families of the prefix rewriter *)

Module PrefixSpec.

(** The verbs with a rewrite rule: every remaining token a key, keys and
    values in pairs, two keys, a pattern, a script invocation, and a
    single leading key. *)
Definition enumerated_verbs : list string :=
  ["MGET"] ++ ["MSET"; "MSETNX"] ++ ["RENAME"; "RENAMENX"] ++ ["SCAN"]
  ++ ["EVAL"; "EVALSHA"] ++ firstArgKeyCommands.

(** The verb, compared without regard to case, is in no family. *)
Definition outside_families (verb : string) : Prop :=
  toUpperCase verb ∉ enumerated_verbs.

End PrefixSpec.

(** ** What the client sees *)

Module ExecutionSpec.

Import Loader.

(** A command as it is handed to [sendCommand]: the verb in upper case. *)
Definition sent (command : list string) : list string :=
  match command with
  | verb :: args => toUpperCase verb :: args
  | [] => []
  end.

(** The same, for a command of a schema: the prefix is applied first. *)
Definition prepared (config : Config) (command : list string)
    : list string :=
  sent (with_prefix config command).

Fixpoint count (p : event -> bool) (tr : list event) : nat :=
  match tr with
  | [] => 0
  | e :: rest => (if p e then 1 else 0) + count p rest
  end.

(** 1 for a [sendCommand] that threw. *)
Definition thrown (s : option string) : nat :=
  match s with Some _ => 1 | None => 0 end.

(** 1 for an [exec] that threw. *)
Definition rejected (o : execOutcome) : nat :=
  match o with Rejected _ => 1 | Resolved _ => 0 end.

(** The size of the batch for an [exec] that resolved. *)
Definition credited (size : nat) (o : execOutcome) : nat :=
  match o with Resolved _ => size | Rejected _ => 0 end.

End ExecutionSpec.

(** ** Declared dependencies *)

Module ResolverSpec.

Import Loader.

Definition base_names (files : list schemaFile) : list string :=
  map (fun f => basename f.(path)) files.

(** Some file with base name [name] lists [dep] among its dependencies. *)
Definition declares (files : list schemaFile) (name dep : string) : Prop :=
  exists f, f ∈ files /\ basename f.(path) = name
            /\ dep ∈ f.(metadata).(dependencies).

(** The declared relation has a cycle through [name]. *)
Definition on_cycle (files : list schemaFile) (name : string) : Prop :=
  tc (declares files) name name.

Definition cyclic (files : list schemaFile) : Prop :=
  exists name, on_cycle files name.

(** Following declared dependencies from [name] one arrives at a cycle
    ([name] may be on the cycle itself). *)
Definition leads_to_cycle (files : list schemaFile) (name : string)
    : Prop :=
  exists m, rtc (declares files) name m /\ on_cycle files m.

(** No file has the base name [dep]. *)
Definition missing (files : list schemaFile) (dep : string) : Prop :=
  dep ∉ base_names files.

Definition declares_missing (files : list schemaFile) : Prop :=
  exists name dep, declares files name dep /\ missing files dep.

(** No file has the base name [__proto__], the one name whose
    assignment adds no property to a dictionary. *)
Definition plain_names (files : list schemaFile) : Prop :=
  "__proto__" ∉ base_names files.

(** A declared dependency that is the name of a property every object
    inherits is the base name of a file, so that a lookup of a declared
    dependency never gives an inherited value. *)
Definition plain_dependencies (files : list schemaFile) : Prop :=
  forall name dep,
    declares files name dep -> Prototype.inherited dep = true ->
    dep ∈ base_names files.

(** A file with base name [dep] and a path that is not empty exists. *)
Definition provided (files : list schemaFile) (dep : string) : Prop :=
  exists f, f ∈ files /\ basename f.(path) = dep /\ f.(path) <> "".

(** The relation the resolver follows: [dep] is among what the loop over
    [dependencyMap[name] || []] runs over. *)
Definition edge (files : list schemaFile) (name dep : string) : Prop :=
  exists deps, deps_of files name = Some deps /\ dep ∈ deps.

(** Following the relation from [name], every lookup gives something
    the loop can run over. *)
Definition iterable_from (files : list schemaFile) (name : string)
    : Prop :=
  forall m, rtc (edge files) name m -> deps_of files m <> None.

Definition is_missing_error (files : list schemaFile) (e : sortError)
    : Prop :=
  exists name dep,
    e = MissingDependency name dep /\ edge files name dep
    /\ not_found files dep = true.

(** The names the two loops of the resolver run over, as a set. *)
Definition key_set (files : list schemaFile) : gset string :=
  list_to_set (for_in_names files).

(** The names that can have dependencies. *)
Definition nodes (files : list schemaFile) : gset string :=
  key_set files ∪ {["__proto__"]}.

(** [name] is a key all of whose dependencies were found. *)
Definition checked (files : list schemaFile) (name : string) : Prop :=
  name ∈ key_set files
  /\ forall dep, edge files name dep -> not_found files dep = false.

(** A step of the topological sort from the state [st] returns or
    throws, and the visited set only grows. *)
Definition grows (st : sortState) (r : outcome sortError sortState)
    : Prop :=
  match r with
  | Ok st' => st.1 ⊆ st'.1
  | Throw _ => True
  | OutOfFuel => False
  end.

(** What a step of the topological sort guarantees from the state [st]
    when no file has the base name [__proto__] and every lookup gives
    something iterable: the visited set only grows, every name it gains
    is checked, and no [undefined] enters the result; a throw is the
    missing-dependency error; the fuel does not run out. *)
Definition visit_post (files : list schemaFile) (st : sortState)
    (r : outcome sortError sortState) : Prop :=
  match r with
  | Ok st' =>
      st.1 ⊆ st'.1
      /\ (forall x, x ∈ st'.1 -> x ∉ st.1 -> checked files x)
      /\ (Forall is_Some st.2 -> Forall is_Some st'.2)
  | Throw e => is_missing_error files e
  | OutOfFuel => False
  end.

End ResolverSpec.

(** ** Markers in the content *)

Module MetadataSpec.

(** [content] is [before], then [marker], then [rest], and [marker] does
    not occur further to the left. *)
Definition first_occurrence (marker content before rest : string)
    : Prop :=
  content = before +:+ marker +:+ rest
  /\ forall a b, content = a +:+ marker +:+ b ->
                 String.length before <= String.length a.

(** Nothing but white space. *)
Fixpoint all_space (s : string) : bool :=
  match s with
  | EmptyString => true
  | String c r => is_space c && all_space r
  end.

End MetadataSpec.

(** ** Example inputs *)

Module Examples.

(** The two-line schema of the parsing example. *)
Definition two_commands : string :=
  "SET key1 " +:+ quoted "value1" +:+ ";" +:+ newline
  +:+ "HSET hash1 field1 " +:+ quoted "value1" +:+ " field2 "
  +:+ quoted "value2" +:+ ";".

(** The content of the test "should ignore Lua scripts blocks while
    parsing commands" (tests/schema-loader.test.js): a template literal
    whose lines are indented by eight spaces. *)
Definition indented_script : string :=
  join newline
    [ "";
      "        SET key1 " +:+ quoted "value1" +:+ ";";
      "";
      "        SCRIPT: test_script";
      "        local key = KEYS[1]";
      "        local value = ARGV[1]";
      "        return redis.call(" +:+ quoted "SET" +:+ ", key, value)";
      "        END_SCRIPT";
      "";
      "        SET key2 " +:+ quoted "value2" +:+ ";";
      "      " ].

(** The same block with its tag at the start of a line. *)
Definition flush_script : string :=
  join newline
    [ "SET key1 " +:+ quoted "value1" +:+ ";";
      "SCRIPT: test_script";
      "local key = KEYS[1]";
      "return redis.call(" +:+ quoted "SET" +:+ ", key, value)";
      "END_SCRIPT";
      "SET key2 " +:+ quoted "value2" +:+ ";" ].

(** A client whose second [exec] throws and whose other calls succeed. *)
Definition second_exec_throws : client :=
  {| on_send := fun _ _ => None;
     on_exec := fun tr =>
       if bool_decide (ExecutionSpec.count is_exec tr = 1)
       then Rejected "connection lost" else Resolved [] |}.

Definition pipelined_by_two : Loader.Config :=
  {| Loader.variables := None; Loader.prefix := "";
     Loader.batchSize := 2; Loader.useTransactions := false;
     Loader.dryRun := false |}.

(** A file of five commands. *)
Definition five_commands : Loader.schemaFile :=
  {| Loader.path := "five.redis"; Loader.content := "";
     Loader.commands :=
       [ ["SET"; "a"; "1"]; ["SET"; "b"; "2"]; ["SET"; "c"; "3"];
         ["SET"; "d"; "4"]; ["SET"; "e"; "5"] ];
     Loader.metadata := default_metadata |}.

Definition schema (p : string) (deps : list string) : Loader.schemaFile :=
  {| Loader.path := p; Loader.content := "";
     Loader.commands := [["SET"; p; "1"]];
     Loader.metadata :=
       {| version := 1; description := ""; dependencies := deps |} |}.

(** Two schemas that depend on each other; the first also names a schema
    that does not exist. *)
Definition cycle_and_missing : list Loader.schemaFile :=
  [ schema "a.redis" ["b.redis"; "missing.redis"];
    schema "b.redis" ["a.redis"] ].

(** Two files with one base name; only the first names a schema that
    does not exist. *)
Definition same_base_name : list Loader.schemaFile :=
  [ schema "x/a.redis" ["missing.redis"]; schema "y/a.redis" [] ].

(** The cycle of the repository's test. *)
Definition two_cycle : list Loader.schemaFile :=
  [ schema "a.redis" ["b.redis"]; schema "b.redis" ["a.redis"] ].

(** The missing dependency of the repository's test. *)
Definition one_missing : list Loader.schemaFile :=
  [ schema "a.redis" ["missing.redis"] ].

(** A dependency that is the name of an inherited method. *)
Definition inherited_dependency : list Loader.schemaFile :=
  [ schema "a.redis" ["constructor"] ].

(** A file whose base name is [__proto__]. *)
Definition proto_file : list Loader.schemaFile :=
  [ schema "__proto__" [] ].

(** A file whose base name is [__proto__] and whose one dependency has
    two characters, and a file for each of the characters. *)
Definition proto_characters : list Loader.schemaFile :=
  [ schema "__proto__" ["ab"]; schema "a" []; schema "b" [] ].

(** A file whose one dependency is the empty string, and a file whose
    dependency is the name of an inherited method. *)
Definition empty_and_inherited : list Loader.schemaFile :=
  [ schema "a.redis" [""]; schema "b.redis" ["constructor"] ].

(** The same two sets as files on disk. *)
Definition redis_file (stem : string) : Loader.globMatch :=
  {| Loader.stem := stem; Loader.ext := Loader.Redis |}.

Definition two_cycle_fs : Loader.fileSystem :=
  {| Loader.dirExists := true;
     Loader.matches :=
       [ (redis_file "a", Some ("# dependencies: b.redis" +:+ newline
                                +:+ "SET a 1;"));
         (redis_file "b", Some ("# dependencies: a.redis" +:+ newline
                                +:+ "SET b 1;")) ] |}.

Definition one_missing_fs : Loader.fileSystem :=
  {| Loader.dirExists := true;
     Loader.matches :=
       [ (redis_file "a", Some ("# dependencies: missing.redis"
                                +:+ newline +:+ "SET a 1;")) ] |}.

Definition always_ok : client :=
  {| on_send := fun _ _ => None; on_exec := fun _ => Resolved [] |}.

(** A header whose dependencies line is empty, followed by a command. *)
Definition empty_then_command : string :=
  "# version: 1" +:+ newline +:+ "# dependencies:" +:+ newline
  +:+ "SET a 1;".

(** A content that ends with an empty dependencies line. *)
Definition empty_at_end : string :=
  "SET a 1;" +:+ newline +:+ "# dependencies:  ".

End Examples.

(** ** Vocabulary of the further properties *)

Module MoreSpec.

(** The commands handed to [sendCommand], in the order of the calls. *)
Definition sends (tr : list event) : list (list string) :=
  omap (fun e => match e with EvSend cmd _ => Some cmd | _ => None end) tr.

Definition is_value (r : reply) : Prop :=
  match r with Value _ => True | Failure _ => False end.

Definition is_failure (r : reply) : bool :=
  match r with Failure _ => true | Value _ => false end.

Definition nonempty (command : list string) : bool :=
  match command with [] => false | _ => true end.

(** What the calls [new] of a stretch of a run add to the trace and to
    the error count. *)
Definition accounted (st st' : Loader.runState) (new : list event)
    : Prop :=
  st'.(Loader.trace) = st.(Loader.trace) ++ new
  /\ st'.(Loader.errs)
     = st.(Loader.errs) + ExecutionSpec.count send_threw new
       + ExecutionSpec.count exec_rejected new.

(** *** The order of the resolver's result *)

(** In the list of names [ns] every name comes after the names
    recorded as its dependencies. *)
Definition ordered (files : list Loader.schemaFile) (ns : list string)
    : Prop :=
  forall i n d,
    ns !! i = Some n -> ResolverSpec.edge files n d ->
    exists j, j < i /\ ns !! j = Some d.

(** The state of the topological sort once the names [ns] are done, in
    this order: the result holds the file found for each, and all of
    them are marked as visited. *)
Definition finished (files : list Loader.schemaFile) (ns : list string)
    (st : Loader.sortState) : Prop :=
  st.2 = map (Loader.find_schema files) ns
  /\ NoDup ns
  /\ ordered files ns
  /\ forall n, n ∈ ns -> n ∈ st.1 /\ n ∈ ResolverSpec.key_set files.

(** From [st] with [ns] done to [st'] with [ns ++ added] done: the
    names added are exactly the ones newly marked. *)
Definition extends (files : list Loader.schemaFile) (ns : list string)
    (st st' : Loader.sortState) (added : list string) : Prop :=
  finished files (ns ++ added) st'
  /\ st'.1 = st.1 ∪ list_to_set added
  /\ forall a, a ∈ added -> a ∉ st.1.

(** In the list of files [l] every file comes after the files named in
    its dependencies. *)
Definition after_dependencies (l : list Loader.schemaFile) : Prop :=
  forall i f d,
    l !! i = Some f ->
    d ∈ f.(Loader.metadata).(SchemaParser.dependencies) ->
    exists j g, j < i /\ l !! j = Some g
                /\ Loader.basename g.(Loader.path) = d.

(** [f] is the first of [files] with its base name. *)
Definition first_of_its_name (files : list Loader.schemaFile)
    (f : Loader.schemaFile) : Prop :=
  exists before after,
    files = before ++ f :: after
    /\ Loader.basename f.(Loader.path) ∉ ResolverSpec.base_names before.

(** *** Tokens and names as they are written in a schema *)

(** [s] reversed in front of [acc]: the tokenizer's part after reading
    [s]. *)
Fixpoint rev_onto (s acc : string) : string :=
  match s with
  | EmptyString => acc
  | String c r => rev_onto r (String c acc)
  end.

(** A token that can stand in a command as it is: not empty, no space,
    no double quote. *)
Definition bare (p : string) : bool :=
  negb (is_empty p) && negb (includes " "%char p)
  && negb (includes dquote p).

(** A token that can be written, between double quotes if need be: no
    double quote inside and no backslash at its end. *)
Definition quotable (p : string) : bool :=
  negb (includes dquote p) && negb (endsWithChar "\"%char p).

(** The token as one writes it in a command. *)
Definition render (p : string) : string :=
  if bare p then p else quoted p.

Definition first_char (s : string) : option ascii :=
  match s with
  | String c _ => Some c
  | EmptyString => None
  end.

Definition not_space (o : option ascii) : bool :=
  match o with
  | Some c => negb (is_space c)
  | None => false
  end.

(** A schema name as one lists it in a header: it starts and ends with
    a character that is not white space, and holds no comma and no
    line terminator. *)
Definition plain_name (n : string) : bool :=
  not_space (first_char n) && not_space (last_char n)
  && negb (includes ","%char n) && SchemaParser.no_terminator n.

(** The end of a line: the end of the text or a line terminator. *)
Definition at_line_end (s : string) : bool :=
  match s with
  | EmptyString => true
  | String c _ => is_line_terminator c
  end.

(** *** Script blocks *)

(** The entry [findLuaScriptsInSchema] makes of a block. *)
Definition found_script (sourceName : string) (info : scriptInfo)
    : luaScript :=
  {| ls_name := info.(name); ls_script := info.(script);
     ls_source := sourceName |}.

(** Blocks that follow one another from line [from] on: each starts
    behind the terminator of the one before. *)
Fixpoint separated (from : nat) (infos : list scriptInfo) : Prop :=
  match infos with
  | [] => True
  | info :: rest =>
      from <= info.(startIndex) /\ info.(startIndex) < info.(endIndex)
      /\ separated (S info.(endIndex)) rest
  end.

End MoreSpec.

(** ** Vocabulary of the expiry rules *)

Module TtlSpec.

Import Ttl.

(** The message of the error a call threw. *)
Definition thrown (e : event) : option string :=
  match e with
  | EvKeys _ (inr m) => Some m
  | EvExpire _ _ (Some m) => Some m
  | EvExec (Some m) => Some m
  | _ => None
  end.

Definition quiet (e : event) : Prop := thrown e = None.

(** What a stretch of calls looks like when it ended normally, or with
    a call that threw the error [m]: that call is the last one. *)
Definition stretch (new : list event) (r : option string) : Prop :=
  match r with
  | None => Forall quiet new
  | Some m =>
      exists before e,
        new = before ++ [e] /\ Forall quiet before /\ thrown e = Some m
  end.

(** The [expire] calls, in order. *)
Definition expired (tr : list event) : list (string * Z) :=
  omap (fun e => match e with
                 | EvExpire k s _ => Some (k, s)
                 | _ => None
                 end) tr.

(** The patterns [keys] was asked for, each with the keys it answered. *)
Definition asked (tr : list event) : list (string * list string) :=
  omap (fun e => match e with
                 | EvKeys p (inl ks) => Some (p, ks)
                 | _ => None
                 end) tr.

Definition is_exec (e : event) : bool :=
  match e with EvExec _ => true | _ => false end.

Definition execs (tr : list event) : nat :=
  length (filter (fun e => is_exec e = true) tr).

(** The number of batches of at most [batchSize] keys. *)
Definition batches (n : nat) : nat := (n + (batchSize - 1)) / batchSize.

End TtlSpec.

(** ** Vocabulary of the script registry *)

Module RegistrySpec.

Import Registry.

(** The [scriptLoad] call for a script, with its answer. *)
Definition load_event (s : luaScript) (a : string + string) : event :=
  EvScriptLoad s.(ls_script) a.

Definition is_digest (a : string + string) : bool :=
  match a with inl _ => true | inr _ => false end.

(** The number of answers that are digests. *)
Definition digests (answers : list (string + string)) : nat :=
  length (filter (fun a => is_digest a = true) answers).

(** The scripts that were loaded, by name, each with the entry made
    for it. *)
Fixpoint registered (found : list luaScript)
    (answers : list (string + string)) : list (string * info) :=
  match found, answers with
  | s :: found', inl d :: answers' =>
      (s.(ls_name), {| sha := d; source := s.(ls_source) |})
      :: registered found' answers'
  | _ :: found', inr _ :: answers' => registered found' answers'
  | _, _ => []
  end.

(** The entry the registry holds for [name]: the one of the last script
    of that name that was loaded. *)
Definition last_registered (name : string) (l : list (string * info))
    : option info :=
  snd <$> last (filter (fun p => p.1 = name) l).

(** The name and the entry of each [hSet] call. *)
Definition hsets (tr : list event) : list (string * info) :=
  omap (fun e => match e with
                 | EvHSet _ n v _ => Some (n, v)
                 | _ => None
                 end) tr.

Definition threw (e : event) : bool :=
  match e with
  | EvScriptLoad _ (inr _) | EvDel _ (Some _) | EvHSet _ _ _ (Some _) =>
      true
  | _ => false
  end.

Definition is_load (e : event) : bool :=
  match e with EvScriptLoad _ _ => true | _ => false end.

(** The calls that store the registry under [key]. *)
Definition stores_under (key : string) (e : event) : Prop :=
  match e with
  | EvHSet k _ _ _ => k = key
  | _ => False
  end.

(** No call but the last one threw. *)
Definition only_last_threw (tr : list event) : Prop :=
  forall i e, tr !! i = Some e -> threw e = true -> S i = length tr.

End RegistrySpec.

Module MoreExamples.

(** A schema listed before the one it depends on. *)
Definition dependent_first : list Loader.schemaFile :=
  [ Examples.schema "b.redis" ["a.redis"]; Examples.schema "a.redis" [] ].

(** The same two schemas as files on disk. *)
Definition dependent_first_fs : Loader.fileSystem :=
  {| Loader.dirExists := true;
     Loader.matches :=
       [ (Examples.redis_file "b",
          Some ("# dependencies: a.redis" +:+ newline
                +:+ "SET b 1;" +:+ newline +:+ "SET c 1;"));
         (Examples.redis_file "a", Some "SET a 1;") ] |}.

Definition in_transactions : Loader.Config :=
  {| Loader.variables := None; Loader.prefix := "app:";
     Loader.batchSize := 0; Loader.useTransactions := true;
     Loader.dryRun := false |}.

Definition dry_run : Loader.Config :=
  {| Loader.variables := None; Loader.prefix := "";
     Loader.batchSize := 0; Loader.useTransactions := false;
     Loader.dryRun := true |}.

(** A client whose [sendCommand] throws for the verb [BAD]. *)
Definition rejects_bad : client :=
  {| on_send := fun _ cmd =>
       if bool_decide (head cmd = Some "BAD")
       then Some "ERR unknown command" else None;
     on_exec := fun _ => Resolved [] |}.

Definition initial : Loader.runState :=
  {| Loader.trace := []; Loader.executed := 0; Loader.errs := 0 |}.

(** Two rules and a client that knows two session keys. *)
Definition ttl_rules : JsObject.obj Z :=
  [("session:*", 3600%Z); ("cache:*", 60%Z)].

Definition two_sessions : Ttl.client :=
  {| Ttl.on_keys := fun _ p =>
       if bool_decide (p = "app:session:*")
       then inl ["app:session:1"; "app:session:2"] else inl [];
     Ttl.on_expire := fun _ _ _ => None;
     Ttl.on_exec := fun _ => None |}.

(** Two scripts of one name; the client refuses the first. *)
Definition two_scripts : list luaScript :=
  [ {| ls_name := "incr"; ls_script := "return 1"; ls_source := "a.redis" |};
    {| ls_name := "incr"; ls_script := "return 2"; ls_source := "b.redis" |} ].

Definition refuses_first : Registry.client :=
  {| Registry.on_scriptLoad := fun _ script =>
       if bool_decide (script = "return 1") then inr "ERR compile"
       else inl "da39a3ee";
     Registry.on_del := fun _ _ => None;
     Registry.on_hSet := fun _ _ _ _ => Some "READONLY" |}.

End MoreExamples.

(** * Properties *)

(** ** Strings *)

Module StringFacts.

Lemma sapp_nil_l (s : string) : "" +:+ s = s.
Proof. reflexivity. Qed.

Lemma sapp_cons (c : ascii) (s t : string) :
  String c s +:+ t = String c (s +:+ t).
Proof. reflexivity. Qed.

Lemma sapp_nil_r (s : string) : s +:+ "" = s.
Proof. induction s as [|c s IH]; [done|]. by rewrite sapp_cons, IH. Qed.

Lemma sapp_assoc (s t u : string) : (s +:+ t) +:+ u = s +:+ t +:+ u.
Proof. induction s as [|c s IH]; [done|]. by rewrite !sapp_cons, IH. Qed.

Lemma length_sapp (s t : string) :
  String.length (s +:+ t) = String.length s + String.length t.
Proof. induction s as [|c s IH]; [done|]. rewrite sapp_cons. simpl. lia. Qed.

Lemma startsWith_app (p r : string) : startsWith p (p +:+ r) = true.
Proof.
  induction p as [|c p IH]; [done|]. rewrite sapp_cons. cbn [startsWith].
  by rewrite decide_True.
Qed.

Lemma startsWith_inv (p s : string) :
  startsWith p s = true -> exists r, s = p +:+ r.
Proof.
  revert s. induction p as [|c p IH]; intros s H.
  - by exists s.
  - destruct s as [|c' s]; [done|]. cbn [startsWith] in H.
    destruct (decide (c = c')) as [->|]; [|done].
    destruct (IH _ H) as [r ->]. by exists r.
Qed.

Lemma substring_from_app (p r : string) :
  substring_from (String.length p) (p +:+ r) = r.
Proof. induction p as [|c p IH]; [done|]. by rewrite sapp_cons. Qed.

Lemma startsWith_nonempty (p s : string) :
  p <> "" -> startsWith p s = true -> is_empty s = false.
Proof. destruct p; [done|]. by destruct s. Qed.

(** [trimEnd] keeps a prefix that does not end in white space. *)
Lemma startsWith_trimEnd (p s : string) (c : ascii) :
  last_char p = Some c -> is_space c = false ->
  startsWith p s = true -> startsWith p (trimEnd s) = true.
Proof.
  revert s. induction p as [|a p IH]; intros s Hlast Hc Hs; [done|].
  destruct s as [|b s]; [done|]. cbn [startsWith] in Hs.
  destruct (decide (a = b)) as [<-|]; [|done].
  cbn [trimEnd]. destruct p as [|a' p].
  - cbn in Hlast. simplify_eq.
    destruct (trimEnd s); [rewrite Hc|]; cbn [startsWith];
      by rewrite decide_True.
  - specialize (IH s Hlast Hc Hs).
    destruct (trimEnd s) as [|b' s'] eqn:Ht; [done|].
    cbn [startsWith]. rewrite decide_True by done. exact IH.
Qed.

Lemma startsWith_trimStart (p s : string) (c : ascii) :
  startsWith (String c p) s = true -> is_space c = false ->
  trimStart s = s.
Proof.
  destruct s as [|b s]; [done|]. cbn [startsWith trimStart].
  destruct (decide (c = b)) as [<-|]; [|done]. by intros _ ->.
Qed.

End StringFacts.

Import StringFacts.

(** ** Template substitution *)

Module TemplateFacts.

Import TemplateSpec.

Lemma marker_app (n rest : string) :
  marker n +:+ rest
  = String "$" (String "{" (n +:+ String "}" rest)).
Proof.
  unfold marker. by rewrite !sapp_assoc, !sapp_cons, !sapp_nil_l.
Qed.

Lemma length_marker_app (n rest : string) :
  String.length (marker n +:+ rest)
  = String.length n + String.length rest + 3.
Proof. rewrite marker_app. simpl. rewrite length_sapp. simpl. lia. Qed.

Lemma until_brace_Some (r n rest : string) :
  until_brace r = Some (n, rest) <->
  includes "}"%char n = false /\ r = n +:+ String "}" rest.
Proof.
  split.
  - revert n rest. induction r as [|c r IH]; intros n rest H; [done|].
    simpl in H. destruct (decide (c = "}"%char)) as [->|Hc].
    + by simplify_eq.
    + destruct (until_brace r) as [[n' rest']|] eqn:E; [|done].
      simplify_eq. destruct (IH _ _ eq_refl) as [Hn ->].
      split; [|done]. simpl. by rewrite decide_False.
  - intros [Hn ->]. induction n as [|c n IH]; [done|].
    simpl in Hn. destruct (decide (c = "}"%char)); [done|].
    rewrite sapp_cons. simpl. rewrite decide_False by done.
    by rewrite IH.
Qed.

Lemma marker_at_Some (s n rest : string) :
  marker_at s = Some (n, rest) <-> valid_name n /\ s = marker n +:+ rest.
Proof.
  rewrite marker_app. unfold valid_name. split.
  - intros H. destruct s as [|a [|b r]]; try done;
      try (simpl in H; by repeat case_match).
    simpl in H.
    destruct (until_brace r) as [[[|c n'] rest']|] eqn:E;
      repeat case_match; simplify_eq.
    apply until_brace_Some in E as [Hn ->]. done.
  - intros [[Hne Hn] ->]. cbn [marker_at].
    assert (until_brace (n +:+ String "}" rest) = Some (n, rest)) as ->
      by by apply until_brace_Some.
    by destruct n.
Qed.

Lemma marker_at_None (s : string) :
  marker_at s = None <-> ~ starts_with_marker s.
Proof.
  split.
  - intros H (n & rest & Hn & ->).
    assert (marker_at (marker n +:+ rest) = Some (n, rest))
      by by apply marker_at_Some.
    congruence.
  - intros H. destruct (marker_at s) as [[n rest]|] eqn:E; [|done].
    destruct H. exists n, rest. by apply marker_at_Some.
Qed.

Lemma segments_total (s : string) : exists l, segments s l.
Proof.
  remember (String.length s) as k eqn:Hk.
  revert s Hk. induction k as [k IH] using lt_wf_ind. intros s ->.
  destruct (marker_at s) as [[n rest]|] eqn:E.
  - apply marker_at_Some in E as [Hn ->].
    destruct (IH (String.length rest)) with (s := rest) as [l Hl]; [|done|].
    { rewrite length_marker_app. lia. }
    exists (Marker n :: l). by constructor.
  - destruct s as [|c s]; [exists []; constructor|].
    destruct (IH (String.length s)) with (s := s) as [l Hl];
      [simpl; lia|done|].
    exists (Lit c :: l). constructor; [|done]. by apply marker_at_None.
Qed.


Lemma replace_markers_segments (f : string -> string) (s : string)
    (l : list segment) :
  segments s l ->
  forall fuel, String.length s <= fuel ->
  replace_markers fuel f s
  = concat_map (fun g => match g with
                         | Marker n => f n
                         | other => seg_text other
                         end) l.
Proof.
  induction 1 as [|n rest l Hn _ IH|c s l Hc _ IH]; intros fuel Hfuel.
  - by destruct fuel.
  - destruct fuel as [|fuel].
    { rewrite length_marker_app in Hfuel. lia. }
    cbn [replace_markers].
    assert (marker_at (marker n +:+ rest) = Some (n, rest)) as ->
      by by apply marker_at_Some.
    simpl. f_equal. apply IH.
    rewrite length_marker_app in Hfuel. lia.
  - destruct fuel as [|fuel]; [simpl in Hfuel; lia|].
    cbn [replace_markers].
    apply marker_at_None in Hc. rewrite Hc. simpl. f_equal.
    apply IH. simpl in Hfuel. lia.
Qed.



Lemma processTemplate_segments (text : string)
    (vars : gmap string string) (l : list segment) :
  vars <> ∅ -> segments text l ->
  processTemplate text (Some vars) = concat_map (seg_value vars) l.
Proof.
  intros Hne Hl. unfold processTemplate.
  rewrite decide_False by done.
  rewrite (replace_markers_segments _ _ _ Hl) by done.
  unfold replacer. clear Hl.
  induction l as [|[c|n] l IH]; simpl; [done|by f_equal|].
  rewrite IH. destruct (vars !! n); [done|].
  by destruct (Prototype.inherited_text n).
Qed.


(** A marker at the start of the text: the value takes its place as it
    stands, and substitution goes on behind the marker. *)
Lemma processTemplate_marker (vars : gmap string string)
    (n v rest : string) :
  valid_name n -> vars !! n = Some v ->
  processTemplate (marker n +:+ rest) (Some vars)
  = v +:+ processTemplate rest (Some vars).
Proof.
  intros Hn Hv. destruct (segments_total rest) as [l Hl].
  assert (vars <> ∅) as Hne.
  { intros ->. by rewrite lookup_empty in Hv. }
  rewrite (processTemplate_segments _ _ (Marker n :: l))
    by (done || by constructor).
  rewrite (processTemplate_segments _ _ l) by done.
  cbn. by rewrite Hv.
Qed.




End TemplateFacts.

(** ** The schema parser *)

Module ParserFacts.

Import Examples.

(** C4.  Parsing the two-line example, with no variables configured,
    yields exactly the two commands of the example, in order, the quoted
    tokens without their quotes. *)
Theorem parse_two_commands :
  SchemaParser.commands (parseSchemaContent two_commands None)
  = [ ["SET"; "key1"; "value1"];
      ["HSET"; "hash1"; "field1"; "value1"; "field2"; "value2"] ]
  /\ SchemaParser.commands (parseSchemaContent two_commands (Some ∅))
     = SchemaParser.commands (parseSchemaContent two_commands None).
Proof. split; vm_compute; reflexivity. Qed.

(** C5, at the failing input.  In the content of the repository's own test
    every line is indented.  The parser recognises the tag on the trimmed
    line, but [parseSchemaForLuaScripts] looks at the line as it stands,
    finds no tag at its start and answers [null]; the tag, the three lines
    of the script and the terminator all end up as tokens of the second
    command. *)
Theorem indented_script_leaks :
  parseSchemaForLuaScripts (split_on "010"%char indented_script) 3 = None
  /\ SchemaParser.commands (parseSchemaContent indented_script None)
     = [ ["SET"; "key1"; "value1"];
         ["SCRIPT:"; "test_script";
          "local"; "key"; "="; "KEYS[1]";
          "local"; "value"; "="; "ARGV[1]";
          "return"; "redis.call(" +:+ quoted "SET" +:+ ","; "key,"; "value)";
          "END_SCRIPT"; "SET"; "key2"; "value2"] ].
Proof. split; vm_compute; reflexivity. Qed.

(** With the tag at the start of its line the block is passed over. *)
Lemma flush_script_skipped :
  SchemaParser.commands (parseSchemaContent flush_script None)
  = [ ["SET"; "key1"; "value1"]; ["SET"; "key2"; "value2"] ].
Proof. vm_compute. reflexivity. Qed.

(** *** Script blocks whose tag starts its line *)

Lemma startsWith_strip_comment (p s : string) :
  includes "#"%char p = false ->
  startsWith p s = true -> startsWith p (strip_comment s) = true.
Proof.
  revert s. induction p as [|a p IH]; intros s Hp Hs; [done|].
  destruct s as [|b s]; [done|]. cbn [startsWith] in Hs.
  destruct (decide (a = b)) as [<-|]; [|done].
  cbn [includes] in Hp. destruct (decide (a = "#"%char)); [done|].
  cbn [strip_comment]. rewrite bool_decide_eq_false_2 by done.
  cbn [andb startsWith]. rewrite decide_True by done. by apply IH.
Qed.

(** The tag is still recognised after the comment is stripped and the
    line is trimmed. *)
Lemma tag_survives (tag : string) :
  startsWith "SCRIPT:" tag = true ->
  startsWith "SCRIPT:" (trim (strip_comment tag)) = true.
Proof.
  intros H%(startsWith_strip_comment "SCRIPT:"); [|done].
  unfold trim.
  rewrite (startsWith_trimStart "CRIPT:" _ "S" H) by done.
  by apply (startsWith_trimEnd "SCRIPT:" _ ":").
Qed.

Lemma find_end_block (i : nat) (body post : list string)
    (terminator : string) :
  Forall (fun l => trim l <> "END_SCRIPT") body ->
  trim terminator = "END_SCRIPT" ->
  find_end i (body ++ terminator :: post) = Some (body, i + length body).
Proof.
  intros Hbody Hend. revert i.
  induction Hbody as [|l body Hl _ IH]; intros i; cbn [app find_end].
  - rewrite decide_True by done. do 2 f_equal. cbn. lia.
  - rewrite decide_False by done. rewrite IH. do 2 f_equal. cbn. lia.
Qed.

Lemma parseSchemaForLuaScripts_block (pre body post : list string)
    (tag terminator : string) :
  startsWith "SCRIPT:" tag = true ->
  trim (substring_from 7 tag) <> "" ->
  Forall (fun l => trim l <> "END_SCRIPT") body ->
  trim terminator = "END_SCRIPT" ->
  parseSchemaForLuaScripts (pre ++ tag :: body ++ terminator :: post)
    (length pre)
  = Some {| name := trim (substring_from 7 tag);
            script := join newline body;
            startIndex := length pre;
            endIndex := length pre + length body + 1 |}.
Proof.
  intros Htag Hname Hbody Hend. unfold parseSchemaForLuaScripts.
  rewrite list_lookup_middle by done.
  rewrite (startsWith_nonempty "SCRIPT:" tag) by done.
  rewrite Htag. cbn [orb negb].
  destruct (trim (substring_from 7 tag)) as [|c n] eqn:Hn; [done|].
  cbn [is_empty].
  replace (drop (S (length pre)) (pre ++ tag :: body ++ terminator :: post))
    with (body ++ terminator :: post).
  2:{ change (tag :: ?l) with ([tag] ++ l). rewrite (assoc_L (++)).
      rewrite drop_app_length'; [done|]. rewrite length_app. cbn. lia. }
  rewrite find_end_block by done. do 2 f_equal. lia.
Qed.

(** The lines that the loop passes over leave the parser as it is. *)
Lemma parse_line_skipped (lines : list string) (p : parser) (start n : nat) :
  (Z.of_nat (start + n) <= p.(skipToLine))%Z ->
  foldl (parse_line lines) p (seq start n) = p.
Proof.
  revert start. induction n as [|n IH]; intros start Hskip; [done|].
  cbn [seq foldl]. unfold parse_line at 2.
  assert ((Z.of_nat start <? skipToLine p)%Z = true) as ->
    by (apply Z.ltb_lt; lia).
  apply IH. lia.
Qed.

(** A block whose tag starts its line, with a name and a terminator: the
    tag, the body and the terminator add nothing to the command being
    read nor to the commands emitted. *)
Lemma script_block_skipped (pre body post : list string)
    (tag terminator : string) (p : parser) :
  startsWith "SCRIPT:" tag = true ->
  trim (substring_from 7 tag) <> "" ->
  Forall (fun l => trim l <> "END_SCRIPT") body ->
  trim terminator = "END_SCRIPT" ->
  (p.(skipToLine) <= Z.of_nat (length pre))%Z ->
  foldl (parse_line (pre ++ tag :: body ++ terminator :: post)) p
    (seq (length pre) (length body + 2))
  = {| skipToLine := Z.of_nat (length pre + length body + 1) + 1;
       currentCommand := p.(currentCommand);
       emitted := p.(emitted) |}.
Proof.
  intros Htag Hname Hbody Hend Hskip.
  replace (length body + 2) with (S (length body + 1)) by lia.
  cbn [seq foldl]. rewrite parse_line_skipped.
  - unfold parse_line.
    assert ((Z.of_nat (length pre) <? skipToLine p)%Z = false) as ->
      by (apply Z.ltb_ge; lia).
    rewrite list_lookup_middle by done.
    pose proof (tag_survives tag Htag) as Hline.
    rewrite (startsWith_nonempty "SCRIPT:" _ ltac:(done) Hline), Hline.
    by rewrite parseSchemaForLuaScripts_block.
  - unfold parse_line.
    assert ((Z.of_nat (length pre) <? skipToLine p)%Z = false) as ->
      by (apply Z.ltb_ge; lia).
    rewrite list_lookup_middle by done.
    pose proof (tag_survives tag Htag) as Hline.
    rewrite (startsWith_nonempty "SCRIPT:" _ ltac:(done) Hline), Hline.
    rewrite parseSchemaForLuaScripts_block by done.
    cbn [skipToLine endIndex]. lia.
Qed.

(** *** Comments *)

Lemma no_terminator_spec (s : string) :
  no_terminator s = true <->
  includes "010"%char s = false /\ includes "013"%char s = false.
Proof.
  unfold no_terminator. induction s as [|c s IH]; [done|].
  cbn [take_line includes].
  destruct (is_line_terminator c) eqn:Hc.
  - cbn [String.length substring_from is_empty].
    split; [done|]. intros [H1 H2].
    destruct (decide (c = "010"%char)); [done|].
    destruct (decide (c = "013"%char)); [done|].
    destruct c as [[] [] [] [] [] [] [] []]; done.
  - cbn [String.length substring_from]. rewrite IH.
    destruct (decide (c = "010"%char)) as [->|]; [done|].
    destruct (decide (c = "013"%char)) as [->|]; done.
Qed.

Lemma strip_comment_none (line : string) :
  includes "#"%char line = false -> strip_comment line = line.
Proof.
  induction line as [|c s IH]; [done|]. cbn [includes strip_comment].
  destruct (decide (c = "#"%char)) as [->|Hc]; [done|]. intros H.
  rewrite bool_decide_eq_false_2 by done. simpl. by rewrite IH.
Qed.

Lemma strip_comment_first (before after : string) :
  includes "#"%char before = false ->
  no_terminator after = true ->
  strip_comment (before +:+ String "#" after) = before.
Proof.
  intros Hb Ha. induction before as [|c s IH].
  - rewrite sapp_nil_l. cbn [strip_comment].
    by rewrite bool_decide_eq_true_2, Ha.
  - cbn [includes] in Hb. destruct (decide (c = "#"%char)); [done|].
    rewrite sapp_cons. cbn [strip_comment].
    rewrite bool_decide_eq_false_2 by done. simpl. by rewrite IH.
Qed.

(** C7, counterexample.  The only comment marker of the line is preceded
    by a backslash, yet the line is cut at it: the text behind the marker,
    terminator included, is gone and no command is emitted. *)
Lemma escaped_marker_counterexample :
  strip_comment "SET k a\#b;" = "SET k a\"
  /\ strip_comment "SET k a\#b;" <> "SET k a\#b;"
  /\ SchemaParser.commands (parseSchemaContent "SET k a\#b;" None) = [].
Proof. split; [|split]; vm_compute; done. Qed.

(** C7, amended.  The parser strips exactly the text from the first
    comment marker of the line to the end of the line, whether or not a
    backslash precedes the marker; a line without a marker is kept whole.
    (Stated for lines that hold no line terminator behind the marker.) *)
Theorem strip_comment_first_marker (before after : string) :
  includes "#"%char before = false ->
  includes "010"%char after = false ->
  includes "013"%char after = false ->
  strip_comment (before +:+ String "#" after) = before
  /\ strip_comment before = before.
Proof.
  intros Hb H1 H2. split.
  - apply strip_comment_first; [done|]. by apply no_terminator_spec.
  - by apply strip_comment_none.
Qed.

Lemma strip_comment_first_marker_witness :
  strip_comment ("SET k a\" +:+ String "#" "b; # note") = "SET k a\"
  /\ strip_comment "SET k a\" = "SET k a\".
Proof. apply strip_comment_first_marker; reflexivity. Defined.

End ParserFacts.

(** ** The key prefix rewriter *)

Module PrefixFacts.

Import PrefixSpec.

Lemma rewrite_args_outside (prefix cmd : string) (args : list string) :
  cmd ∉ enumerated_verbs -> rewrite_args prefix cmd args = args.
Proof.
  unfold enumerated_verbs. rewrite !not_elem_of_app.
  intros (Hmget & Hmset & Hren & Hscan & Heval & Hfirst).
  apply not_elem_of_cons in Hmget as [Hmget _].
  apply not_elem_of_cons in Hscan as [Hscan _].
  apply not_elem_of_cons in Heval as [He1 [He2 _]%not_elem_of_cons].
  unfold rewrite_args.
  rewrite (bool_decide_eq_false_2 (cmd ∈ ["MSET"; "MSETNX"])) by done.
  rewrite (bool_decide_eq_false_2 (cmd = "MGET")) by done.
  rewrite (bool_decide_eq_false_2 (cmd ∈ ["RENAME"; "RENAMENX"])) by done.
  rewrite (bool_decide_eq_false_2 (cmd = "SCAN")) by done.
  rewrite (bool_decide_eq_false_2 (cmd ∈ ["EVALSHA"; "EVAL"])).
  2:{ rewrite !elem_of_cons. intros [?|[?|?%not_elem_of_nil]]; done. }
  by rewrite (bool_decide_eq_false_2 (cmd ∈ firstArgKeyCommands)).
Qed.

Lemma outside_families_decide (verb : string) :
  bool_decide (toUpperCase verb ∈ enumerated_verbs) = false ->
  outside_families verb.
Proof. apply bool_decide_eq_false_1. Qed.

(** C6, counterexample.  The verb [ping] is in no family and the prefix
    is not empty, yet the command returned differs from the input: its
    verb is in upper case. *)
Lemma unknown_verb_counterexample :
  "p:" <> "" /\ outside_families "ping"
  /\ applyPrefixToCommand ["ping"; "x"] "p:" = ["PING"; "x"]
  /\ applyPrefixToCommand ["ping"; "x"] "p:" <> ["ping"; "x"].
Proof.
  split; [done|]. split; [|split; vm_compute; done].
  apply outside_families_decide. vm_compute. reflexivity.
Qed.

(** C6, amended.  For a non-empty prefix and a command whose verb is in
    no family, [applyPrefixToCommand] returns the command with its verb in
    upper case and every other token equal to the input; a verb already
    in upper case is returned as it is. *)
Theorem applyPrefix_outside_families (prefix verb : string)
    (args : list string) :
  prefix <> "" ->
  outside_families verb ->
  applyPrefixToCommand (verb :: args) prefix = toUpperCase verb :: args
  /\ (toUpperCase verb = verb ->
      applyPrefixToCommand (verb :: args) prefix = verb :: args).
Proof.
  intros Hp Hv. unfold applyPrefixToCommand.
  destruct prefix; [done|]. cbn [is_empty].
  rewrite rewrite_args_outside by done.
  split; [done|]. by intros ->.
Qed.

Lemma applyPrefix_outside_families_witness :
  applyPrefixToCommand ["ping"; "x"] "p:" = toUpperCase "ping" :: ["x"]
  /\ (toUpperCase "PING" = "PING" ->
      applyPrefixToCommand ["PING"; "x"] "p:" = ["PING"; "x"]).
Proof.
  split.
  - apply (applyPrefix_outside_families "p:" "ping" ["x"]); [done|].
    apply outside_families_decide. vm_compute. reflexivity.
  - apply (applyPrefix_outside_families "p:" "PING" ["x"]); [done|].
    apply outside_families_decide. vm_compute. reflexivity.
Defined.

End PrefixFacts.

(** ** Transactions *)

Module TransactionFacts.

Import Transactions ExecutionSpec.

(** C2.  Three commands are handed to [executeInTransaction] and all three
    are submitted; the collaborator resolves the transaction with a
    failure for the second command and values for the first and the
    third.  Then the result has [success = false] and its error list has
    exactly one entry, with the index (counted from 0) and the text of the
    second command and the collaborator's message. *)
Theorem transaction_second_of_three_fails (c : client) (tr : list event)
    (c1 c2 c3 : list string) (v1 v3 m : string)
    (result : txResult) (tr' : list event) :
  c1 <> [] -> c2 <> [] -> c3 <> [] ->
  executeInTransaction c tr [c1; c2; c3] = (result, tr') ->
  last tr' = Some (EvExec (Resolved [Value v1; Failure m; Value v3])) ->
  tr' = tr ++ [EvMulti; EvSend (sent c1) None; EvSend (sent c2) None;
               EvSend (sent c3) None;
               EvExec (Resolved [Value v1; Failure m; Value v3])]
  /\ result.(success) = false
  /\ result.(errors)
     = Some [ {| index := 1; command := join " " c2; error := m |} ].
Proof.
  intros H1 H2 H3.
  destruct c1 as [|w1 a1]; [done|]. destruct c2 as [|w2 a2]; [done|].
  destruct c3 as [|w3 a3]; [done|]. clear H1 H2 H3.
  unfold executeInTransaction. cbn [queue_all sent].
  repeat match goal with
  | |- context [on_send c ?t ?cmd] =>
      destruct (on_send c t cmd) eqn:?;
        [intros [= <- <-]; rewrite last_snoc; discriminate|]
  end.
  destruct (on_exec c _) as [results|e] eqn:Hexec;
    [|intros [= <- <-]; rewrite last_snoc; discriminate].
  intros Heq Hlast.
  assert (results = [Value v1; Failure m; Value v3]) as ->.
  { cbn [collect_errors] in Heq.
    repeat case_match; simplify_eq; rewrite last_snoc in Hlast;
      by simplify_eq. }
  cbn in Heq. simplify_eq. split; [|done].
  by rewrite <-!(assoc_L (++)).
Qed.

Lemma transaction_second_of_three_fails_witness :
  let c := {| on_send := fun _ _ => None;
              on_exec := fun _ =>
                Resolved [Value "OK"; Failure "ERR not an integer";
                          Value "OK"] |} in
  let r := executeInTransaction c []
             [["set"; "a"; "x"]; ["incr"; "a"]; ["get"; "a"]] in
  r.1.(success) = false
  /\ r.1.(errors)
     = Some [ {| index := 1; command := "incr a";
                 error := "ERR not an integer" |} ].
Proof.
  intros c r.
  refine (proj2 (transaction_second_of_three_fails c []
            ["set"; "a"; "x"] ["incr"; "a"] ["get"; "a"]
            "OK" "OK" "ERR not an integer" r.1 r.2 _ _ _ _ _));
    done.
Defined.

End TransactionFacts.

(** ** Pipelined execution *)

Module ExecutionFacts.

Import Loader ExecutionSpec.

Section Run.
Variable c : client.
Variable config : Config.

Lemma with_prefix_cons (verb : string) (args : list string) :
  exists verb' args', with_prefix config (verb :: args) = verb' :: args'.
Proof.
  unfold with_prefix, applyPrefixToCommand.
  destruct (is_empty (prefix config)); eauto.
Qed.

(** One command of a batch: one [sendCommand], counted as an error
    exactly when it throws. *)
Lemma queue_command_spec (st : runState) (command : list string) :
  command <> [] ->
  let s := on_send c st.(trace) (prepared config command) in
  queue_command c config st command
  = {| trace := st.(trace) ++ [EvSend (prepared config command) s];
       executed := st.(executed);
       errs := st.(errs) + thrown s |}.
Proof.
  destruct command as [|verb args]; [done|]. intros _.
  unfold queue_command, prepared.
  destruct (with_prefix_cons verb args) as (verb' & args' & ->).
  cbn [sent]. destruct (on_send c _ _); cbn [thrown]; f_equal; lia.
Qed.

Lemma exec_batch_spec (batch : list (list string)) (st : runState) :
  let o := on_exec c st.(trace) in
  exec_batch c batch st
  = {| trace := st.(trace) ++ [EvExec o];
       executed := st.(executed) + credited (length batch) o;
       errs := st.(errs) + rejected o |}.
Proof.
  unfold exec_batch. destruct (on_exec c _); cbn; f_equal; lia.
Qed.

(** The queuing phase adds calls to the trace; it counts the
    [sendCommand]s that threw and nothing else, and executes nothing. *)
Lemma queue_command_counts (st : runState) (command : list string) :
  exists new,
    (queue_command c config st command).(trace) = st.(trace) ++ new
    /\ (queue_command c config st command).(errs)
       = st.(errs) + count send_threw new
    /\ (queue_command c config st command).(executed) = st.(executed)
    /\ count is_exec new = 0.
Proof.
  destruct command as [|verb args].
  - exists []. cbn. rewrite app_nil_r. repeat split; lia.
  - rewrite queue_command_spec by done. cbn.
    eexists [_]. split; [done|].
    destruct (on_send c _ _); cbn; repeat split; lia.
Qed.

Lemma count_app (p : event -> bool) (l k : list event) :
  count p (l ++ k) = count p l + count p k.
Proof. induction l as [|e l IH]; cbn; [done|]. rewrite IH. lia. Qed.

Lemma foldl_queue_counts (batch : list (list string)) (st : runState) :
  exists new,
    (foldl (queue_command c config) st batch).(trace) = st.(trace) ++ new
    /\ (foldl (queue_command c config) st batch).(errs)
       = st.(errs) + count send_threw new
    /\ (foldl (queue_command c config) st batch).(executed)
       = st.(executed)
    /\ count is_exec new = 0.
Proof.
  revert st. induction batch as [|command batch IH]; intros st.
  - exists []. cbn. rewrite app_nil_r. repeat split; lia.
  - cbn [foldl].
    destruct (queue_command_counts st command) as (n1 & T1 & E1 & X1 & C1).
    destruct (IH (queue_command c config st command))
      as (n2 & T2 & E2 & X2 & C2).
    exists (n1 ++ n2). rewrite T2, T1, E2, E1, X2, X1, !count_app.
    rewrite <-(assoc_L (++)). repeat split; lia.
Qed.

Lemma queue_batch_counts (batch : list (list string)) (st : runState) :
  exists new,
    (queue_batch c config batch st).(trace) = st.(trace) ++ new
    /\ (queue_batch c config batch st).(errs)
       = st.(errs) + count send_threw new
    /\ (queue_batch c config batch st).(executed) = st.(executed)
    /\ count is_exec new = 0.
Proof.
  unfold queue_batch.
  destruct (foldl_queue_counts batch
              {| trace := st.(trace) ++ [EvPipeline];
                 executed := st.(executed); errs := st.(errs) |})
    as (new & T & E & X & C).
  exists (EvPipeline :: new). rewrite T, E, X. cbn.
  rewrite <-(assoc_L (++)). repeat split; done.
Qed.

(** C9.  In pipelined mode the outcomes of the commands inside a batch
    are not looked at.  While the batch is queued, the error count grows
    by one for each [sendCommand] that throws and the executed count
    does not move.  When [exec] resolves, whatever the results it
    resolves to (failures included), the executed count grows by the
    full length of the batch and the error count does not move; when
    [exec] throws, the error count grows by one and nothing is counted
    as executed. *)
Theorem pipelined_outcomes_ignored (batch : list (list string))
    (st : runState) :
  let queued := queue_batch c config batch st in
  let st' := run_batch c config batch st in
  (exists new,
     queued.(trace) = st.(trace) ++ new
     /\ queued.(errs) = st.(errs) + count send_threw new
     /\ queued.(executed) = st.(executed))
  /\ (forall results,
        on_exec c queued.(trace) = Resolved results ->
        st'.(executed) = st.(executed) + length batch
        /\ st'.(errs) = queued.(errs))
  /\ (forall m,
        on_exec c queued.(trace) = Rejected m ->
        st'.(executed) = st.(executed)
        /\ st'.(errs) = S queued.(errs)).
Proof.
  intros queued st'.
  destruct (queue_batch_counts batch st) as (new & T & E & X & _).
  split; [by exists new|].
  subst st' queued. unfold run_batch. rewrite exec_batch_spec.
  split; intros ? ->; cbn; rewrite X; split; lia.
Qed.

(** *** Batches *)

Lemma batch_loop_step (fuel size : nat) (cmds : list (list string))
    (i : nat) (st : runState) :
  i < length cmds ->
  batch_loop c config (S fuel) size cmds i st
  = batch_loop c config fuel size cmds (i + size)
      (run_batch c config (take size (drop i cmds)) st).
Proof. intros H. cbn [batch_loop]. by rewrite bool_decide_eq_true_2. Qed.

Lemma batch_loop_done (fuel size : nat) (cmds : list (list string))
    (i : nat) (st : runState) :
  length cmds <= i -> batch_loop c config fuel size cmds i st = Some st.
Proof.
  intros H. destruct fuel; cbn [batch_loop];
    by rewrite bool_decide_eq_false_2 by lia.
Qed.

(** The loop returns: each round moves the index by the batch size. *)
Lemma batch_loop_total (fuel size : nat) (cmds : list (list string))
    (i : nat) (st : runState) :
  0 < size -> length cmds - i <= fuel ->
  is_Some (batch_loop c config fuel size cmds i st).
Proof.
  intros Hsize. revert i st.
  induction fuel as [|fuel IH]; intros i st Hfuel.
  - rewrite batch_loop_done by lia. done.
  - destruct (decide (i < length cmds)).
    + rewrite batch_loop_step by done. apply IH. lia.
    + rewrite batch_loop_done by lia. done.
Qed.

Lemma run_batch_two (st : runState) (a b : list string) :
  a <> [] -> b <> [] ->
  exists s1 s2 e,
    e = on_exec c (st.(trace) ++ [EvPipeline;
                                  EvSend (prepared config a) s1;
                                  EvSend (prepared config b) s2])
    /\ run_batch c config [a; b] st
       = {| trace := st.(trace) ++ [EvPipeline;
                                    EvSend (prepared config a) s1;
                                    EvSend (prepared config b) s2;
                                    EvExec e];
            executed := st.(executed) + credited 2 e;
            errs := st.(errs) + thrown s1 + thrown s2 + rejected e |}.
Proof.
  intros Ha Hb. unfold run_batch, queue_batch. cbn [foldl].
  rewrite !queue_command_spec by done. rewrite exec_batch_spec.
  cbn [trace executed errs length]. rewrite <-!(assoc_L (++)). cbn [app].
  do 3 eexists. split; reflexivity.
Qed.

Lemma run_batch_one (st : runState) (a : list string) :
  a <> [] ->
  exists s1 e,
    run_batch c config [a] st
    = {| trace := st.(trace) ++ [EvPipeline;
                                 EvSend (prepared config a) s1;
                                 EvExec e];
         executed := st.(executed) + credited 1 e;
         errs := st.(errs) + thrown s1 + rejected e |}.
Proof.
  intros Ha. unfold run_batch, queue_batch. cbn [foldl].
  rewrite !queue_command_spec by done. rewrite exec_batch_spec.
  cbn [trace executed errs length]. rewrite <-!(assoc_L (++)). cbn [app].
  do 2 eexists. reflexivity.
Qed.

(** C3.  In pipelined mode with a batch size of 2, the five commands of
    a file are submitted as exactly three batches, of sizes 2, 2 and 1,
    in the order of the commands.  The second batch's [exec] is the
    client's answer [e2] to the first seven calls; if it throws, the
    error count grows by one for it and the third batch is submitted
    all the same. *)
Theorem five_commands_three_batches (schema : schemaFile)
    (st : runState) (c1 c2 c3 c4 c5 : list string) :
  config.(dryRun) = false ->
  config.(useTransactions) = false ->
  config.(batchSize) = 2 ->
  schema.(commands) = [c1; c2; c3; c4; c5] ->
  c1 <> [] -> c2 <> [] -> c3 <> [] -> c4 <> [] -> c5 <> [] ->
  exists s1 s2 s3 s4 s5 e1 e2 e3,
    let first := [EvPipeline; EvSend (prepared config c1) s1;
                  EvSend (prepared config c2) s2; EvExec e1] in
    let second := [EvPipeline; EvSend (prepared config c3) s3;
                   EvSend (prepared config c4) s4] in
    let third := [EvPipeline; EvSend (prepared config c5) s5;
                  EvExec e3] in
    e2 = on_exec c (st.(trace) ++ first ++ second)
    /\ process_schema c config schema st
       = Some {| trace :=
                   st.(trace) ++ first ++ second ++ [EvExec e2] ++ third;
                 executed :=
                   st.(executed) + credited 2 e1 + credited 2 e2
                   + credited 1 e3;
                 errs :=
                   st.(errs) + thrown s1 + thrown s2 + thrown s3
                   + thrown s4 + thrown s5
                   + rejected e1 + rejected e2 + rejected e3 |}.
Proof.
  intros Hdry Htx Hsize Hcmds H1 H2 H3 H4 H5.
  unfold process_schema, effective_batch_size.
  rewrite Hdry, Htx, Hsize, Hcmds. cbn [andb length].
  rewrite batch_loop_step by (cbn; lia). cbn [drop take].
  destruct (run_batch_two st c1 c2 H1 H2) as (s1 & s2 & e1 & _ & ->).
  rewrite batch_loop_step by (cbn; lia). cbn [drop take Nat.add].
  match goal with |- context [run_batch c config _ ?s] =>
    destruct (run_batch_two s c3 c4 H3 H4) as (s3 & s4 & e2 & He2 & ->)
  end.
  rewrite batch_loop_step by (cbn; lia). cbn [drop take Nat.add].
  match goal with |- context [run_batch c config _ ?s] =>
    destruct (run_batch_one s c5 H5) as (s5 & e3 & ->)
  end.
  rewrite batch_loop_done by (cbn; lia).
  exists s1, s2, s3, s4, s5, e1, e2, e3. cbn zeta.
  cbn [trace executed errs] in *.
  rewrite <-!(assoc_L (++)) in *. cbn [app] in *.
  split; [done|]. do 2 f_equal. lia.
Qed.

End Run.

Lemma pipelined_outcomes_ignored_witness :
  let c := {| on_send := fun _ _ => None;
              on_exec := fun _ =>
                Resolved [Value "OK"; Failure "ERR wrong type"] |} in
  let config := {| variables := None; prefix := ""; batchSize := 2;
                   useTransactions := false; dryRun := false |} in
  let st := {| trace := []; executed := 0; errs := 0 |} in
  let batch := [["SET"; "a"; "1"]; ["INCR"; "a"; "b"]] in
  (run_batch c config batch st).(executed) = 0 + length batch
  /\ (run_batch c config batch st).(errs)
     = (queue_batch c config batch st).(errs).
Proof.
  intros c config st batch.
  apply (proj1 (proj2 (pipelined_outcomes_ignored c config batch st))
           [Value "OK"; Failure "ERR wrong type"]).
  reflexivity.
Defined.

Lemma five_commands_three_batches_witness :
  let st := {| trace := []; executed := 0; errs := 0 |} in
  exists s1 s2 s3 s4 s5 e1 e2 e3,
    let first := [EvPipeline; EvSend ["SET"; "a"; "1"] s1;
                  EvSend ["SET"; "b"; "2"] s2; EvExec e1] in
    let second := [EvPipeline; EvSend ["SET"; "c"; "3"] s3;
                   EvSend ["SET"; "d"; "4"] s4] in
    let third := [EvPipeline; EvSend ["SET"; "e"; "5"] s5; EvExec e3] in
    e2 = on_exec Examples.second_exec_throws (first ++ second)
    /\ process_schema Examples.second_exec_throws
         Examples.pipelined_by_two Examples.five_commands st
       = Some {| trace := first ++ second ++ [EvExec e2] ++ third;
                 executed := 0 + credited 2 e1 + credited 2 e2
                             + credited 1 e3;
                 errs := 0 + thrown s1 + thrown s2 + thrown s3 + thrown s4
                         + thrown s5
                         + rejected e1 + rejected e2 + rejected e3 |}.
Proof.
  intros st.
  apply (five_commands_three_batches Examples.second_exec_throws
           Examples.pipelined_by_two Examples.five_commands st
           ["SET"; "a"; "1"] ["SET"; "b"; "2"] ["SET"; "c"; "3"]
           ["SET"; "d"; "4"] ["SET"; "e"; "5"]); done.
Defined.

(** The same run, evaluated: the second [exec] throws, one error is
    counted, three commands count as executed, and the third batch is
    submitted. *)
Example second_batch_throws :
  process_schema Examples.second_exec_throws Examples.pipelined_by_two
    Examples.five_commands {| trace := []; executed := 0; errs := 0 |}
  = Some {| trace :=
              [ EvPipeline; EvSend ["SET"; "a"; "1"] None;
                EvSend ["SET"; "b"; "2"] None; EvExec (Resolved []);
                EvPipeline; EvSend ["SET"; "c"; "3"] None;
                EvSend ["SET"; "d"; "4"] None;
                EvExec (Rejected "connection lost");
                EvPipeline; EvSend ["SET"; "e"; "5"] None;
                EvExec (Resolved []) ];
            executed := 3; errs := 1 |}.
Proof. vm_compute. reflexivity. Qed.

End ExecutionFacts.


(** ** Dictionaries *)

Module JsObjectFacts.

Import JsObject.

Lemma get_set {V} (k k' : string) (v : V) (o : obj V) :
  get k (set k' v o) = if decide (k' = k) then Some v else get k o.
Proof.
  induction o as [|[k0 v0] o IH]; cbn [set get].
  - done.
  - destruct (decide (k0 = k')) as [->|Hne]; cbn [get].
    + destruct (decide (k' = k)); done.
    + destruct (decide (k0 = k)) as [->|]; [|done].
      by rewrite decide_False.
Qed.

Lemma get_Some_fst {V} (k : string) (o : obj V) :
  is_Some (get k o) <-> k ∈ map fst o.
Proof.
  induction o as [|[k0 v0] o IH]; cbn [get map fst].
  - split; [by intros [? ?]|by intros ?%not_elem_of_nil].
  - rewrite elem_of_cons. destruct (decide (k0 = k)) as [->|Hne].
    + split; eauto.
    + rewrite IH. split; [by right|]. by intros [->|?].
Qed.

Lemma elem_of_keys {V} (k : string) (o : obj V) :
  k ∈ keys o <-> k ∈ map fst o.
Proof.
  unfold keys. rewrite elem_of_app, list_elem_of_filter.
  change (map snd ?l) with (snd <$> l). rewrite list_elem_of_fmap.
  split.
  - intros [([n k'] & -> & Hin)|[_ ?]]; [|done].
    rewrite merge_sort_Permutation in Hin.
    apply list_elem_of_omap in Hin as (x & Hx & Hi).
    unfold indexed in Hi. destruct (array_index x); by simplify_eq.
  - intros Hin. destruct (array_index k) as [n|] eqn:Hk; [left|by right].
    exists (n, k). split; [done|]. rewrite merge_sort_Permutation.
    apply list_elem_of_omap. exists k. split; [done|].
    unfold indexed. by rewrite Hk.
Qed.

Lemma elem_of_keys_get {V} (k : string) (o : obj V) :
  k ∈ keys o <-> is_Some (get k o).
Proof. by rewrite elem_of_keys, get_Some_fst. Qed.

(** A dictionary filled by a loop over a list. *)
Section Fill.
Context {A V : Type} (key : A -> string) (val : A -> V).

Local Abbreviation fill o l :=
  (foldl (fun o x => set (key x) (val x) o) o l).

Lemma get_fill_other (k : string) (l : list A) (o : obj V) :
  k ∉ map key l -> get k (fill o l) = get k o.
Proof.
  revert o. induction l as [|x l IH]; intros o Hk; [done|].
  cbn [map] in Hk. apply not_elem_of_cons in Hk as [Hne Hk].
  cbn [foldl]. rewrite IH by done. rewrite get_set.
  by rewrite decide_False.
Qed.

Lemma get_fill_is_Some (k : string) (l : list A) (o : obj V) :
  is_Some (get k (fill o l)) <-> k ∈ map key l \/ is_Some (get k o).
Proof.
  revert o. induction l as [|x l IH]; intros o.
  - cbn. split; [eauto|]. by intros [?%not_elem_of_nil|].
  - cbn [foldl map]. rewrite IH, get_set, elem_of_cons.
    destruct (decide (key x = k)) as [->|Hne].
    + split; [intros _; by left; left|intros _; right; eauto].
    + split; [intros [?|?]; auto|].
      intros [[->|?]|?]; [done|auto..].
Qed.

Lemma get_fill_NoDup (x : A) (l : list A) (o : obj V) :
  NoDup (map key l) -> x ∈ l -> get (key x) (fill o l) = Some (val x).
Proof.
  revert o. induction l as [|y l IH]; intros o Hnd Hx.
  - by apply not_elem_of_nil in Hx.
  - cbn [map] in Hnd. apply NoDup_cons in Hnd as [Hy Hnd].
    cbn [foldl].
    apply elem_of_cons in Hx as [->|Hx]; [|by apply IH].
    rewrite get_fill_other by done. rewrite get_set.
    by rewrite decide_True.
Qed.
Lemma get_fill_Some (k : string) (v : V) (l : list A) (o : obj V) :
  get k (fill o l) = Some v ->
  (exists x, x ∈ l /\ key x = k /\ val x = v) \/ get k o = Some v.
Proof.
  revert o. induction l as [|x l IH]; intros o; cbn [foldl]; [auto|].
  intros [(y & Hy & Hk & Hv)|H]%IH.
  - left. exists y. split; [by right|done].
  - rewrite get_set in H. destruct (decide (key x = k)) as [Hk|Hk].
    + left. exists x. split; [by left|]. split; [done|congruence].
    + by right.
Qed.
End Fill.

End JsObjectFacts.


(** ** The dependency resolver *)

Module ResolverFacts.

Import Loader ResolverSpec JsObject JsObjectFacts.

Lemma size_list_to_set_le (l : list string) :
  size (list_to_set l : gset string) <= length l.
Proof.
  induction l as [|x l IH]; cbn [list_to_set length].
  - by rewrite size_empty.
  - rewrite size_union_alt, size_singleton.
    pose proof (subseteq_size (list_to_set l ∖ {[x]})
                  (list_to_set l : gset string)) as H.
    assert (list_to_set l ∖ {[x]} ⊆ (list_to_set l : gset string))
      by (by intros y [? _]%elem_of_difference).
    specialize (H ltac:(done)). lia.
Qed.

(** *** The loop over the dependencies in the cycle check *)

Lemma any_dep_total (check : string -> outcome sortError bool)
    (deps : list string) :
  (forall d, d ∈ deps -> check d <> OutOfFuel) ->
  any_dep check deps <> OutOfFuel.
Proof.
  induction deps as [|d deps IH]; intros H; cbn [any_dep]; [done|].
  pose proof (H d ltac:(by left)) as Hd.
  destruct (check d) as [[]|e|]; [done| |done..].
  apply IH. intros d' Hd'. apply H. by right.
Qed.

Lemma any_dep_true (check : string -> outcome sortError bool)
    (deps : list string) :
  any_dep check deps = Ok true ->
  exists d, d ∈ deps /\ check d = Ok true.
Proof.
  induction deps as [|d deps IH]; cbn [any_dep]; [done|].
  destruct (check d) as [[]|e|] eqn:Hd; [|intros H|done..].
  - intros _. exists d. split; [by left|done].
  - destruct (IH H) as (d' & Hin & Hd'). exists d'. split; [by right|done].
Qed.

Lemma any_dep_throw (check : string -> outcome sortError bool)
    (deps : list string) (e : sortError) :
  any_dep check deps = Throw e ->
  exists d, d ∈ deps /\ check d = Throw e.
Proof.
  induction deps as [|d deps IH]; cbn [any_dep]; [done|].
  destruct (check d) as [[]|e'|] eqn:Hd; [done|intros H| |done].
  - destruct (IH H) as (d' & Hin & Hd'). exists d'. split; [by right|done].
  - intros ?. simplify_eq. exists d. split; [by left|done].
Qed.

Lemma any_dep_false (check : string -> outcome sortError bool)
    (deps : list string) :
  any_dep check deps = Ok false ->
  forall d, d ∈ deps -> check d = Ok false.
Proof.
  induction deps as [|d deps IH]; cbn [any_dep].
  - by intros _ d ?%not_elem_of_nil.
  - destruct (check d) as [[]|e'|] eqn:Hd; [done| |done..].
    intros H d' [->|Hd']%elem_of_cons; [done|by apply IH].
Qed.

(** *** The two dictionaries *)

Section Dictionaries.
Variable files : list schemaFile.

(** The files whose assignment adds a property. *)
Local Abbreviation kept :=
  (filter (fun s : schemaFile => basename s.(path) <> "__proto__") files).

Lemma nameToPath_fill :
  nameToPath files
  = foldl (fun o s => set (basename s.(path)) s.(path) o) [] kept.
Proof.
  unfold nameToPath. generalize (@nil (string * string)).
  induction files as [|f l IH]; intros o; [done|].
  cbn [foldl]. rewrite IH. cbn zeta.
  destruct (decide (basename (path f) = "__proto__")) as [H|H].
  - rewrite bool_decide_eq_true_2 by done.
    by rewrite filter_cons_False by (by intros ?).
  - rewrite bool_decide_eq_false_2 by done.
    by rewrite filter_cons_True by done.
Qed.

Lemma props_fill :
  props (dependencyMap files)
  = foldl (fun o s =>
             set (basename s.(path)) s.(metadata).(dependencies) o)
      [] kept.
Proof.
  unfold dependencyMap.
  change (@nil (string * list string))
    with (props {| props := []; proto := None |}) at 2.
  generalize {| props := []; proto := None |}.
  induction files as [|f l IH]; intros o; [done|].
  cbn [foldl]. rewrite IH. cbn zeta.
  destruct (decide (basename (path f) = "__proto__")) as [H|H].
  - rewrite bool_decide_eq_true_2 by done.
    by rewrite filter_cons_False by (by intros ?).
  - rewrite bool_decide_eq_false_2 by done.
    by rewrite filter_cons_True by done.
Qed.

Lemma proto_None :
  plain_names files -> proto (dependencyMap files) = None.
Proof.
  unfold plain_names, base_names, dependencyMap.
  change (@None (list string))
    with (proto {| props := []; proto := None |}) at 2.
  generalize {| props := []; proto := None |}.
  induction files as [|f l IH]; intros o Hp; [done|].
  cbn [map] in Hp. apply not_elem_of_cons in Hp as [Hf Hp].
  cbn [foldl]. rewrite IH by done. cbn zeta.
  by rewrite bool_decide_eq_false_2 by done.
Qed.

Lemma kept_names (name : string) :
  name ∈ map (fun s => basename s.(path)) kept
  <-> name ∈ base_names files /\ name <> "__proto__".
Proof.
  unfold base_names. change (map ?f ?l) with (f <$> l).
  rewrite !list_elem_of_fmap. split.
  - intros (f & -> & [Hf ?]%list_elem_of_filter). split; [eauto|done].
  - intros [(f & -> & Hf) Hne]. exists f. split; [done|].
    by apply list_elem_of_filter.
Qed.

Lemma kept_NoDup :
  NoDup (base_names files) ->
  NoDup (map (fun s => basename s.(path)) kept).
Proof.
  unfold base_names. induction files as [|f l IH]; [done|].
  cbn [map]. intros [Hf Hl]%NoDup_cons.
  destruct (decide (basename (path f) = "__proto__")) as [H|H].
  - rewrite filter_cons_False by (by intros ?). by apply IH.
  - rewrite filter_cons_True by done. cbn [map].
    apply NoDup_cons. split; [|by apply IH].
    change (map ?f ?l) with (f <$> l) in *.
    rewrite list_elem_of_fmap in *.
    intros (g & Hg & [? Hin]%list_elem_of_filter). apply Hf. eauto.
Qed.

Lemma props_is_Some (name : string) :
  is_Some (get name (props (dependencyMap files)))
  <-> name ∈ base_names files /\ name <> "__proto__".
Proof.
  rewrite props_fill, get_fill_is_Some, kept_names.
  split; [intros [?|[? ?]]; done|by left].
Qed.

Lemma nameToPath_is_Some (name : string) :
  is_Some (get name (nameToPath files))
  <-> name ∈ base_names files /\ name <> "__proto__".
Proof.
  rewrite nameToPath_fill, get_fill_is_Some, kept_names.
  split; [intros [?|[? ?]]; done|by left].
Qed.

(** An entry of [dependencyMap] is the list some file declares. *)
Lemma props_Some (name : string) (deps : list string) :
  get name (props (dependencyMap files)) = Some deps ->
  exists f, f ∈ files /\ basename f.(path) = name
            /\ f.(metadata).(dependencies) = deps.
Proof.
  rewrite props_fill. intros [(f & Hf & ? & ?)|?]%get_fill_Some; [|done].
  apply list_elem_of_filter in Hf as [_ Hf]. eauto.
Qed.

Lemma nameToPath_Some (name p : string) :
  get name (nameToPath files) = Some p ->
  exists f, f ∈ files /\ basename f.(path) = name /\ f.(path) = p.
Proof.
  rewrite nameToPath_fill.
  intros [(f & Hf & ? & ?)|?]%get_fill_Some; [|done].
  apply list_elem_of_filter in Hf as [_ Hf]. eauto.
Qed.

(** With distinct base names, the entry of a file is its own list. *)
Lemma props_NoDup (f : schemaFile) :
  NoDup (base_names files) -> f ∈ files ->
  basename f.(path) <> "__proto__" ->
  get (basename f.(path)) (props (dependencyMap files))
  = Some f.(metadata).(dependencies).
Proof.
  intros Hnd Hf Hne. rewrite props_fill.
  apply (get_fill_NoDup (fun s => basename (path s))
           (fun s => dependencies (metadata s)) f);
    [by apply kept_NoDup|by apply list_elem_of_filter].
Qed.


End Dictionaries.

Section Files.
Variable files : list schemaFile.

Local Abbreviation K := (key_set files).
Local Abbreviation D := (nodes files).

Lemma props_key (name : string) :
  is_Some (get name (props (dependencyMap files))) -> name ∈ K.
Proof.
  intros H. unfold key_set, for_in_names.
  rewrite elem_of_list_to_set, elem_of_app. left.
  by apply elem_of_keys_get.
Qed.

(** A name outside [D] has no dependencies. *)
Lemma deps_of_leaf (name : string) :
  name ∉ D ->
  deps_of files name = None \/ deps_of files name = Some [].
Proof.
  unfold nodes. rewrite not_elem_of_union, not_elem_of_singleton.
  intros [Hk Hp]. unfold deps_of, dependency_lookup.
  destruct (get name (props (dependencyMap files))) as [deps|] eqn:Hown.
  { destruct Hk. apply props_key. eauto. }
  assert (forall n, iterated (object_prototype n) = None
                    \/ iterated (object_prototype n) = Some [])
    as Hobj.
  { intros n. unfold object_prototype.
    destruct (Prototype.inherited n); cbn; auto. }
  destruct (proto (dependencyMap files)) as [arr|] eqn:Harr; [|done].
  rewrite bool_decide_eq_false_2 by done.
  destruct (get name (array_props arr)) as [s|] eqn:Hs.
  { destruct Hk. unfold key_set, for_in_names.
    rewrite elem_of_list_to_set, elem_of_app. right. rewrite Harr.
    apply list_elem_of_filter. split; [done|].
    apply get_Some_fst. eauto. }
  destruct (bool_decide (name = "length")).
  { cbn. destruct (bool_decide (length arr = 0)); auto. }
  destruct (bool_decide (name ∈ Prototype.array_methods)); [by left|].
  done.
Qed.

Lemma edge_node (name dep : string) : edge files name dep -> name ∈ D.
Proof.
  intros (deps & Hdeps & Hdep).
  destruct (decide (name ∈ D)) as [|Hn]; [done|].
  destruct (deps_of_leaf name Hn) as [H|H]; rewrite H in Hdeps;
    simplify_eq. by apply not_elem_of_nil in Hdep.
Qed.

Lemma size_nodes : size D <= length (for_in_names files) + 1.
Proof.
  unfold nodes, key_set.
  pose proof (size_list_to_set_le (for_in_names files)).
  pose proof (size_union_alt (C := gset string)
                (list_to_set (for_in_names files)) {["__proto__"]})
    as Hu.
  rewrite Hu.
  pose proof (subseteq_size
                (({["__proto__"]} : gset string)
                 ∖ list_to_set (for_in_names files))
                {["__proto__"]}) as Hs.
  rewrite size_singleton in Hs.
  specialize (Hs ltac:(set_solver)). lia.
Qed.

Lemma size_visit (name : string) (V : gset string) :
  name ∈ D -> name ∉ V -> size (D ∖ ({[name]} ∪ V)) < size (D ∖ V).
Proof.
  intros Hk Hv. apply subset_size. split.
  - intros x. rewrite !elem_of_difference, elem_of_union.
    intros [? Hx]. split; [done|]. intros ?. apply Hx. by right.
  - intros Hsub.
    assert (name ∈ D ∖ V) as Hin by (by apply elem_of_difference).
    apply Hsub, elem_of_difference in Hin as [_ Hin].
    apply Hin, elem_of_union. left. by apply elem_of_singleton.
Qed.

Lemma size_mono (V V' : gset string) :
  V ⊆ V' -> size (D ∖ V') <= size (D ∖ V).
Proof.
  intros H. apply subseteq_size. intros x.
  rewrite !elem_of_difference. intros [? Hx]. split; [done|].
  intros ?. by apply Hx, H.
Qed.

(** *** The cycle check *)

Lemma checkCircular_total (fuel : nat) (name : string)
    (V : gset string) :
  size (D ∖ V) + 1 <= fuel ->
  checkCircular files fuel name V <> OutOfFuel.
Proof.
  revert name V. induction fuel as [|fuel IH]; intros name V Hf; [lia|].
  cbn [checkCircular]. destruct (decide (name ∈ V)); [done|].
  destruct (deps_of files name) as [deps|] eqn:Hdeps; [|done].
  apply any_dep_total. intros d Hd. apply IH.
  assert (edge files name d) as He by (by exists deps).
  pose proof (size_visit name V (edge_node _ _ He) ltac:(done)). lia.
Qed.

(** What is reported is a path into the visited set or into a cycle. *)
Lemma checkCircular_sound (fuel : nat) (n : string) (V : gset string) :
  checkCircular files fuel n V = Ok true ->
  exists m, rtc (edge files) n m /\ (m ∈ V \/ tc (edge files) m m).
Proof.
  revert n V. induction fuel as [|fuel IH]; intros n V; [done|].
  cbn [checkCircular]. destruct (decide (n ∈ V)) as [Hn|Hn].
  - intros _. exists n. split; [done|by left].
  - destruct (deps_of files n) as [deps|] eqn:Hdeps; [|done].
    intros (d & Hd & Hc)%any_dep_true.
    assert (edge files n d) as He by (by exists deps).
    destruct (IH _ _ Hc) as (m & Hdm & [Hm|Hm]).
    + apply elem_of_union in Hm as [->%elem_of_singleton|Hm].
      * exists n. split; [done|]. right.
        eapply tc_rtc_r; [by apply tc_once|done].
      * exists m. split; [by eapply rtc_l|by left].
    + exists m. split; [by eapply rtc_l|by right].
Qed.

(** What is thrown is the [TypeError], at a lookup on the path. *)
Lemma checkCircular_throw (fuel : nat) (n : string) (V : gset string)
    (e : sortError) :
  checkCircular files fuel n V = Throw e ->
  e = NotIterable
  /\ exists m, rtc (edge files) n m /\ deps_of files m = None.
Proof.
  revert n V. induction fuel as [|fuel IH]; intros n V; [done|].
  cbn [checkCircular]. destruct (decide (n ∈ V)) as [Hn|Hn]; [done|].
  destruct (deps_of files n) as [deps|] eqn:Hdeps.
  - intros (d & Hd & Hc)%any_dep_throw.
    assert (edge files n d) as He by (by exists deps).
    destruct (IH _ _ Hc) as (-> & m & Hdm & Hm).
    split; [done|]. exists m. split; [by eapply rtc_l|done].
  - intros [= <-]. split; [done|]. by exists n.
Qed.

(** A path into the visited set, or to a lookup that is not iterable,
    does not go unnoticed. *)
Lemma checkCircular_not_false (n m : string) :
  rtc (edge files) n m ->
  forall fuel V, m ∈ V \/ deps_of files m = None ->
  checkCircular files fuel n V <> Ok false.
Proof.
  induction 1 as [n|n x m Hnx _ IH]; intros fuel V Hm;
    (destruct fuel as [|fuel]; [done|]); cbn [checkCircular].
  - destruct (decide (n ∈ V)); [done|].
    destruct Hm as [?|Hm]; [|rewrite Hm]; done.
  - destruct (decide (n ∈ V)); [done|].
    destruct Hnx as (deps & -> & Hx). intros Hall.
    apply (IH fuel ({[n]} ∪ V)); [set_solver|].
    by apply (any_dep_false _ _ Hall).
Qed.

Lemma cycle_not_false (fuel : nat) (n : string) :
  tc (edge files) n n -> checkCircular files fuel n ∅ <> Ok false.
Proof.
  intros Hc.
  assert (exists x, edge files n x /\ rtc (edge files) x n)
    as (x & Hnx & Hxn).
  { inversion Hc as [? ? Hnn|? x ? Hnx Hxn]; subst.
    - exists n. split; done.
    - exists x. split; [done|by apply tc_rtc]. }
  destruct fuel as [|fuel]; [done|]. cbn [checkCircular].
  rewrite decide_False by set_solver.
  destruct Hnx as (deps & -> & Hx). intros Hall.
  apply (checkCircular_not_false x n Hxn fuel ({[n]} ∪ ∅));
    [set_solver|].
  by apply (any_dep_false _ _ Hall).
Qed.

Lemma check_all_spec (fuel : nat) (names : list string) :
  size D + 1 <= fuel ->
  match check_all files fuel names with
  | Ok _ =>
      forall n, n ∈ names ->
        ~ tc (edge files) n n /\ iterable_from files n
  | Throw (CircularDependency name) =>
      name ∈ names
      /\ exists m, rtc (edge files) name m /\ tc (edge files) m m
  | Throw NotIterable =>
      exists n m,
        n ∈ names /\ rtc (edge files) n m /\ deps_of files m = None
  | Throw (MissingDependency _ _) => False
  | OutOfFuel => False
  end.
Proof.
  intros Hf. induction names as [|name names IH]; cbn [check_all].
  - by intros n ?%not_elem_of_nil.
  - pose proof (checkCircular_total fuel name ∅) as Htotal.
    rewrite (difference_empty_L D) in Htotal.
    specialize (Htotal ltac:(lia)).
    destruct (checkCircular files fuel name ∅) as [[]|e|] eqn:Hb;
      [| | |done].
    + split; [by left|].
      destruct (checkCircular_sound _ _ _ Hb) as (m & Hm & [?|?]);
        [set_solver|eauto].
    + destruct (check_all files fuel names) as [[]|[n|n d|]|];
        [| | | |done].
      * intros n [->|Hn]%elem_of_cons; [|by apply IH]. split.
        -- intros Hc. by apply (cycle_not_false fuel name Hc).
        -- intros m Hm Hnone.
           apply (checkCircular_not_false name m Hm fuel ∅); auto.
      * destruct IH as (Hn & Hm). split; [by right|done].
      * done.
      * destruct IH as (n & m & Hn & Hm). exists n, m.
        split; [by right|done].
    + destruct (checkCircular_throw _ _ _ _ Hb) as (-> & m & Hm).
      exists name, m. split; [by left|done].
Qed.

(** *** The topological sort returns or throws *)

Lemma visit_deps_grows
    (visit : string -> sortState -> outcome sortError sortState)
    (fuel : nat) (name : string) (deps : list string) (st : sortState) :
  (forall dep st0, size (D ∖ st0.1) + 1 <= fuel ->
     grows st0 (visit dep st0)) ->
  size (D ∖ st.1) + 1 <= fuel ->
  grows st (visit_deps files visit name deps st).
Proof.
  intros Hvisit. revert st.
  induction deps as [|dep deps IH]; intros st Hf; cbn [visit_deps];
    [by cbn|].
  destruct (not_found files dep); [done|].
  pose proof (Hvisit dep st Hf) as Hpost.
  destruct (visit dep st) as [st1|e|] eqn:Hv; cbn; [|done..].
  cbn in Hpost. pose proof (size_mono _ _ Hpost).
  specialize (IH st1 ltac:(lia)).
  destruct (visit_deps files visit name deps st1); cbn in *;
    [by etrans|done..].
Qed.

Lemma visit_grows (fuel : nat) (n : string) (st : sortState) :
  size (D ∖ st.1) + 1 <= fuel -> grows st (visit files fuel n st).
Proof.
  revert n st. induction fuel as [|fuel IH]; intros n st Hf; [lia|].
  cbn [visit]. destruct (decide (n ∈ st.1)) as [Hin|Hin]; [by cbn|].
  destruct (deps_of files n) as [deps|] eqn:Hdeps; [|done].
  assert (grows ({[n]} ∪ st.1, st.2)
            (visit_deps files (visit files fuel) n deps
               ({[n]} ∪ st.1, st.2))) as Hg.
  { destruct (decide (n ∈ D)) as [Hn|Hn].
    - apply (visit_deps_grows _ fuel); [by intros; apply IH|].
      pose proof (size_visit n st.1 Hn Hin). cbn. lia.
    - destruct (deps_of_leaf n Hn) as [H|H]; rewrite H in Hdeps;
        simplify_eq. cbn. set_solver. }
  destruct (visit_deps files (visit files fuel) n deps _) as [st1|e|];
    cbn in *; [set_solver|done..].
Qed.

Lemma visit_all_grows (fuel : nat) (names : list string)
    (st : sortState) :
  size (D ∖ st.1) + 1 <= fuel -> grows st (visit_all files fuel names st).
Proof.
  revert st. induction names as [|name rest IH]; intros st Hf;
    cbn [visit_all]; [by cbn|].
  pose proof (visit_grows fuel name st Hf) as Hg.
  destruct (visit files fuel name st) as [st1|e|]; cbn in *; [|done..].
  pose proof (size_mono _ _ Hg). specialize (IH st1 ltac:(lia)).
  destruct (visit_all files fuel rest st1); cbn in *; [by etrans|done..].
Qed.

(** The fuel the resolver is given is enough, whatever the files. *)
Lemma sortSchemasByDependencies_total :
  sortSchemasByDependencies files <> OutOfFuel.
Proof.
  unfold sortSchemasByDependencies. cbv zeta.
  pose proof size_nodes as Hs.
  pose proof (check_all_spec (length (for_in_names files) + 2)
                (for_in_names files) ltac:(lia)) as Hcheck.
  destruct (check_all files _ _) as [[]|e|]; cbn; [|done..].
  pose proof (visit_all_grows (length (for_in_names files) + 2)
                (for_in_names files) (∅, [])) as Hg.
  cbn in Hg. rewrite (difference_empty_L D) in Hg.
  specialize (Hg ltac:(lia)).
  by destruct (visit_all files _ _ _).
Qed.

(** *** Without a file named [__proto__] *)

Section Plain.
Hypothesis plain : plain_names files.

Lemma key_set_spec (name : string) :
  name ∈ K <-> name ∈ base_names files.
Proof.
  unfold key_set, for_in_names. rewrite (proto_None files plain).
  rewrite app_nil_r, elem_of_list_to_set, elem_of_keys_get.
  rewrite props_is_Some. split; [by intros [? _]|].
  intros H. split; [done|]. by intros ->.
Qed.

Lemma deps_of_key (name : string) :
  name ∈ K -> is_Some (deps_of files name).
Proof.
  intros Hk%key_set_spec. unfold deps_of, dependency_lookup.
  destruct (proj2 (props_is_Some files name)) as [deps ->]; [|done].
  split; [done|]. by intros ->.
Qed.

Lemma deps_of_other (name : string) :
  name ∉ K ->
  deps_of files name
  = if Prototype.inherited name then None else Some [].
Proof.
  intros Hk. unfold deps_of, dependency_lookup.
  destruct (get name (props (dependencyMap files))) as [deps|] eqn:H.
  { destruct Hk. apply props_key. eauto. }
  rewrite (proto_None files plain). unfold object_prototype.
  by destruct (Prototype.inherited name).
Qed.

Lemma edge_key (name dep : string) : edge files name dep -> name ∈ K.
Proof.
  intros (deps & Hdeps & Hdep).
  destruct (decide (name ∈ K)) as [|Hn]; [done|].
  rewrite (deps_of_other name Hn) in Hdeps.
  destruct (Prototype.inherited name); simplify_eq.
  by apply not_elem_of_nil in Hdep.
Qed.

(** The resolver follows only what some file declares. *)
Lemma edge_declared (name dep : string) :
  edge files name dep -> declares files name dep.
Proof.
  intros He. pose proof (edge_key _ _ He) as Hk.
  destruct He as (deps & Hdeps & Hdep).
  unfold deps_of, dependency_lookup in Hdeps.
  destruct (get name (props (dependencyMap files))) as [deps'|] eqn:H.
  - cbn in Hdeps. simplify_eq.
    destruct (props_Some files _ _ H) as (f & Hf & Hn & Hd).
    exists f. by rewrite Hd.
  - destruct (proj2 (props_is_Some files name)) as [? Hs];
      [|congruence].
    apply key_set_spec in Hk. split; [done|]. by intros ->.
Qed.

Lemma edge_declares (name dep : string) :
  NoDup (base_names files) ->
  edge files name dep <-> declares files name dep.
Proof.
  intros Hnd. split; [apply edge_declared|].
  intros (f & Hf & <- & Hdep). unfold edge, deps_of, dependency_lookup.
  rewrite props_NoDup; [by eauto|done..|].
  intros Heq. apply plain. rewrite <-Heq. unfold base_names.
  change (map ?g ?l) with (g <$> l). apply list_elem_of_fmap. eauto.
Qed.

(** A dependency that is found and whose own lookup is iterable is
    the base name of a file with a path that is not empty. *)
Lemma found_provided (dep : string) :
  not_found files dep = false -> deps_of files dep <> None ->
  provided files dep.
Proof.
  unfold not_found, path_lookup. intros Hnf Hit.
  destruct (get dep (nameToPath files)) as [p|] eqn:Hp.
  - destruct (nameToPath_Some files _ _ Hp) as (f & Hf & Hn & <-).
    exists f. split; [done|]. split; [done|]. intros He.
    cbn in Hnf. by rewrite He in Hnf.
  - assert (dep ∉ K) as Hk.
    { intros Hk%key_set_spec.
      destruct (proj2 (nameToPath_is_Some files dep)) as [? Hs];
        [|congruence].
      split; [done|]. by intros ->. }
    rewrite (deps_of_other dep Hk) in Hit.
    unfold object_prototype in Hnf.
    by destruct (Prototype.inherited dep).
Qed.

Lemma provided_key (dep : string) : provided files dep -> dep ∈ K.
Proof.
  intros (f & Hf & <- & _). apply key_set_spec. unfold base_names.
  change (map ?g ?l) with (g <$> l). apply list_elem_of_fmap. eauto.
Qed.

Lemma found_key (dep : string) :
  not_found files dep = false -> deps_of files dep <> None ->
  dep ∈ K.
Proof. intros ? ?. by apply provided_key, found_provided. Qed.


Lemma missing_not_found (dep : string) :
  missing files dep -> Prototype.inherited dep = false ->
  not_found files dep = true.
Proof.
  unfold missing, not_found, path_lookup. intros Hm Hi.
  destruct (get dep (nameToPath files)) as [p|] eqn:Hp.
  - destruct Hm. apply (nameToPath_is_Some files dep). eauto.
  - unfold object_prototype. by rewrite Hi.
Qed.

Lemma size_key_visit (name : string) (V : gset string) :
  name ∈ K -> name ∉ V -> size (K ∖ ({[name]} ∪ V)) < size (K ∖ V).
Proof.
  intros Hk Hv. apply subset_size. split.
  - intros x. rewrite !elem_of_difference, elem_of_union.
    intros [? Hx]. split; [done|]. intros ?. apply Hx. by right.
  - intros Hsub.
    assert (name ∈ K ∖ V) as Hin by (by apply elem_of_difference).
    apply Hsub, elem_of_difference in Hin as [_ Hin].
    apply Hin, elem_of_union. left. by apply elem_of_singleton.
Qed.

Lemma size_key_mono (V V' : gset string) :
  V ⊆ V' -> size (K ∖ V') <= size (K ∖ V).
Proof.
  intros H. apply subseteq_size. intros x.
  rewrite !elem_of_difference. intros [? Hx]. split; [done|].
  intros ?. by apply Hx, H.
Qed.

Lemma iterable_from_edge (n d : string) :
  iterable_from files n -> edge files n d -> iterable_from files d.
Proof. intros Hn He m Hm. apply Hn. by eapply rtc_l. Qed.

Lemma visit_post_trans (st st1 : sortState)
    (r : outcome sortError sortState) :
  visit_post files st (Ok st1) -> visit_post files st1 r ->
  visit_post files st r.
Proof.
  intros (Hsub & Hnew & Hdef). destruct r as [st'|e|]; cbn; [|done..].
  intros (Hsub' & Hnew' & Hdef'). split; [by etrans|]. split; [|auto].
  intros x Hx Hx0. destruct (decide (x ∈ st1.1)); eauto.
Qed.

Lemma find_schema_is_Some (n : string) :
  n ∈ K -> is_Some (find_schema files n).
Proof.
  intros Hn%key_set_spec. unfold base_names in Hn.
  change (map ?f ?l) with (f <$> l) in Hn.
  apply list_elem_of_fmap in Hn as (f & -> & Hf).
  unfold find_schema.
  destruct (List.find _ files) as [g|] eqn:Hfind; [done|].
  apply list_elem_of_In in Hf.
  pose proof (List.find_none _ _ Hfind f Hf) as Hb. cbn beta in Hb.
  by rewrite bool_decide_eq_true_2 in Hb.
Qed.

(** The loop over the dependencies of [name], for a [visit] that
    keeps its promise below the bound [fuel]. *)
Lemma visit_deps_spec
    (visit : string -> sortState -> outcome sortError sortState)
    (fuel : nat) (name : string) (deps : list string)
    (st : sortState) :
  (forall dep st0, dep ∈ K -> iterable_from files dep ->
     size (K ∖ st0.1) < fuel ->
     visit_post files st0 (visit dep st0)) ->
  iterable_from files name ->
  (forall d, d ∈ deps -> edge files name d) ->
  size (K ∖ st.1) < fuel ->
  visit_post files st (visit_deps files visit name deps st)
  /\ (forall st', visit_deps files visit name deps st = Ok st' ->
      forall d, d ∈ deps -> not_found files d = false).
Proof.
  intros Hvisit Hit. revert st.
  induction deps as [|dep deps IH]; intros st Hdeps Hf;
    cbn [visit_deps].
  - split; [by repeat split|]. by intros _ _ d ?%not_elem_of_nil.
  - assert (edge files name dep) as He by (apply Hdeps; by left).
    destruct (not_found files dep) eqn:Hnf.
    { split; [|done]. by exists name, dep. }
    pose proof (iterable_from_edge _ _ Hit He) as Hdep.
    pose proof (Hvisit dep st
                  (found_key _ Hnf (Hdep dep ltac:(done))) Hdep Hf)
      as Hpost.
    destruct (visit dep st) as [st1|e|] eqn:Hv; cbn; [|done..].
    destruct (IH st1) as [Hrest Hfound].
    { intros d Hd. apply Hdeps. by right. }
    { destruct Hpost as [Hsub _].
      pose proof (size_key_mono _ _ Hsub). lia. }
    split; [by eapply visit_post_trans|].
    intros st' Hst' d [->|Hd]%elem_of_cons; [done|by eapply Hfound].
Qed.

Lemma visit_spec (fuel : nat) (n : string) (st : sortState) :
  n ∈ K -> iterable_from files n -> size (K ∖ st.1) < fuel ->
  visit_post files st (visit files fuel n st)
  /\ (forall st', visit files fuel n st = Ok st' -> n ∈ st'.1).
Proof.
  revert n st. induction fuel as [|fuel IH]; intros n st Hn Hit Hf;
    [lia|].
  cbn [visit]. destruct (decide (n ∈ st.1)) as [Hin|Hin].
  { split; [by repeat split|]. by intros st' [= <-]. }
  pose proof (size_key_visit n st.1 Hn Hin) as Hs.
  destruct (deps_of files n) as [deps|] eqn:Hdeps;
    [|by destruct (Hit n)].
  destruct (visit_deps_spec (visit files fuel) fuel n deps
              ({[n]} ∪ st.1, st.2)) as [Hpost Hfound].
  { intros dep st0 Hdep Hdit Hst0. by apply IH. }
  { done. }
  { intros d Hd. by exists deps. }
  { cbn. lia. }
  destruct (visit_deps files (visit files fuel) n deps _)
    as [st1|e|]; cbn; [|done..].
  destruct Hpost as (Hsub & Hnew & Hdef). cbn in Hsub, Hdef.
  split.
  - split; [|split].
    + intros x Hx. apply Hsub, elem_of_union. by right.
    + intros x Hx Hx0. destruct (decide (x = n)) as [->|Hne].
      * split; [done|]. intros dep (deps' & Hd' & Hdep).
        apply (Hfound st1 eq_refl). congruence.
      * apply Hnew; [done|]. cbn.
        rewrite elem_of_union, elem_of_singleton. by intros [?|?].
    + intros Hall. cbn. apply Forall_app. split; [by apply Hdef|].
      apply Forall_singleton. by apply find_schema_is_Some.
  - intros st' [= <-]. cbn. apply Hsub, elem_of_union. left.
    by apply elem_of_singleton.
Qed.

Lemma visit_all_spec (fuel : nat) (names : list string)
    (st : sortState) :
  (forall n, n ∈ names -> n ∈ K /\ iterable_from files n) ->
  size (K ∖ st.1) < fuel ->
  visit_post files st (visit_all files fuel names st)
  /\ (forall st', visit_all files fuel names st = Ok st' ->
      forall n, n ∈ names -> n ∈ st'.1).
Proof.
  revert st. induction names as [|name rest IH]; intros st Hnames Hf;
    cbn [visit_all].
  - split; [by repeat split|]. by intros st' _ n ?%not_elem_of_nil.
  - destruct (Hnames name ltac:(by left)) as [Hk Hit].
    destruct (visit_spec fuel name st) as [Hpost Hname]; [done..|].
    destruct (visit files fuel name st) as [st1|e|] eqn:Hv; cbn;
      [|done..].
    destruct (IH st1) as [Hrest Hall].
    { intros n Hn. apply Hnames. by right. }
    { destruct Hpost as [Hsub _].
      pose proof (size_key_mono _ _ Hsub). lia. }
    split; [by eapply visit_post_trans|].
    intros st' Hst' n [Heq|Hn]%elem_of_cons; [|by eapply Hall].
    assert (visit_post files st1 (Ok st')) as [Hsub _]
      by (by rewrite <-Hst').
    rewrite Heq. apply Hsub. by apply Hname.
Qed.

(** *** Ordering *)

(** What each outcome of the resolver says about the relation it
    follows. *)
Lemma sortSchemasByDependencies_spec :
  match sortSchemasByDependencies files with
  | Ok sorted =>
      (forall n, ~ tc (edge files) n n)
      /\ (forall n, n ∈ K -> iterable_from files n)
      /\ (forall n d, edge files n d -> not_found files d = false)
      /\ Forall is_Some sorted
  | Throw (CircularDependency name) =>
      name ∈ K
      /\ exists m, rtc (edge files) name m /\ tc (edge files) m m
  | Throw (MissingDependency name dep) =>
      (forall n, ~ tc (edge files) n n)
      /\ (forall n, n ∈ K -> iterable_from files n)
      /\ edge files name dep /\ not_found files dep = true
  | Throw NotIterable =>
      exists n m,
        n ∈ K /\ rtc (edge files) n m /\ deps_of files m = None
  | OutOfFuel => False
  end.
Proof.
  unfold sortSchemasByDependencies. cbv zeta.
  set (names := for_in_names files).
  pose proof size_nodes as Hs. fold names in Hs.
  assert (size K <= length names) as Hf.
  { apply size_list_to_set_le. }
  assert (forall n, n ∈ names <-> n ∈ K) as Hnames.
  { intros n. unfold key_set. fold names.
    by rewrite elem_of_list_to_set. }
  pose proof (check_all_spec (length names + 2) names ltac:(lia))
    as Hcheck.
  destruct (check_all files (length names + 2) names)
    as [[]|[name|name dep|]|]; cbn; [| |done| |done].
  2:{ destruct Hcheck as (Hname & Hm).
      split; [by apply Hnames|done]. }
  2:{ destruct Hcheck as (n & m & Hn & Hm). exists n, m.
      split; [by apply Hnames|done]. }
  assert (forall n, ~ tc (edge files) n n) as Hacyclic.
  { intros n Hc. apply (Hcheck n); [|done]. apply Hnames.
    inversion Hc; subst; by eapply edge_key. }
  assert (forall n, n ∈ K -> iterable_from files n) as Hiter.
  { intros n Hn. by apply Hcheck, Hnames. }
  destruct (visit_all_spec (length names + 2) names (∅, []))
    as [Hpost Hall].
  { intros n Hn%Hnames. auto. }
  { cbn. rewrite (difference_empty_L K). lia. }
  destruct (visit_all files (length names + 2) names (∅, []))
    as [st|e|]; cbn; [| |done].
  - destruct Hpost as (_ & Hnew & Hdef).
    split; [done|]. split; [done|]. split; [|by apply Hdef].
    intros n d Hnd.
    destruct (Hnew n) as [_ Hfound]; [|set_solver|by apply Hfound].
    apply (Hall st eq_refl). apply Hnames. by eapply edge_key.
  - destruct Hpost as (name & dep & -> & Hedge & Hnf). done.
Qed.

(** A cycle of the relation is reported, when every lookup on the
    way is iterable. *)
Lemma sort_cyclic (n : string) :
  tc (edge files) n n ->
  (forall k, k ∈ K -> iterable_from files k) ->
  exists name,
    sortSchemasByDependencies files = Throw (CircularDependency name)
    /\ name ∈ K
    /\ exists m, rtc (edge files) name m /\ tc (edge files) m m.
Proof.
  intros Hc Hit. pose proof sortSchemasByDependencies_spec as H.
  destruct (sortSchemasByDependencies files)
    as [l|[name|name dep|]|]; [| | | |done].
  - destruct H as [Ha _]. by destruct (Ha n).
  - exists name. by split.
  - destruct H as [Ha _]. by destruct (Ha n).
  - destruct H as (k & m & Hk & Hm & Hnone). by destruct (Hit k Hk m).
Qed.

(** Without a cycle, a dependency that is not found is reported. *)
Lemma sort_missing (n d : string) :
  (forall x, ~ tc (edge files) x x) ->
  (forall k, k ∈ K -> iterable_from files k) ->
  edge files n d -> not_found files d = true ->
  exists name dep,
    sortSchemasByDependencies files
    = Throw (MissingDependency name dep)
    /\ edge files name dep /\ not_found files dep = true.
Proof.
  intros Ha Hit Hnd Hnf.
  pose proof sortSchemasByDependencies_spec as H.
  destruct (sortSchemasByDependencies files)
    as [l|[name|name dep|]|]; [| | | |done].
  - destruct H as (_ & _ & Hfound & _).
    rewrite (Hfound n d Hnd) in Hnf. done.
  - destruct H as (_ & m & _ & Hm). by destruct (Ha m).
  - exists name, dep. split; [done|]. by destruct H as (_ & _ & ? & ?).
  - destruct H as (k & m & Hk & Hm & Hnone). by destruct (Hit k Hk m).
Qed.

(** When no declared dependency gives an inherited value, every
    lookup the resolver makes is iterable. *)
Lemma plain_iterable (k : string) :
  plain_dependencies files -> k ∈ K -> iterable_from files k.
Proof.
  intros Hpd Hk m Hm.
  assert (m ∈ K \/ Prototype.inherited m = false) as [Hin|Hin].
  { apply rtc_inv_r in Hm as [<-|(x & _ & He)]; [by left|].
    apply edge_declared in He.
    destruct (Prototype.inherited m) eqn:Hi; [left|by right].
    apply key_set_spec. by eapply Hpd. }
  - destruct (deps_of_key m Hin) as [deps ->]. done.
  - destruct (decide (m ∈ K)) as [Hmk|Hmk].
    + destruct (deps_of_key m Hmk) as [deps ->]. done.
    + rewrite (deps_of_other m Hmk), Hin. done.
Qed.

End Plain.

End Files.

(** *** In terms of the files *)

Lemma tc_edge_declares (files : list schemaFile) (a b : string) :
  plain_names files -> NoDup (base_names files) ->
  tc (edge files) a b <-> tc (declares files) a b.
Proof.
  intros Hp Hnd. split; induction 1 as [x y H|x y z H _ IH].
  - apply tc_once. by apply edge_declares.
  - eapply tc_l; [|done]. by apply edge_declares.
  - apply tc_once. by apply edge_declares.
  - eapply tc_l; [|done]. by apply edge_declares.
Qed.

Lemma rtc_edge_declares (files : list schemaFile) (a b : string) :
  plain_names files ->
  rtc (edge files) a b -> rtc (declares files) a b.
Proof.
  intros Hp. induction 1 as [x|x y z H _ IH]; [done|].
  eapply rtc_l; [|done]. by apply edge_declared.
Qed.

(** An ordering error ends the load before the client is called. *)
Lemma loadSchemas_sort_throw (c : client) (config : Config)
    (fs : fileSystem) (e : sortError) :
  fs.(dirExists) = true ->
  sortSchemasByDependencies
    (parse_files config.(variables) (globbed fs)) = Throw e ->
  loadSchemas c config fs = Some (load_failed (error_message e), []).
Proof.
  intros Hdir Hsort. unfold loadSchemas. rewrite Hdir. cbn [negb].
  destruct (globbed fs) as [|g gs] eqn:Hg; [done|]. by rewrite Hsort.
Qed.

Lemma not_elem_of_by_decide (x : string) (l : list string) :
  bool_decide (x ∈ l) = false -> x ∉ l.
Proof. apply bool_decide_eq_false. Qed.

Lemma NoDup_by_decide (l : list string) :
  bool_decide (NoDup l) = true -> NoDup l.
Proof. apply bool_decide_eq_true. Qed.

(** A cycle of the declared relation is reported. *)
Lemma sort_declares_cycle (files : list schemaFile) :
  plain_names files -> plain_dependencies files ->
  NoDup (base_names files) -> cyclic files ->
  exists name,
    sortSchemasByDependencies files = Throw (CircularDependency name)
    /\ name ∈ base_names files /\ leads_to_cycle files name.
Proof.
  intros Hp Hpd Hnd [n Hn]. apply tc_edge_declares in Hn; [|done..].
  destruct (sort_cyclic files Hp n Hn) as (name & Hs & Hk & m & Hm & Hc).
  { intros k Hk. by apply plain_iterable. }
  exists name. split; [done|]. split; [by apply key_set_spec|].
  exists m. split; [by apply rtc_edge_declares|].
  by apply tc_edge_declares.
Qed.

(** Without a cycle, a declared dependency that no file provides is
    reported. *)
Lemma sort_declares_missing (files : list schemaFile) :
  plain_names files -> plain_dependencies files ->
  NoDup (base_names files) -> ~ cyclic files -> declares_missing files ->
  exists name dep,
    sortSchemasByDependencies files = Throw (MissingDependency name dep)
    /\ declares files name dep /\ not_found files dep = true.
Proof.
  intros Hp Hpd Hnd Hacyclic (n & d & Hnd' & Hmiss).
  destruct (sort_missing files Hp n d) as (name & dep & Hs & He & Hnf).
  - intros x Hx. apply Hacyclic. exists x. by apply tc_edge_declares.
  - intros k Hk. by apply plain_iterable.
  - by apply edge_declares.
  - apply missing_not_found; [done|].
    destruct (Prototype.inherited d) eqn:Hi; [|done].
    destruct Hmiss. by eapply Hpd.
  - exists name, dep. split; [done|]. split; [|done].
    by apply edge_declares.
Qed.

Lemma plain_dependencies_by_decide (files : list schemaFile) :
  forallb (fun f =>
             forallb (fun dep =>
                        implb (Prototype.inherited dep)
                          (bool_decide (dep ∈ base_names files)))
               f.(metadata).(dependencies)) files = true ->
  plain_dependencies files.
Proof.
  intros H name dep (f & Hf & _ & Hdep) Hi.
  rewrite forallb_forall in H.
  apply list_elem_of_In, H in Hf. rewrite forallb_forall in Hf.
  apply list_elem_of_In, Hf in Hdep. rewrite Hi in Hdep.
  by apply bool_decide_eq_true in Hdep.
Qed.

(** A file named [__proto__] adds no name to the two loops.  By itself
    it is left out of the result.  When it has a dependency, the index
    of that dependency is a name of the loops, and what the loops run
    over for it are the characters of the dependency: here the files [a]
    and [b] are found, and the index comes out as an undefined entry. *)
Example proto_file_orderings :
  sortSchemasByDependencies Examples.proto_file = Ok []
  /\ sortSchemasByDependencies Examples.proto_characters
     = Ok [Some (Examples.schema "a" []); Some (Examples.schema "b" []);
           None].
Proof. split; vm_compute; reflexivity. Qed.

(** C1, counterexample.  In the first set a file names a schema that
    does not exist, but the two files also depend on each other: the
    circular-dependency error is raised and no missing-dependency error.
    In the second set two files share a base name; the declaration of the
    first, which names a schema that does not exist, is replaced by that
    of the second, and ordering raises no error at all.  In the third set
    the one file names the dependency [constructor], for which no file
    exists: the lookup of that name in the dependency map gives the
    function every object inherits, the loop over it throws a
    [TypeError], and ordering raises neither of its two errors. *)
Lemma cycle_hides_missing_counterexample :
  (declares_missing Examples.cycle_and_missing
   /\ sortSchemasByDependencies Examples.cycle_and_missing
      = Throw (CircularDependency "a.redis")
   /\ forall name dep,
        sortSchemasByDependencies Examples.cycle_and_missing
        <> Throw (MissingDependency name dep))
  /\ (declares_missing Examples.same_base_name
      /\ sortSchemasByDependencies Examples.same_base_name
         = Ok [Some (Examples.schema "x/a.redis" ["missing.redis"])])
  /\ (declares_missing Examples.inherited_dependency
      /\ ~ cyclic Examples.inherited_dependency
      /\ sortSchemasByDependencies Examples.inherited_dependency
         = Throw NotIterable
      /\ forall name dep,
           sortSchemasByDependencies Examples.inherited_dependency
           <> Throw (MissingDependency name dep)).
Proof.
  split; [|split]; split.
  - exists "a.redis", "missing.redis". split.
    + exists (Examples.schema "a.redis" ["b.redis"; "missing.redis"]).
      split; [by left|]. split; [done|]. by right; left.
    + apply not_elem_of_by_decide. vm_compute. reflexivity.
  - split; [vm_compute; reflexivity|]. intros name dep.
    vm_compute. discriminate.
  - exists "a.redis", "missing.redis". split.
    + exists (Examples.schema "x/a.redis" ["missing.redis"]).
      split; [by left|]. split; [done|]. by left.
    + apply not_elem_of_by_decide. vm_compute. reflexivity.
  - vm_compute. reflexivity.
  - exists "a.redis", "constructor". split.
    + exists (Examples.schema "a.redis" ["constructor"]).
      split; [by left|]. split; [done|]. by left.
    + apply not_elem_of_by_decide. vm_compute. reflexivity.
  - split; [|split; [vm_compute; reflexivity|]].
    + intros [n Hn].
      assert (forall a b, declares Examples.inherited_dependency a b ->
                          a = "a.redis" /\ b = "constructor") as Hd.
      { intros a b (f & Hf & <- & Hb).
        apply list_elem_of_singleton in Hf as ->.
        by apply list_elem_of_singleton in Hb as ->. }
      inversion Hn as [? ? H|? x ? H Hx]; subst.
      * destruct (Hd _ _ H) as [? ?]. simplify_eq.
      * destruct (Hd _ _ H) as [_ ->].
        inversion Hx as [? ? H'|? y ? H' _]; subst;
          destruct (Hd _ _ H') as [? _]; simplify_eq.
    + intros name dep. vm_compute. discriminate.
Qed.

(** C1, amended.  For every set of parsed schema files with pairwise
    distinct base names, none of them [__proto__], in which every
    declared dependency that is the name of a property all objects
    inherit ([constructor], [toString], ...) is the base name of a file:
    if the declared dependency relation has a cycle, ordering raises the
    circular-dependency error, and the schema it names is one of the
    files whose dependencies lead into a cycle; if the relation has no
    cycle and some file names a dependency for which no file with that
    base name exists, ordering raises the missing-dependency error, for a
    file and a dependency it declares that the resolver does not find;
    and whenever ordering raises an error, the load returns a failure
    result with the error's message and the client has not been
    called. *)
Theorem ordering_errors (files : list schemaFile) :
  NoDup (base_names files) ->
  plain_names files -> plain_dependencies files ->
  (cyclic files ->
   exists name,
     sortSchemasByDependencies files = Throw (CircularDependency name)
     /\ name ∈ base_names files /\ leads_to_cycle files name)
  /\ (~ cyclic files -> declares_missing files ->
      exists name dep,
        sortSchemasByDependencies files
        = Throw (MissingDependency name dep)
        /\ declares files name dep /\ not_found files dep = true)
  /\ (forall c config fs e,
        fs.(dirExists) = true ->
        parse_files config.(variables) (globbed fs) = files ->
        sortSchemasByDependencies files = Throw e ->
        loadSchemas c config fs
        = Some ({| success := false;
                   details := Some (error_message e);
                   commandsExecuted := None; filesProcessed := None;
                   errorCount := None |}, [])).
Proof.
  intros Hnd Hp Hpd. split; [|split].
  - by apply sort_declares_cycle.
  - by apply sort_declares_missing.
  - intros c config fs e Hdir <- Hs.
    by apply loadSchemas_sort_throw.
Qed.

Lemma ordering_errors_witness :
  (exists name,
     sortSchemasByDependencies Examples.two_cycle
     = Throw (CircularDependency name)
     /\ name ∈ base_names Examples.two_cycle
     /\ leads_to_cycle Examples.two_cycle name)
  /\ (exists name dep,
        sortSchemasByDependencies Examples.one_missing
        = Throw (MissingDependency name dep)
        /\ declares Examples.one_missing name dep
        /\ not_found Examples.one_missing dep = true)
  /\ loadSchemas Examples.always_ok Examples.pipelined_by_two
       Examples.two_cycle_fs
     = Some ({| success := false;
                details :=
                  Some "Circular dependency detected in schema a.redis";
                commandsExecuted := None; filesProcessed := None;
                errorCount := None |}, []).
Proof.
  assert (forall files,
            bool_decide (NoDup (base_names files)) = true ->
            bool_decide ("__proto__" ∈ base_names files) = false ->
            forallb (fun f =>
              forallb (fun dep =>
                         implb (Prototype.inherited dep)
                           (bool_decide (dep ∈ base_names files)))
                f.(metadata).(dependencies)) files = true ->
            NoDup (base_names files) /\ plain_names files
            /\ plain_dependencies files) as Hok.
  { intros files H1 H2 H3. split; [by apply NoDup_by_decide|].
    split; [by apply not_elem_of_by_decide|].
    by apply plain_dependencies_by_decide. }
  destruct (Hok Examples.two_cycle) as (Hc1 & Hc2 & Hc3);
    [vm_compute; reflexivity..|].
  destruct (Hok Examples.one_missing) as (Hm1 & Hm2 & Hm3);
    [vm_compute; reflexivity..|].
  destruct (Hok (parse_files None (globbed Examples.two_cycle_fs)))
    as (Hf1 & Hf2 & Hf3); [vm_compute; reflexivity..|].
  split; [|split].
  - apply (proj1 (ordering_errors Examples.two_cycle Hc1 Hc2 Hc3)).
    exists "a.redis". apply (tc_l _ _ "b.redis"); [|apply tc_once].
    + exists (Examples.schema "a.redis" ["b.redis"]).
      split; [by left|]. split; [done|]. by left.
    + exists (Examples.schema "b.redis" ["a.redis"]).
      split; [by right; left|]. split; [done|]. by left.
  - apply (proj1 (proj2 (ordering_errors Examples.one_missing
                           Hm1 Hm2 Hm3))).
    + intros [n Hn]. apply tc_edge_declares in Hn; [|done..].
      pose proof (sortSchemasByDependencies_spec Examples.one_missing Hm2)
        as Hs.
      vm_compute sortSchemasByDependencies in Hs.
      destruct Hs as [Ha _]. by apply (Ha n).
    + exists "a.redis", "missing.redis". split.
      * exists (Examples.schema "a.redis" ["missing.redis"]).
        split; [by left|]. split; [done|]. by left.
      * apply not_elem_of_by_decide. vm_compute. reflexivity.
  - apply (proj2 (proj2 (ordering_errors _ Hf1 Hf2 Hf3))
             Examples.always_ok Examples.pipelined_by_two
             Examples.two_cycle_fs (CircularDependency "a.redis"));
      [done|done|vm_compute; reflexivity].
Defined.

End ResolverFacts.

(** ** The dependencies marker *)

Module MetadataFacts.

Import Loader ResolverSpec MetadataSpec.

Lemma first_match_unfold {A} (marker : string)
    (after : string -> option A) (s : string) :
  first_match marker after s
  = match (if startsWith marker s
           then after (substring_from (String.length marker) s)
           else None) with
    | Some r => Some r
    | None =>
        match s with
        | EmptyString => None
        | String _ r => first_match marker after r
        end
    end.
Proof. by destruct s. Qed.

(** The scan stops at the first occurrence of the marker when what
    follows it is accepted. *)
Lemma first_match_first {A} (marker : string)
    (after : string -> option A) (content before rest : string) (r : A) :
  first_occurrence marker content before rest ->
  after rest = Some r ->
  first_match marker after content = Some r.
Proof.
  intros [-> Hfirst] Hr. induction before as [|c b IH];
    rewrite first_match_unfold.
  - rewrite sapp_nil_l, startsWith_app, substring_from_app. by rewrite Hr.
  - destruct (startsWith marker (String c b +:+ marker +:+ rest)) eqn:Hs.
    { apply startsWith_inv in Hs as [r' Hr'].
      specialize (Hfirst "" r' Hr'). cbn in Hfirst. lia. }
    rewrite sapp_cons. apply IH. intros a b' Heq.
    specialize (Hfirst (String c a) b').
    rewrite !sapp_cons, Heq in Hfirst. specialize (Hfirst eq_refl).
    cbn in Hfirst. lia.
Qed.

Lemma all_space_trimStart (s : string) :
  all_space s = true -> trimStart s = "".
Proof.
  induction s as [|c s IH]; [done|]. cbn [all_space trimStart].
  destruct (is_space c); [|done]. apply IH.
Qed.

(** C10, counterexample.  The content has the line [# dependencies:],
    whose value is empty, followed by a command on the next line.  The
    white space the pattern passes over includes the line feed, so the
    value is taken from the next line: the dependencies are the command's
    text, not the one-element list with the empty string. *)
Lemma empty_then_command_counterexample :
  split_on "010"%char Examples.empty_then_command
  = ["# version: 1"; "# dependencies:"; "SET a 1;"]
  /\ dependencies
       (SchemaParser.metadata
          (parseSchemaContent Examples.empty_then_command None))
     = ["SET a 1;"]
  /\ dependencies
       (SchemaParser.metadata
          (parseSchemaContent Examples.empty_then_command None))
     <> [""].
Proof. split; [|split]; vm_compute; done. Qed.

(** The empty dependency beside a dependency that is the name of an
    inherited method: the base names are distinct, none is empty or
    [__proto__], nothing is circular, and yet ordering raises no
    missing-dependency error, because the cycle check throws the
    [TypeError] first. *)
Example empty_and_inherited_throws :
  missing Examples.empty_and_inherited ""
  /\ plain_names Examples.empty_and_inherited
  /\ sortSchemasByDependencies Examples.empty_and_inherited
     = Throw NotIterable.
Proof.
  split; [|split].
  - apply ResolverFacts.not_elem_of_by_decide. vm_compute. reflexivity.
  - apply ResolverFacts.not_elem_of_by_decide. vm_compute. reflexivity.
  - vm_compute. reflexivity.
Qed.

(** C10, amended.  If nothing but white space follows the first
    dependencies marker up to the end of the content, parsing returns the
    one-element list with the empty string as dependencies, not the empty
    list.  Consequently, when a set of files with pairwise distinct base
    names, none of them [__proto__], contains a file with this metadata,
    no file has the empty base name, every declared dependency that is
    the name of a property all objects inherit is the base name of a
    file, and the declared relation has no cycle, ordering raises the
    missing-dependency error although no dependency was declared. *)
Theorem empty_dependencies_value (text before trailing : string)
    (vars : option (gmap string string)) :
  first_occurrence "dependencies:" text before trailing ->
  all_space trailing = true ->
  dependencies (SchemaParser.metadata (parseSchemaContent text vars))
  = [""]
  /\ forall files f,
       f ∈ files ->
       f.(metadata) = SchemaParser.metadata (parseSchemaContent text vars) ->
       NoDup (base_names files) ->
       plain_names files -> plain_dependencies files ->
       missing files "" ->
       ~ cyclic files ->
       exists name dep,
         sortSchemasByDependencies files
         = Throw (MissingDependency name dep)
         /\ declares files name dep /\ not_found files dep = true.
Proof.
  intros Hfirst Hspace.
  assert (dependencies
            (SchemaParser.metadata (parseSchemaContent text vars))
          = [""]) as Hdeps.
  { unfold parseSchemaContent. cbn [SchemaParser.metadata].
    unfold extract_metadata. cbn [dependencies].
    unfold dependenciesMatch.
    rewrite (first_match_first _ _ _ _ _ "" Hfirst); [done|].
    by rewrite all_space_trimStart. }
  split; [done|].
  intros files f Hf Hmeta Hnd Hp Hpd Hmiss Hacyclic.
  apply ResolverFacts.sort_declares_missing; [done..|].
  exists (basename (path f)), "". split; [|done].
  exists f. split; [done|]. split; [done|].
  rewrite Hmeta, Hdeps. by left.
Qed.

Lemma empty_dependencies_value_witness :
  let f := {| path := "a.redis"; content := Examples.empty_at_end;
              commands := [["SET"; "a"; "1"]];
              metadata :=
                SchemaParser.metadata
                  (parseSchemaContent Examples.empty_at_end None) |} in
  dependencies
    (SchemaParser.metadata (parseSchemaContent Examples.empty_at_end None))
  = [""]
  /\ exists name dep,
       sortSchemasByDependencies [f] = Throw (MissingDependency name dep)
       /\ declares [f] name dep /\ not_found [f] dep = true.
Proof.
  intros f.
  assert (first_occurrence "dependencies:" Examples.empty_at_end
            ("SET a 1;" +:+ newline +:+ "# ") "  ") as Hfirst.
  { split; [done|]. intros a b Heq.
    do 11 (destruct a as [|? a];
           [exfalso; vm_compute in Heq; by simplify_eq|]).
    vm_compute. lia. }
  destruct (empty_dependencies_value Examples.empty_at_end _ _ None
              Hfirst eq_refl) as [Hdeps Hsort].
  assert (plain_names [f]) as Hp
    by (apply ResolverFacts.not_elem_of_by_decide; vm_compute;
        reflexivity).
  split; [done|]. apply (Hsort [f] f).
  - by left.
  - done.
  - apply ResolverFacts.NoDup_by_decide. vm_compute. reflexivity.
  - done.
  - apply ResolverFacts.plain_dependencies_by_decide. vm_compute.
    reflexivity.
  - apply ResolverFacts.not_elem_of_by_decide. vm_compute. reflexivity.
  - intros [n Hn]. apply ResolverFacts.tc_edge_declares in Hn;
      [|done|apply ResolverFacts.NoDup_by_decide; vm_compute; reflexivity].
    pose proof (ResolverFacts.sortSchemasByDependencies_spec [f] Hp)
      as Hs.
    vm_compute sortSchemasByDependencies in Hs.
    destruct Hs as [Ha _]. by apply (Ha n).
Defined.

End MetadataFacts.

(** ** The load returns *)

Module LoaderFacts.

Import Loader.

(** The last component of a path that ends in text without a separator
    ends in that text. *)
Lemma split_on_plain (sep : ascii) (t : string) :
  includes sep t = false -> split_on sep t = [t].
Proof.
  induction t as [|c t IH]; [done|]. cbn [includes split_on].
  destruct (decide (c = sep)); [done|]. intros H. by rewrite IH.
Qed.

Lemma split_on_app_plain (sep : ascii) (s t : string) :
  includes sep t = false ->
  exists l h, split_on sep (s +:+ t) = l ++ [h +:+ t].
Proof.
  intros Ht. induction s as [|c s (l & h & IH)].
  - exists [], "". by rewrite StringFacts.sapp_nil_l, split_on_plain.
  - rewrite StringFacts.sapp_cons. cbn [split_on]. rewrite IH.
    destruct (decide (c = sep)).
    + exists ("" :: l), h. done.
    + destruct l as [|a l]; cbn [app].
      * exists [], (String c h). by rewrite StringFacts.sapp_cons.
      * exists (String c a :: l), h. done.
Qed.

Lemma basename_app_plain (s t : string) :
  t <> "" -> includes "/"%char t = false ->
  exists h, basename (s +:+ t) = h +:+ t.
Proof.
  intros Hne Ht. destruct (split_on_app_plain "/" s t Ht) as (l & h & Hl).
  exists h. unfold basename. rewrite Hl, filter_app.
  rewrite filter_cons_True, filter_nil.
  - by rewrite last_snoc.
  - intros Heq. apply (f_equal String.length) in Heq.
    rewrite StringFacts.length_sapp in Heq. destruct t; [done|].
    cbn in Heq. lia.
Qed.

Lemma basename_match (g : globMatch) :
  basename (match_path g) <> "__proto__".
Proof.
  unfold match_path.
  destruct (basename_app_plain (stem g) (extension_text (ext g)))
    as [h ->]; [by destruct (ext g)..|].
  intros Heq. pose proof (f_equal String.length Heq) as Hlen.
  rewrite StringFacts.length_sapp in Hlen.
  destruct (ext g); destruct h as [|a [|b [|d [|e h]]]]; cbn in Hlen;
    try lia;
    rewrite ?StringFacts.sapp_cons, ?StringFacts.sapp_nil_l in Heq;
    cbn [extension_text] in Heq; congruence.
Qed.

Section Run.
Variable c : client.
Variable config : Config.

Lemma effective_batch_size_pos : 0 < effective_batch_size config.
Proof. unfold effective_batch_size. destruct (batchSize config); lia. Qed.

Lemma process_schema_total (schema : schemaFile) (st : runState) :
  is_Some (process_schema c config schema st).
Proof.
  unfold process_schema. destruct (dryRun config); [done|].
  destruct (useTransactions config && _).
  - destruct (Transactions.executeInTransaction _ _ _) as [r tr].
    by destruct (Transactions.success r).
  - apply ExecutionFacts.batch_loop_total;
      [apply effective_batch_size_pos|lia].
Qed.

Lemma process_all_total (schemas : list schemaFile) (st : runState) :
  is_Some (process_all c config schemas st).
Proof.
  revert st. induction schemas as [|schema rest IH]; intros st; [done|].
  cbn [process_all].
  destruct (process_schema_total schema st) as [st' ->]. apply IH.
Qed.

(** Without a file named [__proto__], the result of the ordering has
    no [undefined] entry. *)
Lemma sorted_defined (files : list schemaFile)
    (sorted : list (option schemaFile)) :
  ResolverSpec.plain_names files ->
  sortSchemasByDependencies files = Ok sorted ->
  is_Some (defined_schemas sorted).
Proof.
  intros Hp Hs.
  pose proof (ResolverFacts.sortSchemasByDependencies_spec files Hp)
    as H.
  rewrite Hs in H. destruct H as (_ & _ & _ & Hdef).
  unfold defined_schemas. clear Hs.
  induction sorted as [|o sorted IH]; [done|].
  apply Forall_cons in Hdef as [[f ->] Hdef].
  destruct (IH Hdef) as [l Hl]. cbn. rewrite Hl. done.
Qed.

(** No path the glob returns has the base name [__proto__]. *)
Lemma globbed_plain (fs : fileSystem)
    (vars : option (gmap string string)) :
  ResolverSpec.plain_names (parse_files vars (globbed fs)).
Proof.
  unfold ResolverSpec.plain_names, ResolverSpec.base_names, globbed.
  induction (matches fs) as [|[g [text|]] l IH]; cbn [map parse_files];
    [apply not_elem_of_nil| |done].
  cbn [path]. apply not_elem_of_cons. split; [|done].
  cbn [fst]. intros Heq. by apply (basename_match g).
Qed.

(** The fuel of the model never runs out: every load returns a
    result. *)
Lemma loadSchemas_total (fs : fileSystem) :
  is_Some (loadSchemas c config fs).
Proof.
  unfold loadSchemas. destruct (negb (dirExists fs)); [done|].
  destruct (globbed fs) as [|g gs]; [done|].
  pose proof (ResolverFacts.sortSchemasByDependencies_total
                (parse_files (variables config) (g :: gs))) as Hs.
  destruct (sortSchemasByDependencies _) as [sorted|e|]; [|done..].
  destruct (defined_schemas sorted) as [l|]; [|done].
  by destruct (process_all_total l
                 {| trace := []; executed := 0; errs := 0 |}) as [st ->].
Qed.

End Run.

End LoaderFacts.

(** * Further properties *)

(** ** The key prefix rewriter, family by family *)

Module PrefixMore.

Section Prefix.
Variable prefix : string.

(** A token is kept or gets the prefix. *)
Local Abbreviation kept_or_prefixed :=
  (fun a b : string => b = a \/ b = prefix +:+ a).

Lemma Forall2_kept (l : list string) : Forall2 kept_or_prefixed l l.
Proof. induction l; constructor; auto. Qed.

Lemma prefix_even_shape (args : list string) :
  Forall2 kept_or_prefixed args (prefix_even prefix args).
Proof.
  assert (forall l,
            Forall2 kept_or_prefixed l (prefix_even prefix l)
            /\ forall x,
                 Forall2 kept_or_prefixed (x :: l)
                   (prefix_even prefix (x :: l))) as H.
  { induction l as [|y l [IH1 IH2]].
    - split; [constructor|]. intros x. cbn.
      constructor; [by right|constructor].
    - split; [apply IH2|]. intros x. cbn [prefix_even].
      constructor; [by right|]. constructor; [by left|]. apply IH1. }
  apply H.
Qed.

Lemma scan_match_shape (args : list string) :
  Forall2 kept_or_prefixed args (scan_match prefix args).
Proof.
  induction args as [|a [|b rest] IH]; cbn [scan_match];
    [constructor|apply Forall2_kept|].
  destruct (decide (toUpperCase a = "MATCH")).
  - constructor; [by left|]. constructor; [|apply Forall2_kept].
    destruct (has_glob b); auto.
  - constructor; [by left|]. apply IH.
Qed.

Lemma prefix_first_shape (n : nat) (keys : list string) :
  Forall2 kept_or_prefixed keys (prefix_first prefix n keys).
Proof.
  revert keys. induction n as [|n IH]; intros [|k keys];
    cbn [prefix_first]; try apply Forall2_kept.
  constructor; [by right|]. apply IH.
Qed.

Lemma rewrite_args_shape (cmd : string) (args : list string) :
  Forall2 kept_or_prefixed args (rewrite_args prefix cmd args).
Proof.
  unfold rewrite_args. repeat case_bool_decide.
  - apply prefix_even_shape.
  - unfold prefix_all. induction args; constructor; auto.
  - destruct args as [|a [|b rest]]; cbn; try apply Forall2_kept.
    constructor; [by right|]. constructor; [by right|].
    apply Forall2_kept.
  - destruct args as [|a rest]; cbn; [constructor|].
    constructor; [by left|]. apply scan_match_shape.
  - destruct args as [|a [|b rest]]; cbn [prefix_eval];
      try apply Forall2_kept.
    destruct (parseInt b) as [k|]; [|apply Forall2_kept].
    destruct (0 <? k)%Z; [|apply Forall2_kept].
    constructor; [by left|]. constructor; [by left|].
    apply prefix_first_shape.
  - destruct args as [|a rest]; cbn; [constructor|].
    constructor; [by right|]. apply Forall2_kept.
  - apply Forall2_kept.
Qed.

(** X1.  Whatever the verb, [applyPrefixToCommand] never drops, adds or
    reorders a token: the result has the verb in upper case followed by
    as many arguments as the input, each of them either the input's
    argument or that argument with the prefix in front. *)
Theorem applyPrefix_keeps_shape (verb : string) (args : list string) :
  prefix <> "" ->
  exists args',
    applyPrefixToCommand (verb :: args) prefix = toUpperCase verb :: args'
    /\ length args' = length args
    /\ Forall2 kept_or_prefixed args args'.
Proof.
  intros Hp. unfold applyPrefixToCommand.
  destruct prefix as [|c p] eqn:E; [done|]. cbn [is_empty].
  rewrite <-E. eexists. split; [done|].
  pose proof (rewrite_args_shape (toUpperCase verb) args) as H.
  split; [|done]. symmetry. by eapply Forall2_length.
Qed.

(** X2.  For [MSET] and [MSETNX] (in any case) the arguments at even
    positions, the keys, get the prefix and the arguments at odd
    positions, the values, are kept; a trailing key without a value is
    prefixed as well. *)
Theorem applyPrefix_pairs (verb : string) (args : list string) :
  prefix <> "" ->
  toUpperCase verb ∈ ["MSET"; "MSETNX"] ->
  applyPrefixToCommand (verb :: args) prefix
  = toUpperCase verb
    :: imap (fun i a => if Nat.even i then prefix +:+ a else a) args.
Proof.
  intros Hp Hv. unfold applyPrefixToCommand.
  destruct prefix as [|c p] eqn:E; [done|]. cbn [is_empty].
  rewrite <-E. f_equal. unfold rewrite_args.
  rewrite bool_decide_eq_true_2 by done. clear.
  assert (forall l,
            prefix_even prefix l
            = imap (fun i a => if Nat.even i then prefix +:+ a else a) l
            /\ forall x,
                 prefix_even prefix (x :: l)
                 = imap (fun i a => if Nat.even i then prefix +:+ a
                                    else a) (x :: l)) as H.
  { induction l as [|y l [IH1 IH2]].
    - split; [done|]. by intros x.
    - split; [apply IH2|]. intros x. cbn [prefix_even imap].
      cbn [Nat.even]. do 2 f_equal. rewrite IH1.
      apply imap_ext. by intros i a _. }
  apply H.
Qed.

(** X3.  For [EVAL] and [EVALSHA] (in any case) with a script, a key
    count that [parseInt] reads as a positive number [n], and further
    tokens, exactly the first [n] further tokens (all of them if there
    are fewer) get the prefix; the script, the count and the tokens
    behind the keys are kept.  When the count is not a number or is not
    positive, no token gets a prefix. *)
Theorem applyPrefix_script_keys (verb script count : string)
    (rest : list string) :
  prefix <> "" ->
  toUpperCase verb ∈ ["EVAL"; "EVALSHA"] ->
  applyPrefixToCommand (verb :: script :: count :: rest) prefix
  = toUpperCase verb :: script :: count
    :: match parseInt count with
       | Some n =>
           map (String.app prefix) (take (Z.to_nat n) rest)
           ++ drop (Z.to_nat n) rest
       | None => rest
       end.
Proof.
  intros Hp Hv. unfold applyPrefixToCommand.
  destruct prefix as [|c p] eqn:E; [done|]. cbn [is_empty].
  rewrite <-E. f_equal.
  assert (rewrite_args prefix (toUpperCase verb) (script :: count :: rest)
          = prefix_eval prefix (script :: count :: rest)) as ->.
  { apply elem_of_cons in Hv as [->|Hv]; [reflexivity|].
    apply elem_of_cons in Hv as [->|Hv]; [reflexivity|].
    by apply not_elem_of_nil in Hv. }
  cbn [prefix_eval]. destruct (parseInt count) as [n|]; [|done].
  assert (forall k l,
            prefix_first prefix k l
            = map (String.app prefix) (take k l) ++ drop k l) as Hfirst.
  { induction k as [|k IH]; intros [|x l]; cbn; try done.
    by rewrite IH. }
  destruct (0 <? n)%Z eqn:Hn.
  - by rewrite Hfirst.
  - apply Z.ltb_ge in Hn. replace (Z.to_nat n) with 0 by lia. done.
Qed.

(** X4.  For a verb of the single-key list other than [RENAME] and
    [RENAMENX], only the first argument gets the prefix, also when the
    command takes several keys ([DEL], [EXISTS], [SDIFF], [SUNIONSTORE]
    and the like): the further arguments are kept. *)
Theorem applyPrefix_first_key_only (verb key : string)
    (rest : list string) :
  prefix <> "" ->
  toUpperCase verb ∈ firstArgKeyCommands ->
  toUpperCase verb ∉ ["RENAME"; "RENAMENX"] ->
  applyPrefixToCommand (verb :: key :: rest) prefix
  = toUpperCase verb :: (prefix +:+ key) :: rest.
Proof.
  intros Hp Hv Hne. unfold applyPrefixToCommand.
  destruct prefix as [|c p] eqn:E; [done|]. cbn [is_empty].
  rewrite <-E. f_equal. clear E Hp c p.
  set (cmd := toUpperCase verb) in *. clearbody cmd.
  unfold firstArgKeyCommands in Hv.
  repeat (apply elem_of_cons in Hv as [->|Hv];
          [first [reflexivity
                 |exfalso; apply Hne; by left
                 |exfalso; apply Hne; by right; left]|]).
  by apply not_elem_of_nil in Hv.
Qed.

(** X5.  For [SCAN] (in any case), when every token that follows a
    [MATCH] behind the cursor holds a glob character ([*], [?] or the
    opening bracket), no argument is changed: such a pattern is never
    given the prefix. *)
Theorem applyPrefix_scan_glob (verb cursor : string)
    (rest : list string) :
  prefix <> "" ->
  toUpperCase verb = "SCAN" ->
  (forall i m pat,
     rest !! i = Some m -> toUpperCase m = "MATCH" ->
     rest !! S i = Some pat -> has_glob pat = true) ->
  applyPrefixToCommand (verb :: cursor :: rest) prefix
  = "SCAN" :: cursor :: rest.
Proof.
  intros Hp Hv Hglob. unfold applyPrefixToCommand.
  destruct prefix as [|c p] eqn:E; [done|]. cbn [is_empty].
  rewrite <-E, Hv. f_equal.
  change (rewrite_args prefix "SCAN" (cursor :: rest))
    with (cursor :: scan_match prefix rest).
  f_equal. clear E Hp Hv.
  induction rest as [|a [|b tl] IH]; [done..|].
  cbn [scan_match]. destruct (decide (toUpperCase a = "MATCH")) as [Ha|].
  - by rewrite (Hglob 0 a b eq_refl Ha eq_refl).
  - f_equal. apply IH. intros i m pat Hm Hu Hpat.
    by apply (Hglob (S i) m pat).
Qed.

End Prefix.

Lemma applyPrefix_keeps_shape_witness :
  exists args',
    applyPrefixToCommand ["zadd"; "board"; "10"; "ann"] "app:"
    = toUpperCase "zadd" :: args'
    /\ length args' = 3
    /\ Forall2 (fun a b => b = a \/ b = "app:" +:+ a)
         ["board"; "10"; "ann"] args'.
Proof.
  apply (applyPrefix_keeps_shape "app:" "zadd" ["board"; "10"; "ann"]).
  done.
Defined.

Lemma applyPrefix_pairs_witness :
  applyPrefixToCommand ["mset"; "k1"; "v1"; "k2"; "v2"; "k3"] "p:"
  = ["MSET"; "p:k1"; "v1"; "p:k2"; "v2"; "p:k3"].
Proof.
  apply (applyPrefix_pairs "p:" "mset" ["k1"; "v1"; "k2"; "v2"; "k3"]);
    [done|by left].
Defined.

Lemma applyPrefix_script_keys_witness :
  applyPrefixToCommand ["EVALSHA"; "sha1"; "2"; "k1"; "k2"; "arg1"] "p:"
  = ["EVALSHA"; "sha1"; "2"; "p:k1"; "p:k2"; "arg1"].
Proof.
  apply (applyPrefix_script_keys "p:" "EVALSHA" "sha1" "2"
           ["k1"; "k2"; "arg1"]); [done|by right; left].
Defined.

Lemma applyPrefix_first_key_only_witness :
  applyPrefixToCommand ["del"; "a"; "b"; "c"] "p:"
  = ["DEL"; "p:a"; "b"; "c"].
Proof.
  apply (applyPrefix_first_key_only "p:" "del" "a" ["b"; "c"]); [done|..].
  - apply (bool_decide_eq_true_1 _). vm_compute. reflexivity.
  - apply (bool_decide_eq_false_1 _). vm_compute. reflexivity.
Defined.

Lemma applyPrefix_scan_glob_witness :
  applyPrefixToCommand ["scan"; "0"; "MATCH"; "user:*"; "COUNT"; "10"] "p:"
  = ["SCAN"; "0"; "MATCH"; "user:*"; "COUNT"; "10"].
Proof.
  apply (applyPrefix_scan_glob "p:" "scan" "0"
           ["MATCH"; "user:*"; "COUNT"; "10"]); [done|done|].
  intros [|[|[|[|i]]]] m pat Hm Hu Hpat; cbn in Hm, Hpat; simplify_eq;
    first [reflexivity|vm_compute in Hu; discriminate].
Defined.

End PrefixMore.

(** ** Transactions, the other outcomes *)

Module TransactionMore.

Import Transactions ExecutionSpec MoreSpec.

Lemma count_snoc (p : event -> bool) (l : list event) (e : event) :
  count p (l ++ [e]) = count p l + (if p e then 1 else 0).
Proof. rewrite ExecutionFacts.count_app. cbn. lia. Qed.

(** Queuing: the calls added are [sendCommand]s, none of them threw unless
    it is the last one. *)
Lemma queue_all_spec (c : client) (commands : list (list string))
    (tr : list event) :
  exists new,
    (queue_all c tr commands).1 = tr ++ new
    /\ count is_exec new = 0
    /\ match (queue_all c tr commands).2 with
       | None => count send_threw new = 0
       | Some m =>
           exists cmd, last new = Some (EvSend cmd (Some m))
                       /\ count send_threw new = 1
       end.
Proof.
  revert tr. induction commands as [|[|verb args] rest IH]; intros tr.
  - exists []. cbn. by rewrite app_nil_r.
  - cbn [queue_all]. apply IH.
  - cbn [queue_all]. destruct (on_send c tr _) as [m|] eqn:Hs.
    + eexists [_]. cbn. split; [done|]. split; [done|]. eauto.
    + destruct (IH (tr ++ [EvSend (toUpperCase verb :: args) None]))
        as (new & Ht & He & Hm).
      exists (EvSend (toUpperCase verb :: args) None :: new).
      rewrite Ht, <-(assoc_L (++)). split; [done|]. split; [done|].
      destruct ((queue_all c _ rest).2) as [m|]; [|done].
      destruct Hm as (cmd & Hlast & Hcount). exists cmd. split; [|done].
      destruct new; [done|]. done.
Qed.

(** X6.  When a [sendCommand] throws while the transaction is queued,
    that call is the last one made on the client: [exec] is never called,
    the commands behind the failing one are never queued, and the result
    is a failure whose message is the thrown message behind "Failed to
    add command to transaction: ". *)
Theorem queue_failure_ends_transaction (c : client) (tr : list event)
    (commands : list (list string)) (result : txResult)
    (new : list event) :
  executeInTransaction c tr commands = (result, tr ++ new) ->
  0 < count send_threw new ->
  count is_exec new = 0
  /\ exists cmd m,
       last new = Some (EvSend cmd (Some m))
       /\ result = failed ("Failed to add command to transaction: " +:+ m).
Proof.
  unfold executeInTransaction. destruct commands as [|c0 rest].
  { intros [= _ Heq]. rewrite <-(app_nil_r tr) in Heq at 1.
    apply app_inv_head in Heq as <-. cbn. lia. }
  destruct (queue_all_spec c (c0 :: rest) (tr ++ [EvMulti]))
    as (q & Ht & He & Hm).
  destruct (queue_all c (tr ++ [EvMulti]) (c0 :: rest)) as [tr2 [m|]];
    cbn [fst snd] in *; subst tr2.
  - intros [= <- Heq] _. rewrite <-(assoc_L (++)) in Heq.
    apply app_inv_head in Heq as <-. cbn [count is_exec]. split; [done|].
    destruct Hm as (cmd & Hlast & _). exists cmd, m. split; [|done].
    destruct q; [done|]. done.
  - destruct (on_exec c _) as [results|m] eqn:Hx.
    + intros Heq Hpos. exfalso.
      assert (new = EvMulti :: q ++ [EvExec (Resolved results)]) as ->.
      { repeat case_match; simplify_eq;
          match goal with H : _ ++ _ = tr ++ new |- _ =>
            rewrite <-!(assoc_L (++)) in H;
            by apply app_inv_head in H as <- end. }
      cbn in Hpos. rewrite count_snoc in Hpos. cbn in Hpos. lia.
    + intros [= <- Heq] Hpos. exfalso.
      rewrite <-!(assoc_L (++)) in Heq. apply app_inv_head in Heq as <-.
      cbn in Hpos. rewrite count_snoc in Hpos. cbn in Hpos. lia.
Qed.

Lemma collect_errors_nil (commands : list (list string)) (i : nat)
    (results : list reply) :
  collect_errors commands i results = Some [] <-> Forall is_value results.
Proof.
  revert i. induction results as [|[v|m] results IH]; intros i;
    cbn [collect_errors].
  - split; [constructor|done].
  - rewrite IH. split; [by constructor|]. by intros [_ ?]%Forall_cons.
  - split; [|by intros [[] _]%Forall_cons].
    repeat case_match; done.
Qed.

(** X7.  For a non-empty list of commands, [executeInTransaction] reports
    success exactly when [exec] was called, resolved, and none of the
    results it resolved to is an error; it then reports the number of
    commands it was handed, empty ones included, as executed. *)
Theorem transaction_success (c : client) (tr : list event)
    (commands : list (list string)) (result : txResult)
    (tr' : list event) :
  commands <> [] ->
  executeInTransaction c tr commands = (result, tr') ->
  (result.(success) = true <->
   exists results,
     last tr' = Some (EvExec (Resolved results))
     /\ Forall is_value results)
  /\ (result.(success) = true ->
      result.(commandsExecuted) = Some (length commands)).
Proof.
  intros Hne. unfold executeInTransaction.
  destruct commands as [|c0 rest]; [done|].
  destruct (queue_all_spec c (c0 :: rest) (tr ++ [EvMulti]))
    as (q & Ht & He & Hm).
  destruct (queue_all c (tr ++ [EvMulti]) (c0 :: rest)) as [tr2 [m|]];
    cbn [fst snd] in *; subst tr2.
  - intros [= <- <-]. cbn. split; [|done]. split; [done|].
    intros (results & Hlast & _). destruct Hm as (cmd & Hq & _).
    destruct q as [|e q] using rev_ind; [done|].
    rewrite (assoc_L (++)), last_snoc in Hlast.
    rewrite last_snoc in Hq. congruence.
  - destruct (on_exec c _) as [results|m] eqn:Hx.
    + pose proof (collect_errors_nil (c0 :: rest) 0 results) as Hnil.
      destruct (collect_errors (c0 :: rest) 0 results) as [[|e es]|];
        intros [= <- <-]; cbn [success commandsExecuted failed];
        rewrite last_snoc.
      * split; [|done]. split; [|done]. intros _. exists results.
        split; [done|]. by apply Hnil.
      * split; [|done]. split; [done|]. intros (r & [= <-] & Hall).
        by apply Hnil in Hall.
      * split; [|done]. split; [done|]. intros (r & [= <-] & Hall).
        by apply Hnil in Hall.
    + intros [= <- <-]. cbn. rewrite last_snoc. split; [|done].
      split; [done|]. by intros (r & [= ] & _).
Qed.

Lemma collect_errors_spec (commands : list (list string)) (i : nat)
    (results : list reply) (es : list txError) :
  collect_errors commands i results = Some es ->
  length es = length (filter (fun r => is_failure r = true) results)
  /\ Forall (fun e =>
               i <= e.(index)
               /\ results !! (e.(index) - i) = Some (Failure e.(error))
               /\ exists cmd, commands !! e.(index) = Some cmd
                              /\ e.(command) = join " " cmd) es.
Proof.
  revert i es. induction results as [|[v|m] results IH]; intros i es;
    cbn [collect_errors].
  - intros [= <-]. split; [done|constructor].
  - intros H. destruct (IH _ _ H) as [Hlen Hall].
    rewrite filter_cons_False by done. split; [done|].
    eapply Forall_impl; [exact Hall|]. cbn beta.
    intros e (Hi & Hr & Hc). split; [lia|]. split; [|done].
    replace (index e - i) with (S (index e - S i)) by lia. done.
  - destruct (commands !! i) as [cmd|] eqn:Hcmd; [|done].
    destruct (collect_errors commands (S i) results) as [es'|] eqn:Hes;
      [|done].
    intros [= <-]. destruct (IH _ _ Hes) as [Hlen Hall].
    rewrite filter_cons_True by done. cbn [length]. split; [lia|].
    constructor.
    + cbn. split; [lia|]. rewrite Nat.sub_diag. split; [done|]. eauto.
    + eapply Forall_impl; [exact Hall|]. cbn beta.
      intros e (Hi & Hr & Hc). split; [lia|]. split; [|done].
      replace (index e - i) with (S (index e - S i)) by lia. done.
Qed.

(** X8.  The error list of a transaction has one entry for each result
    that is an error, in the order of the results.  An entry's index is
    the position of the error among the results, its message is the
    error's, and its command text is the command at that same position
    of the list handed in, that is, counting the empty commands that were
    never submitted. *)
Theorem transaction_errors_by_position (c : client) (tr : list event)
    (commands : list (list string)) (result : txResult)
    (tr' : list event) (es : list txError) (results : list reply) :
  executeInTransaction c tr commands = (result, tr') ->
  result.(errors) = Some es ->
  last tr' = Some (EvExec (Resolved results)) ->
  length es = length (filter (fun r => is_failure r = true) results)
  /\ Forall (fun e =>
               results !! e.(index) = Some (Failure e.(error))
               /\ exists cmd, commands !! e.(index) = Some cmd
                              /\ e.(command) = join " " cmd) es.
Proof.
  unfold executeInTransaction. destruct commands as [|c0 rest];
    [by intros [= <- _]|].
  destruct (queue_all c (tr ++ [EvMulti]) (c0 :: rest)) as [tr2 [m|]];
    [by intros [= <- _]|].
  destruct (on_exec c tr2) as [rs|m] eqn:Hx; [|by intros [= <- _]].
  destruct (collect_errors (c0 :: rest) 0 rs) as [[|e es']|] eqn:Hes;
    intros [= <- <-]; cbn [errors failed]; try done.
  intros [= <-]. rewrite last_snoc. intros [= <-].
  destruct (collect_errors_spec _ _ _ _ Hes) as [Hlen Hall].
  split; [done|]. eapply Forall_impl; [exact Hall|]. cbn beta.
  intros x (_ & Hr & Hc). by rewrite Nat.sub_0_r in Hr.
Qed.

Lemma queue_failure_ends_transaction_witness :
  let c := {| on_send := fun _ cmd =>
                if bool_decide (head cmd = Some "BAD")
                then Some "ERR unknown command" else None;
              on_exec := fun _ => Resolved [] |} in
  let r := executeInTransaction c []
             [["set"; "a"; "1"]; ["bad"]; ["set"; "b"; "2"]] in
  count is_exec r.2 = 0
  /\ exists cmd m,
       last r.2 = Some (EvSend cmd (Some m))
       /\ r.1 = failed ("Failed to add command to transaction: " +:+ m).
Proof.
  intros c r.
  refine (queue_failure_ends_transaction c []
            [["set"; "a"; "1"]; ["bad"]; ["set"; "b"; "2"]] r.1 r.2 _ _).
  - reflexivity.
  - vm_compute. lia.
Defined.

Lemma transaction_success_witness :
  let c := {| on_send := fun _ _ => None;
              on_exec := fun _ => Resolved [Value "OK"; Value "1"] |} in
  let r := executeInTransaction c [] [["set"; "a"; "1"]; []; ["incr"; "a"]]
  in r.1.(success) = true /\ r.1.(commandsExecuted) = Some 3.
Proof.
  intros c r.
  destruct (transaction_success c []
              [["set"; "a"; "1"]; []; ["incr"; "a"]] r.1 r.2)
    as [Hiff Hcount]; [done|reflexivity|].
  assert (r.1.(success) = true) as Hs.
  { apply Hiff. exists [Value "OK"; Value "1"]. split; [reflexivity|].
    repeat constructor. }
  split; [exact Hs|exact (Hcount Hs)].
Defined.

Lemma transaction_errors_by_position_witness :
  let c := {| on_send := fun _ _ => None;
              on_exec := fun _ =>
                Resolved [Value "OK"; Failure "ERR not an integer"] |} in
  let r := executeInTransaction c [] [["set"; "a"; "x"]; []; ["incr"; "a"]]
  in Forall (fun e =>
               e.(index) = 1 /\ e.(command) = "")
       (default [] r.1.(errors)).
Proof.
  intros c r.
  destruct (transaction_errors_by_position c []
              [["set"; "a"; "x"]; []; ["incr"; "a"]] r.1 r.2
              (default [] r.1.(errors))
              [Value "OK"; Failure "ERR not an integer"])
    as [_ Hall]; [reflexivity|reflexivity|reflexivity|].
  eapply Forall_impl; [exact Hall|]. cbn beta.
  intros e (Hr & cmd & Hc & ->).
  destruct (index e) as [|[|i]]; cbn in Hr; simplify_eq.
  by cbn in Hc; simplify_eq.
Defined.

End TransactionMore.

(** ** Execution of a file, in full *)

Module ExecutionMore.

Import Loader ExecutionSpec MoreSpec.

Lemma sends_app (l k : list event) : sends (l ++ k) = sends l ++ sends k.
Proof. apply omap_app. Qed.

Lemma filter_nonempty_cons (command : list string)
    (l : list (list string)) :
  filter (fun x => nonempty x = true) (command :: l)
  = (if nonempty command then [command] else [])
    ++ filter (fun x => nonempty x = true) l.
Proof.
  destruct command; [by rewrite filter_cons_False|
                     by rewrite filter_cons_True].
Qed.

Section Run.
Variable c : client.
Variable config : Config.

Local Abbreviation to_send := (fun l : list (list string) =>
  map (prepared config) (filter (fun x => nonempty x = true) l)).

Lemma to_send_app (l k : list (list string)) :
  to_send (l ++ k) = to_send l ++ to_send k.
Proof. cbn beta. by rewrite filter_app, map_app. Qed.

Lemma accounted_trans (st1 st2 st3 : runState) (n1 n2 : list event) :
  accounted st1 st2 n1 -> accounted st2 st3 n2 ->
  accounted st1 st3 (n1 ++ n2).
Proof.
  intros [T1 E1] [T2 E2]. split.
  - by rewrite T2, T1, (assoc_L (++)).
  - rewrite !ExecutionFacts.count_app. lia.
Qed.

Lemma foldl_queue_sends (batch : list (list string)) (st : runState) :
  exists new,
    accounted st (foldl (queue_command c config) st batch) new
    /\ sends new = to_send batch
    /\ count is_exec new = 0
    /\ (foldl (queue_command c config) st batch).(executed)
       = st.(executed).
Proof.
  revert st. induction batch as [|command batch IH]; intros st.
  - exists []. cbn. unfold accounted. rewrite app_nil_r. cbn.
    repeat split; lia.
  - cbn [foldl].
    destruct (IH (queue_command c config st command))
      as (n2 & A2 & S2 & X2 & D2).
    destruct command as [|verb args].
    + exists n2. rewrite filter_nonempty_cons. done.
    + rewrite ExecutionFacts.queue_command_spec in A2, D2 |- * by done.
      cbn zeta in *.
      set (s := on_send c _ _) in *.
      exists (EvSend (prepared config (verb :: args)) s :: n2).
      split; [|split; [|split]].
      * change (?e :: n2) with ([e] ++ n2).
        eapply accounted_trans; [|exact A2]. split; [done|].
        destruct s; cbn; lia.
      * rewrite filter_nonempty_cons. cbn [nonempty app map].
        rewrite <-S2. reflexivity.
      * done.
      * done.
Qed.

(** One batch: the calls are [pipeline()], one [sendCommand] for each
    non-empty command, and one [exec]. *)
Lemma run_batch_sends (batch : list (list string)) (st : runState) :
  exists new,
    accounted st (run_batch c config batch st) new
    /\ sends new = to_send batch
    /\ count is_exec new = 1
    /\ (run_batch c config batch st).(executed)
       = st.(executed)
         + (if bool_decide (count exec_rejected new = 0)
            then length batch else 0).
Proof.
  unfold run_batch, queue_batch.
  destruct (foldl_queue_sends batch
              {| trace := st.(trace) ++ [EvPipeline];
                 executed := st.(executed); errs := st.(errs) |})
    as (q & [T E] & S & X & D).
  rewrite ExecutionFacts.exec_batch_spec. cbn zeta.
  set (queued := foldl _ _ _) in *. cbn [trace errs executed] in *.
  set (o := on_exec c _).
  exists (EvPipeline :: q ++ [EvExec o]).
  assert (count exec_rejected q = 0) as R.
  { clear -X. induction q as [|[| | |[]] q IH]; cbn in *; try done;
      lia. }
  split; [|split; [|split]].
  - split; cbn [trace errs].
    + rewrite T, <-!(assoc_L (++)). done.
    + cbn [count send_threw exec_rejected].
      rewrite !ExecutionFacts.count_app. cbn. rewrite E, R.
      destruct o; cbn; lia.
  - cbn. rewrite sends_app, S. cbn. by rewrite app_nil_r.
  - cbn. rewrite ExecutionFacts.count_app, X. done.
  - cbn [executed count exec_rejected].
    rewrite ExecutionFacts.count_app, R, D. cbn.
    destruct o; cbn; done.
Qed.

(** The loop over the batches of a file. *)
Lemma batch_loop_sends (fuel size : nat) (cmds : list (list string))
    (i : nat) (st st' : runState) :
  0 < size ->
  batch_loop c config fuel size cmds i st = Some st' ->
  exists new,
    accounted st st' new
    /\ sends new = to_send (drop i cmds)
    /\ length cmds - i <= count is_exec new * size
    /\ count is_exec new * size < length cmds - i + size
    /\ st'.(executed) <= st.(executed) + (length cmds - i)
    /\ st.(executed) + (length cmds - i)
       <= st'.(executed) + count exec_rejected new * size.
Proof.
  intros Hsize. revert i st.
  induction fuel as [|fuel IH]; intros i st.
  - cbn [batch_loop]. case_bool_decide as Hi; [done|].
    intros [= <-]. exists []. rewrite drop_ge by lia.
    unfold accounted. rewrite app_nil_r. cbn [count].
    split_and!; first [reflexivity|lia].
  - destruct (decide (i < length cmds)) as [Hi|Hi].
    + rewrite ExecutionFacts.batch_loop_step by done. intros Hloop.
      destruct (IH _ _ Hloop) as (n2 & A2 & S2 & L2 & U2 & B2 & R2).
      destruct (run_batch_sends (take size (drop i cmds)) st)
        as (n1 & A1 & S1 & X1 & D1).
      exists (n1 ++ n2).
      assert (length (take size (drop i cmds))
              = Nat.min size (length cmds - i)) as Hlen.
      { by rewrite length_take, length_drop. }
      rewrite D1, Hlen in B2, R2.
      split; [by eapply accounted_trans|].
      split.
      { rewrite sends_app, S1, S2, <-to_send_app.
        by rewrite <-drop_drop, take_drop. }
      rewrite !ExecutionFacts.count_app, X1.
      set (k2 := count is_exec n2) in *.
      set (r1 := count exec_rejected n1) in *.
      set (r2 := count exec_rejected n2) in *.
      rewrite !Nat.mul_add_distr_r, Nat.mul_1_l.
      assert (length cmds - (i + size) = 0 -> k2 * size = 0) as Hk.
      { intros H0. rewrite H0 in U2. destruct k2; [done|]. nia. }
      assert (r1 <> 0 -> size <= r1 * size) as Hr1 by nia.
      case_bool_decide as Hr; split_and!; lia.
    + rewrite ExecutionFacts.batch_loop_done by lia.
      intros [= <-]. exists []. rewrite drop_ge by lia.
      unfold accounted. rewrite app_nil_r. cbn [count].
      split_and!; first [reflexivity|lia].
Qed.

Lemma pipelined_file (schema : schemaFile) (st : runState) :
  config.(dryRun) = false ->
  config.(useTransactions) = false \/ schema.(commands) = [] ->
  process_schema c config schema st
  = batch_loop c config (length schema.(commands))
      (effective_batch_size config) schema.(commands) 0 st.
Proof.
  intros Hdry Hmode. unfold process_schema. rewrite Hdry.
  destruct Hmode as [->| ->]; [done|].
  by rewrite andb_false_r.
Qed.

(** X9.  Outside a dry run and outside transactions, each non-empty
    command of a file is handed to [sendCommand] exactly once, in the
    order of the file, with its prefix applied and its verb in upper
    case.  No failure changes that: neither a [sendCommand] that throws
    nor an [exec] that is rejected stops the loop or drops a later
    command. *)
Theorem pipelined_file_sends_every_command (schema : schemaFile)
    (st : runState) :
  config.(dryRun) = false ->
  config.(useTransactions) = false \/ schema.(commands) = [] ->
  exists st' new,
    process_schema c config schema st = Some st'
    /\ st'.(trace) = st.(trace) ++ new
    /\ sends new = to_send schema.(commands).
Proof.
  intros Hdry Hmode. rewrite pipelined_file by done.
  pose proof (LoaderFacts.effective_batch_size_pos config) as Hsize.
  destruct (ExecutionFacts.batch_loop_total c config
              (length schema.(commands)) (effective_batch_size config)
              schema.(commands) 0 st) as [st' Hloop]; [done|lia|].
  destruct (batch_loop_sends _ _ _ _ _ _ Hsize Hloop)
    as (new & [T _] & S & _).
  exists st', new. by rewrite drop_0 in S.
Qed.

(** X10.  The counters of a file run in batches of size [s] (the
    configured size, 100 when it is 0 or absent).  The number of [exec]
    calls is the least [b] with [n <= b * s], for [n] the number of
    commands of the file, empty ones included.  The error count grows
    by one for each [sendCommand] that threw and one for each [exec]
    that was rejected.  The executed count grows by [n] when no [exec]
    was rejected, and otherwise by at most [n] and at least [n] less
    [s] for each rejected [exec]: a command whose [sendCommand] threw
    is still counted as executed when its batch resolves. *)
Theorem pipelined_file_counters (schema : schemaFile) (st st' : runState) :
  config.(dryRun) = false ->
  config.(useTransactions) = false \/ schema.(commands) = [] ->
  process_schema c config schema st = Some st' ->
  let n := length schema.(commands) in
  let s := effective_batch_size config in
  exists new,
    st'.(trace) = st.(trace) ++ new
    /\ n <= count is_exec new * s < n + s
    /\ st'.(errs)
       = st.(errs) + count send_threw new + count exec_rejected new
    /\ st'.(executed) <= st.(executed) + n
    /\ st.(executed) + n
       <= st'.(executed) + count exec_rejected new * s.
Proof.
  intros Hdry Hmode. rewrite pipelined_file by done. intros Hloop n s.
  pose proof (LoaderFacts.effective_batch_size_pos config) as Hsize.
  destruct (batch_loop_sends _ _ _ _ _ _ Hsize Hloop)
    as (new & [T E] & _ & L & U & B & R).
  exists new. subst n s. rewrite Nat.sub_0_r in *. done.
Qed.

End Run.

Lemma pipelined_file_sends_every_command_witness :
  exists st' new,
    process_schema Examples.second_exec_throws Examples.pipelined_by_two
      Examples.five_commands MoreExamples.initial = Some st'
    /\ st'.(trace) = [] ++ new
    /\ sends new = Examples.five_commands.(commands).
Proof.
  apply (pipelined_file_sends_every_command Examples.second_exec_throws
           Examples.pipelined_by_two Examples.five_commands
           MoreExamples.initial); [reflexivity|by left].
Defined.

Lemma pipelined_file_counters_witness :
  let st' :=
    default MoreExamples.initial
      (process_schema Examples.second_exec_throws
         Examples.pipelined_by_two Examples.five_commands
         MoreExamples.initial) in
  exists new,
    st'.(trace) = [] ++ new
    /\ 5 <= count is_exec new * 2 < 5 + 2
    /\ st'.(errs) = 0 + count send_threw new + count exec_rejected new
    /\ st'.(executed) <= 0 + 5
    /\ 0 + 5 <= st'.(executed) + count exec_rejected new * 2.
Proof.
  intros st'.
  apply (pipelined_file_counters Examples.second_exec_throws
           Examples.pipelined_by_two Examples.five_commands
           MoreExamples.initial st');
    [reflexivity|by left|by vm_compute].
Defined.

End ExecutionMore.

(** ** The order of a successful resolution *)

Module ResolverMore.

Import Loader ResolverSpec MoreSpec.

Lemma ordered_snoc (files : list schemaFile) (ns : list string)
    (n : string) :
  ordered files ns -> (forall d, edge files n d -> d ∈ ns) ->
  ordered files (ns ++ [n]).
Proof.
  intros Hord Hdeps i m d Hi Hd.
  destruct (decide (i < length ns)) as [Hlt|Hge].
  - rewrite lookup_app_l in Hi by done.
    destruct (Hord i m d Hi Hd) as (j & Hj & Hlook).
    exists j. split; [done|]. rewrite lookup_app_l by lia. done.
  - assert (m = n) as ->.
    { rewrite lookup_app_r in Hi by lia.
      destruct (i - length ns) as [|k]; cbn in Hi; by simplify_eq. }
    destruct (proj1 (list_elem_of_lookup ns d) (Hdeps d Hd))
      as [j Hlook].
    pose proof (lookup_lt_Some _ _ _ Hlook).
    exists j. split; [lia|]. by rewrite lookup_app_l.
Qed.

Lemma find_schema_first (files : list schemaFile) (n : string)
    (f : schemaFile) :
  find_schema files n = Some f ->
  basename f.(path) = n /\ first_of_its_name files f.
Proof.
  unfold find_schema. induction files as [|a files IH]; [done|].
  cbn [List.find]. case_bool_decide as Ha.
  - intros [= <-]. split; [done|]. exists [], files. split; [done|].
    apply not_elem_of_nil.
  - intros Hf. destruct (IH Hf) as [Hn (before & after & -> & Hfirst)].
    split; [done|]. exists (a :: before), after. split; [done|].
    cbn. rewrite not_elem_of_cons. split; [congruence|done].
Qed.

Lemma find_schema_unique (files : list schemaFile) (f : schemaFile) :
  NoDup (base_names files) -> f ∈ files ->
  find_schema files (basename f.(path)) = Some f.
Proof.
  unfold find_schema, base_names.
  induction files as [|a files IH]; [by intros _ ?%not_elem_of_nil|].
  cbn [map List.find]. intros [Ha Hnd]%NoDup_cons [->|Hf]%elem_of_cons.
  - by rewrite bool_decide_eq_true_2.
  - rewrite bool_decide_eq_false_2; [by apply IH|].
    intros Heq. apply Ha. rewrite Heq.
    change (map ?g ?l) with (g <$> l). apply list_elem_of_fmap.
    by exists f.
Qed.

Section Files.
Variable files : list schemaFile.
Hypothesis plain : plain_names files.
Hypothesis acyclic : forall n, ~ tc (edge files) n n.

Local Abbreviation K := (key_set files).

Lemma finished_refl (ns : list string) (st : sortState) :
  finished files ns st -> extends files ns st st [].
Proof.
  intros H. split; [by rewrite app_nil_r|]. split.
  - cbn. by rewrite (right_id_L ∅ (∪)).
  - by intros a ?%not_elem_of_nil.
Qed.

Lemma extends_trans (ns a1 a2 : list string) (st st1 st2 : sortState) :
  extends files ns st st1 a1 -> extends files (ns ++ a1) st1 st2 a2 ->
  extends files ns st st2 (a1 ++ a2).
Proof.
  intros (F1 & V1 & N1) (F2 & V2 & N2). split; [|split].
  - by rewrite (assoc_L (++)).
  - rewrite V2, V1, list_to_set_app_L. by rewrite (assoc_L (∪)).
  - intros a [Ha|Ha]%elem_of_app; [by apply N1|].
    intros Hin. apply (N2 a Ha). rewrite V1.
    apply elem_of_union. by left.
Qed.

(** The loop over the dependencies of [n], while [n] is in progress:
    every name marked but not done leads to [n]. *)
Lemma visit_deps_order
    (visit : string -> sortState -> outcome sortError sortState)
    (n : string) :
  (forall d st ns st',
     d ∈ K -> iterable_from files d ->
     finished files ns st -> (d ∈ st.1 -> d ∈ ns) ->
     (forall s, s ∈ st.1 -> s ∉ ns -> rtc (edge files) s d) ->
     visit d st = Ok st' ->
     exists added, extends files ns st st' added /\ d ∈ ns ++ added) ->
  iterable_from files n ->
  forall deps st ns st',
    (forall d, d ∈ deps -> edge files n d) ->
    finished files ns st -> n ∈ st.1 -> n ∉ ns ->
    (forall s, s ∈ st.1 -> s ∉ ns -> rtc (edge files) s n) ->
    visit_deps files visit n deps st = Ok st' ->
    exists added,
      extends files ns st st' added
      /\ forall d, d ∈ deps -> d ∈ ns ++ added.
Proof.
  intros Hvisit Hit deps.
  induction deps as [|dep deps IH];
    intros st ns st' Hdeps Hfin Hn Hnew Hstack; cbn [visit_deps].
  - intros [= <-]. exists []. split; [by apply finished_refl|].
    by intros d ?%not_elem_of_nil.
  - destruct (not_found files dep) eqn:Hnf; [done|].
    assert (edge files n dep) as Hedge by (apply Hdeps; by left).
    destruct (visit dep st) as [st1|e|] eqn:Hv; cbn; [|done..].
    intros Hrest.
    pose proof (ResolverFacts.iterable_from_edge files _ _ Hit Hedge)
      as Hitd.
    destruct (Hvisit dep st ns st1) as (a1 & Hext1 & Hdep1);
      [apply (ResolverFacts.found_key files plain); [done|];
       by apply Hitd
      |done|done| | |done|].
    { intros Hin. destruct (decide (dep ∈ ns)) as [|Hout]; [done|].
      exfalso. apply (acyclic dep).
      eapply tc_rtc_l; [by apply Hstack|by apply tc_once]. }
    { intros s Hs Hout. eapply rtc_r; [by apply Hstack|done]. }
    pose proof Hext1 as (Hfin1 & HV1 & Hfresh1).
    destruct (IH st1 (ns ++ a1) st') as (a2 & Hext2 & Hdeps2).
    + intros d Hd. apply Hdeps. by right.
    + done.
    + rewrite HV1. apply elem_of_union. by left.
    + intros [Hin|Hin]%elem_of_app; [done|]. by apply (Hfresh1 n).
    + intros s Hs Hout. apply Hstack.
      * rewrite HV1 in Hs. apply elem_of_union in Hs as [Hs|Hs];
          [done|]. apply elem_of_list_to_set in Hs.
        exfalso. apply Hout, elem_of_app. by right.
      * intros Hin. apply Hout, elem_of_app. by left.
    + done.
    + exists (a1 ++ a2). split; [by eapply extends_trans|].
      rewrite (assoc_L (++)).
      intros d [->|Hd]%elem_of_cons; [|by apply Hdeps2].
      apply elem_of_app. by left.
Qed.

Lemma visit_order (fuel : nat) :
  forall n st ns st',
    n ∈ K -> iterable_from files n ->
    finished files ns st -> (n ∈ st.1 -> n ∈ ns) ->
    (forall s, s ∈ st.1 -> s ∉ ns -> rtc (edge files) s n) ->
    visit files fuel n st = Ok st' ->
    exists added, extends files ns st st' added /\ n ∈ ns ++ added.
Proof.
  induction fuel as [|fuel IH];
    intros n st ns st' Hn Hit Hfin Hdone Hstack; [done|].
  cbn [visit]. destruct (decide (n ∈ st.1)) as [Hin|Hin].
  { intros [= <-]. exists []. split; [by apply finished_refl|].
    rewrite app_nil_r. by apply Hdone. }
  assert (n ∉ ns) as Hnew.
  { intros Hns. apply Hin. by apply Hfin. }
  destruct (deps_of files n) as [deps|] eqn:Hdeps_of; [|done].
  destruct (visit_deps files (visit files fuel) n deps
              ({[n]} ∪ st.1, st.2)) as [st1|e|] eqn:Hloop; cbn;
    [|done..].
  intros [= <-].
  destruct (visit_deps_order (visit files fuel) n IH Hit
              deps ({[n]} ∪ st.1, st.2) ns st1)
    as (added & (Hfin1 & HV1 & Hfresh1) & Hdeps);
    [by intros d Hd; exists deps| | |done| |done|].
  { destruct Hfin as (HR & Hnd & Hord & Hall).
    split; [done|]. split; [done|]. split; [done|].
    intros m Hm. destruct (Hall m Hm) as [HmV HmK].
    split; [|done]. cbn. apply elem_of_union. by right. }
  { cbn. apply elem_of_union. left. by apply elem_of_singleton. }
  { cbn. intros s [->%elem_of_singleton|Hs]%elem_of_union Hout;
      [done|by apply Hstack]. }
  cbn [fst snd] in HV1, Hfresh1.
  assert (n ∉ added) as Hfresh.
  { intros Ha. apply (Hfresh1 n Ha), elem_of_union. left.
    by apply elem_of_singleton. }
  destruct Hfin1 as (HR1 & Hnd1 & Hord1 & Hall1).
  exists (added ++ [n]). unfold extends, finished.
  rewrite !(assoc_L (++) ns added [n]).
  split; [|apply elem_of_app; right; by apply list_elem_of_singleton].
  split; [|split].
  - split; [|split; [|split]]; cbn [fst snd].
    + rewrite HR1. symmetry. apply map_app.
    + apply NoDup_app. split; [done|]. split; [|apply NoDup_singleton].
      intros x Hx ->%list_elem_of_singleton.
      apply elem_of_app in Hx as [?|?]; done.
    + apply ordered_snoc; [done|].
      intros d (deps' & Hd' & Hd). apply Hdeps. congruence.
    + intros m [Hm| ->%list_elem_of_singleton]%elem_of_app.
      * by apply Hall1.
      * split; [|done]. rewrite HV1. apply elem_of_union. left.
        apply elem_of_union. left. by apply elem_of_singleton.
  - cbn [fst]. rewrite HV1, list_to_set_app_L. cbn.
    rewrite (right_id_L ∅ (∪)).
    rewrite <-(assoc_L (∪)), (comm_L (∪) {[n]}), !(assoc_L (∪)).
    by rewrite (comm_L (∪) _ {[n]}), !(assoc_L (∪)).
  - intros a [Ha| ->%list_elem_of_singleton]%elem_of_app; [|done].
    intros Hst. apply (Hfresh1 a Ha), elem_of_union. by right.
Qed.

(** The loop over all names: nothing is in progress between two
    visits. *)
Lemma visit_all_order (fuel : nat) (names : list string) :
  forall st ns st',
    (forall n, n ∈ names -> n ∈ K /\ iterable_from files n) ->
    finished files ns st -> (forall s, s ∈ st.1 -> s ∈ ns) ->
    visit_all files fuel names st = Ok st' ->
    exists added,
      extends files ns st st' added
      /\ forall n, n ∈ names -> n ∈ ns ++ added.
Proof.
  induction names as [|name rest IH];
    intros st ns st' Hnames Hfin Hidle; cbn [visit_all].
  - intros [= <-]. exists []. split; [by apply finished_refl|].
    by intros n ?%not_elem_of_nil.
  - destruct (visit files fuel name st) as [st1|e|] eqn:Hv; cbn;
      [|done..].
    intros Hrest.
    destruct (Hnames name ltac:(by left)) as [Hk Hit].
    destruct (visit_order fuel name st ns st1)
      as (a1 & Hext1 & Hname); [done|done|done| | |done|].
    { apply Hidle. }
    { intros s Hs Hout. by destruct (Hout (Hidle s Hs)). }
    pose proof Hext1 as (Hfin1 & HV1 & Hfresh1).
    destruct (IH st1 (ns ++ a1) st') as (a2 & Hext2 & Hall2).
    + intros n Hn. apply Hnames. by right.
    + done.
    + intros s. rewrite HV1, elem_of_union, elem_of_list_to_set,
        elem_of_app. intros [?|?]; [left; by apply Hidle|by right].
    + done.
    + exists (a1 ++ a2). split; [by eapply extends_trans|].
      rewrite (assoc_L (++)).
      intros n [->|Hn]%elem_of_cons; [|by apply Hall2].
      apply elem_of_app. by left.
Qed.

Lemma sort_finished (sorted : list (option schemaFile)) :
  (forall n, n ∈ K -> iterable_from files n) ->
  sortSchemasByDependencies files = Ok sorted ->
  exists ns,
    sorted = map (find_schema files) ns
    /\ NoDup ns /\ ordered files ns
    /\ forall n, n ∈ ns <-> n ∈ K.
Proof.
  intros Hiter. unfold sortSchemasByDependencies. cbv zeta.
  set (names := for_in_names files).
  destruct (check_all files _ names) as [[]|e|]; cbn; [|done..].
  destruct (visit_all files _ names (∅, [])) as [st|e|] eqn:Hv; cbn;
    [|done..].
  intros [= <-].
  assert (forall n, n ∈ names <-> n ∈ K) as Hnames.
  { intros n. unfold key_set. fold names.
    by rewrite elem_of_list_to_set. }
  destruct (visit_all_order (length names + 2) names (∅, []) [] st)
    as (ns & ((HR & Hnd & Hord & Hall) & _ & _) & Hin).
  - intros n Hn%Hnames. auto.
  - split; [done|]. split; [apply NoDup_nil_2|].
    split; [by intros i n d ?|]. by intros n ?%not_elem_of_nil.
  - by intros s ?%not_elem_of_empty.
  - done.
  - cbn [app] in *. exists ns. split; [done|]. split; [done|].
    split; [done|]. intros n. split; [by apply Hall|].
    intros Hn. by apply Hin, Hnames.
Qed.

End Files.

(** The result as a list of files, with the list of their names. *)
Lemma sort_names (files : list schemaFile)
    (sorted : list (option schemaFile)) :
  plain_names files ->
  sortSchemasByDependencies files = Ok sorted ->
  exists ns l,
    sorted = map Some l
    /\ Forall2 (fun n f => find_schema files n = Some f) ns l
    /\ NoDup ns /\ ordered files ns
    /\ forall n, n ∈ ns <-> n ∈ base_names files.
Proof.
  intros Hp Hs.
  pose proof (ResolverFacts.sortSchemasByDependencies_spec files Hp)
    as Hspec.
  rewrite Hs in Hspec. destruct Hspec as (Hacyclic & Hiter & _ & _).
  destruct (sort_finished files Hp Hacyclic sorted Hiter Hs)
    as (ns & -> & Hnd & Hord & Hin).
  assert (forall n, n ∈ ns -> is_Some (find_schema files n)) as Hfound.
  { intros n Hn. by apply ResolverFacts.find_schema_is_Some, Hin. }
  assert (exists l, map (find_schema files) ns = map Some l
                    /\ Forall2 (fun n f => find_schema files n = Some f)
                         ns l) as (l & Hl & Hall).
  { clear -Hfound. induction ns as [|n ns IH].
    - exists []. split; [done|constructor].
    - destruct IH as (l & Hl & Hall).
      { intros m Hm. apply Hfound. by right. }
      destruct (Hfound n) as [f Hf]; [by left|].
      exists (f :: l). cbn. rewrite Hf, Hl. split; [done|].
      by constructor. }
  exists ns, l. split; [done|]. split; [done|]. split; [done|].
  split; [done|]. intros n. rewrite Hin.
  by apply ResolverFacts.key_set_spec.
Qed.

Lemma found_names (files : list schemaFile) (ns : list string)
    (l : list schemaFile) :
  Forall2 (fun n f => find_schema files n = Some f) ns l ->
  base_names l = ns /\ Forall (first_of_its_name files) l.
Proof.
  induction 1 as [|n f ns l Hf _ [IHn IHl]]; [by split|].
  destruct (find_schema_first _ _ _ Hf) as [Hname Hfirst].
  split; [|by constructor].
  unfold base_names in *. cbn [map]. by rewrite Hname, IHn.
Qed.

Lemma first_elem_of (files : list schemaFile) (f : schemaFile) :
  first_of_its_name files f -> f ∈ files.
Proof.
  intros (before & after & -> & _). apply elem_of_app. right. by left.
Qed.

(** X11.  When no two files have the same base name, none has the
    base name [__proto__] and the resolver returns, its result holds
    every input file exactly once, and each file stands behind all the
    files it names as dependencies. *)
Theorem sorted_after_dependencies (files : list schemaFile)
    (sorted : list (option schemaFile)) :
  NoDup (base_names files) ->
  plain_names files ->
  sortSchemasByDependencies files = Ok sorted ->
  exists l,
    sorted = map Some l /\ l ≡ₚ files /\ after_dependencies l.
Proof.
  intros Hnd Hp Hs.
  destruct (sort_names files sorted Hp Hs)
    as (ns & l & -> & Hall & Hnd' & Hord & Hin).
  destruct (found_names _ _ _ Hall) as [Hnames Hfirst].
  exists l. split; [done|]. split.
  - apply NoDup_Permutation.
    + apply (NoDup_fmap_1 (fun f => basename (path f))).
      change (NoDup (base_names l)). by rewrite Hnames.
    + by apply (NoDup_fmap_1 (fun f => basename (path f))).
    + intros f. split.
      * intros Hf. eapply first_elem_of.
        by apply (proj1 (Forall_forall _ _) Hfirst).
      * intros Hf.
        assert (basename (path f) ∈ ns) as Hn.
        { apply Hin. unfold base_names.
          change (map ?g ?k) with (g <$> k). apply list_elem_of_fmap.
          by exists f. }
        apply list_elem_of_lookup in Hn as [i Hi].
        destruct (Forall2_lookup_l _ _ _ _ _ Hall Hi) as (g & Hg & Hfg).
        rewrite find_schema_unique in Hfg by done.
        injection Hfg as <-. by eapply list_elem_of_lookup_2.
  - intros i f d Hi Hd.
    destruct (Forall2_lookup_r _ _ _ _ _ Hall Hi) as (n & Hn & Hfn).
    destruct (find_schema_first _ _ _ Hfn) as [Hname Hff].
    assert (edge files n d) as Hedge.
    { apply ResolverFacts.edge_declares; [done..|].
      exists f. split; [by apply first_elem_of|done]. }
    destruct (Hord i n d Hn Hedge) as (j & Hj & Hjd).
    destruct (Forall2_lookup_l _ _ _ _ _ Hall Hjd) as (g & Hg & Hfg).
    exists j, g. split; [done|]. split; [done|].
    by destruct (find_schema_first _ _ _ Hfg).
Qed.

(** X12.  Whenever the resolver returns for files none of which has the
    base name [__proto__], its result holds one file for each base name
    of the input, and that file is the first of the input with that
    name: of several files with one base name, as in two subdirectories,
    all but the first are left out of the load. *)
Theorem sorted_first_of_each_name (files : list schemaFile)
    (sorted : list (option schemaFile)) :
  plain_names files ->
  sortSchemasByDependencies files = Ok sorted ->
  exists l,
    sorted = map Some l
    /\ NoDup (base_names l)
    /\ (forall n, n ∈ base_names l <-> n ∈ base_names files)
    /\ Forall (first_of_its_name files) l.
Proof.
  intros Hp Hs.
  destruct (sort_names files sorted Hp Hs)
    as (ns & l & -> & Hall & Hnd & Hord & Hin).
  destruct (found_names _ _ _ Hall) as [Hnames Hfirst].
  exists l. rewrite Hnames. done.
Qed.


Lemma sorted_after_dependencies_witness :
  exists l,
    [ Some (Examples.schema "a.redis" []);
      Some (Examples.schema "b.redis" ["a.redis"]) ] = map Some l
    /\ l ≡ₚ MoreExamples.dependent_first /\ after_dependencies l.
Proof.
  apply (sorted_after_dependencies MoreExamples.dependent_first).
  - apply ResolverFacts.NoDup_by_decide. by vm_compute.
  - apply ResolverFacts.not_elem_of_by_decide. by vm_compute.
  - by vm_compute.
Defined.

Lemma sorted_first_of_each_name_witness :
  exists l,
    [ Some (Examples.schema "x/a.redis" ["missing.redis"]) ] = map Some l
    /\ NoDup (base_names l)
    /\ (forall n, n ∈ base_names l
                  <-> n ∈ base_names Examples.same_base_name)
    /\ Forall (first_of_its_name Examples.same_base_name) l.
Proof.
  apply (sorted_first_of_each_name Examples.same_base_name).
  - apply ResolverFacts.not_elem_of_by_decide. by vm_compute.
  - by vm_compute.
Defined.


End ResolverMore.

(** ** A whole load *)

Module LoadMore.

Import Loader ExecutionSpec ResolverSpec MoreSpec StringMode.

Lemma sends_snoc_exec (l : list event) (o : execOutcome) :
  sends (l ++ [EvExec o]) = sends l.
Proof. rewrite ExecutionMore.sends_app. cbn. apply app_nil_r. Qed.

Lemma queue_all_sends (c : client) (commands : list (list string))
    (tr : list event) :
  exists new,
    (Transactions.queue_all c tr commands).1 = tr ++ new
    /\ sends new `prefix_of`
         map sent (filter (fun x => nonempty x = true) commands)
    /\ count is_exec new = 0
    /\ match (Transactions.queue_all c tr commands).2 with
       | None =>
           sends new
           = map sent (filter (fun x => nonempty x = true) commands)
           /\ count send_threw new = 0
       | Some _ => count send_threw new = 1
       end.
Proof.
  revert tr. induction commands as [|[|verb args] rest IH]; intros tr.
  - exists []. cbn. by rewrite app_nil_r.
  - cbn [Transactions.queue_all]. rewrite filter_cons_False by done.
    apply IH.
  - cbn [Transactions.queue_all]. rewrite filter_cons_True by done.
    cbn [map sent].
    destruct (on_send c tr _) as [m|] eqn:Hs.
    + eexists [_]. cbn. split; [done|]. split; [|done].
      by eexists.
    + destruct (IH (tr ++ [EvSend (toUpperCase verb :: args) None]))
        as (new & Ht & Hp & He & Hm).
      exists (EvSend (toUpperCase verb :: args) None :: new).
      rewrite Ht, <-(assoc_L (++)). split; [done|].
      split; [|split; [done|]].
      * cbn. by apply prefix_cons.
      * destruct ((Transactions.queue_all c _ rest).2); [done|].
        destruct Hm as [Hsent Hm]. split; [|done].
        change (sends (EvSend ?x ?y :: new)) with (x :: sends new).
        by rewrite Hsent.
Qed.

Section Run.
Variable c : client.
Variable config : Config.

Local Abbreviation to_send := (fun l : list (list string) =>
  map (prepared config) (filter (fun x => nonempty x = true) l)).

Lemma nonempty_with_prefix (command : list string) :
  nonempty (with_prefix config command) = nonempty command.
Proof.
  destruct command as [|verb args]; [|
    by destruct (ExecutionFacts.with_prefix_cons config verb args)
      as (v & a & ->)].
  unfold with_prefix, applyPrefixToCommand.
  by destruct (is_empty _).
Qed.

Lemma sent_processed (l : list (list string)) :
  map sent (filter (fun x => nonempty x = true)
              (map (with_prefix config) l))
  = to_send l.
Proof.
  induction l as [|command l IH]; [done|]. cbn [map].
  rewrite !ExecutionMore.filter_nonempty_cons, nonempty_with_prefix.
  rewrite !map_app, IH. by destruct (nonempty command).
Qed.

(** X14.  A file run in a transaction counts all or nothing: either
    every command of the file is counted as executed and no error is
    counted, or none is counted and exactly one error is.  The commands
    sent are the file's non-empty commands in order, prepared as in
    the pipelined mode, up to the first [sendCommand] that throws;
    [exec] is called at most once. *)
Theorem transactional_file_all_or_nothing (schema : schemaFile)
    (st : runState) :
  config.(dryRun) = false -> config.(useTransactions) = true ->
  schema.(commands) <> [] ->
  exists st' new,
    process_schema c config schema st = Some st'
    /\ st'.(trace) = st.(trace) ++ new
    /\ sends new `prefix_of` to_send schema.(commands)
    /\ (count send_threw new = 0 ->
        sends new = to_send schema.(commands))
    /\ count is_exec new <= 1
    /\ ((st'.(executed) = st.(executed) + length schema.(commands)
         /\ st'.(errs) = st.(errs))
        \/ (st'.(executed) = st.(executed)
            /\ st'.(errs) = S st.(errs))).
Proof.
  intros Hdry Htx Hne. unfold process_schema. rewrite Hdry, Htx.
  rewrite bool_decide_eq_true_2
    by (destruct (commands schema); [done|cbn; lia]).
  cbn [andb].
  assert (exists new,
            (Transactions.executeInTransaction c st.(trace)
               (map (with_prefix config) schema.(commands))).2
            = st.(trace) ++ new
            /\ sends new `prefix_of` to_send schema.(commands)
            /\ (count send_threw new = 0 ->
                sends new = to_send schema.(commands))
            /\ count is_exec new <= 1) as (new & Htr & Hp & Hall & Hx).
  { unfold Transactions.executeInTransaction.
    destruct (map (with_prefix config) (commands schema))
      as [|c0 rest] eqn:Hmap.
    { by destruct (commands schema). }
    rewrite <-Hmap.
    destruct (queue_all_sends c
                (map (with_prefix config) (commands schema))
                (st.(trace) ++ [EvMulti])) as (q & Ht & Hq & He & Hm).
    rewrite sent_processed in Hq, Hm.
    destruct (Transactions.queue_all _ _ _) as [tr2 [m|]];
      cbn [fst snd] in *; subst tr2.
    - exists (EvMulti :: q). cbn [snd]. rewrite <-(assoc_L (++)).
      split; [done|]. split; [done|]. cbn [count send_threw is_exec].
      split; [lia|lia].
    - destruct Hm as [Hs Hn].
      set (o := on_exec c _).
      exists (EvMulti :: q ++ [EvExec o]).
      assert (sends (EvMulti :: q ++ [EvExec o]) = sends q) as Hsq.
      { change (sends (EvMulti :: ?l)) with (sends l).
        apply sends_snoc_exec. }
      rewrite Hsq, Hs.
      split.
      { rewrite <-!(assoc_L (++)). by repeat case_match. }
      split; [done|]. split; [done|].
      cbn [count is_exec]. rewrite ExecutionFacts.count_app, He.
      cbn. lia. }
  destruct (Transactions.executeInTransaction _ _ _) as [result tr].
  cbn [snd] in Htr. subst tr.
  destruct (Transactions.success result); eexists _, new;
    (split; [done|]); cbn [trace executed errs];
    (split; [done|]); (split; [done|]); (split; [done|]);
    (split; [done|]); [left|right]; done.
Qed.

Lemma process_all_dry (schemas : list schemaFile) (st : runState) :
  config.(dryRun) = true ->
  process_all c config schemas st = Some st.
Proof.
  intros Hdry. induction schemas as [|schema rest IH]; [done|].
  cbn [process_all]. unfold process_schema. by rewrite Hdry.
Qed.

(** X15.  A dry run never calls the client, whatever the schemas hold,
    and counts no command as executed.  It still reads, parses and
    orders the files: it succeeds exactly when the directory exists
    and the ordering does not throw. *)
Theorem dry_run_never_calls_client (fs : fileSystem) :
  config.(dryRun) = true ->
  exists r,
    loadSchemas c config fs = Some (r, [])
    /\ (r.(commandsExecuted) = None \/ r.(commandsExecuted) = Some 0)
    /\ (r.(success) = true
        <-> fs.(dirExists) = true
            /\ forall e,
                 sortSchemasByDependencies
                   (parse_files config.(variables) (globbed fs))
                 <> Throw e).
Proof.
  intros Hdry.
  pose proof (LoaderFacts.globbed_plain fs config.(variables))
    as Hplain.
  unfold loadSchemas.
  destruct (dirExists fs); cbn [negb].
  2:{ eexists. split; [done|]. cbn. split; [by left|].
      split; [done|]. by intros [? _]. }
  destruct (globbed fs) as [|g gs] eqn:Hg.
  { eexists. split; [done|]. cbn. split; [by right|].
    split; [|done]. intros _. split; [done|]. by intros e. }
  pose proof (ResolverFacts.sortSchemasByDependencies_total
                (parse_files (variables config) (g :: gs))) as Htotal.
  pose proof (LoaderFacts.sorted_defined
                (parse_files (variables config) (g :: gs))) as Hdef.
  destruct (sortSchemasByDependencies _) as [sorted|e|]; [| |done].
  - destruct (Hdef sorted Hplain eq_refl) as [l ->].
    rewrite process_all_dry by done. eexists. split; [done|].
    cbn. split; [by right|]. split; [|done]. intros _.
    split; [done|]. by intros e.
  - eexists. split; [done|]. cbn. split; [by left|].
    split; [done|]. intros [_ H]. by destruct (H e).
Qed.

Lemma process_all_sends (schemas : list schemaFile)
    (st st' : runState) :
  config.(dryRun) = false -> config.(useTransactions) = false ->
  process_all c config schemas st = Some st' ->
  exists new,
    accounted st st' new
    /\ sends new
       = concat (map (fun f => to_send f.(commands)) schemas).
Proof.
  intros Hdry Htx. revert st.
  induction schemas as [|schema rest IH]; intros st;
    cbn [process_all].
  - intros [= <-]. exists []. unfold accounted. rewrite app_nil_r.
    cbn. split; [split; [done|lia]|done].
  - rewrite ExecutionMore.pipelined_file by auto.
    destruct (batch_loop c config _ _ _ 0 st) as [st1|] eqn:Hloop;
      [|done].
    intros Hrest.
    destruct (ExecutionMore.batch_loop_sends c config _ _ _ _ _ _
                (LoaderFacts.effective_batch_size_pos config) Hloop)
      as (n1 & A1 & S1 & _).
    destruct (IH _ Hrest) as (n2 & A2 & S2).
    exists (n1 ++ n2).
    split; [by eapply ExecutionMore.accounted_trans|].
    rewrite ExecutionMore.sends_app, S1, S2, drop_0. done.
Qed.

(** X16.  Outside a dry run and outside transactions, a load of a
    directory whose files could be ordered sends the non-empty
    commands of the ordered files, file after file in the resolved
    order and in file order within each, and nothing else; it reports
    success exactly when no [sendCommand] threw and no [exec] was
    rejected, and its error count is the number of those failures. *)
Theorem pipelined_load_sends (fs : fileSystem)
    (sorted : list (option schemaFile)) :
  fs.(dirExists) = true ->
  config.(dryRun) = false -> config.(useTransactions) = false ->
  sortSchemasByDependencies
    (parse_files config.(variables) (globbed fs)) = Ok sorted ->
  exists l r tr,
    sorted = map Some l
    /\ loadSchemas c config fs = Some (r, tr)
    /\ sends tr = concat (map (fun f => to_send f.(commands)) l)
    /\ (r.(success) = true
        <-> count send_threw tr + count exec_rejected tr = 0)
    /\ (globbed fs <> [] ->
        r.(errorCount)
        = Some (count send_threw tr + count exec_rejected tr)).
Proof.
  intros Hdir Hdry Htx Hs.
  pose proof (LoaderFacts.globbed_plain fs config.(variables))
    as Hplain.
  unfold loadSchemas. rewrite Hdir. cbn [negb].
  destruct (LoaderFacts.sorted_defined _ _ Hplain Hs) as [l Hl].
  assert (sorted = map Some l) as Hsorted.
  { clear -Hl. unfold defined_schemas in Hl. revert l Hl.
    induction sorted as [|[f|] sorted IH]; intros l; cbn.
    - by intros [= <-].
    - destruct (mapM id sorted) as [k|] eqn:Hk; [|done].
      cbn. intros [= <-]. cbn. by rewrite <-(IH k).
    - done. }
  exists l.
  destruct (globbed fs) as [|g gs] eqn:Hg.
  { cbn in Hs. injection Hs as <-. destruct l; [|done].
    eexists _, []. split; [done|]. split; [done|]. by cbn. }
  rewrite Hs, Hl.
  destruct (LoaderFacts.process_all_total c config l
              {| trace := []; executed := 0; errs := 0 |})
    as [st Hrun].
  rewrite Hrun.
  destruct (process_all_sends _ _ _ Hdry Htx Hrun)
    as (new & [Ht He] & Hsends).
  cbn in Ht, He. rewrite <-Ht in Hsends, He.
  eexists _, _. split; [done|]. split; [done|]. split; [done|].
  cbn [success errorCount]. rewrite He. split; [|done].
  by rewrite bool_decide_eq_true.
Qed.

End Run.

Lemma transactional_file_all_or_nothing_witness :
  exists st' new,
    process_schema MoreExamples.rejects_bad MoreExamples.in_transactions
      (Examples.schema "k" []) MoreExamples.initial = Some st'
    /\ st'.(trace) = [] ++ new
    /\ sends new `prefix_of` [["SET"; "app:k"; "1"]]
    /\ (count send_threw new = 0 -> sends new = [["SET"; "app:k"; "1"]])
    /\ count is_exec new <= 1
    /\ ((st'.(executed) = 0 + 1 /\ st'.(errs) = 0)
        \/ (st'.(executed) = 0 /\ st'.(errs) = 1)).
Proof.
  apply (transactional_file_all_or_nothing MoreExamples.rejects_bad
           MoreExamples.in_transactions (Examples.schema "k" [])
           MoreExamples.initial); done.
Defined.

Lemma dry_run_never_calls_client_witness :
  exists r,
    loadSchemas MoreExamples.rejects_bad MoreExamples.dry_run
      MoreExamples.dependent_first_fs = Some (r, [])
    /\ (r.(commandsExecuted) = None \/ r.(commandsExecuted) = Some 0)
    /\ (r.(success) = true
        <-> true = true
            /\ forall e,
                 sortSchemasByDependencies
                   (parse_files None
                      (globbed MoreExamples.dependent_first_fs))
                 <> Throw e).
Proof.
  apply (dry_run_never_calls_client MoreExamples.rejects_bad
           MoreExamples.dry_run MoreExamples.dependent_first_fs).
  reflexivity.
Defined.

Lemma pipelined_load_sends_witness :
  exists l r tr,
    map Some
      (reverse (parse_files None
                  (globbed MoreExamples.dependent_first_fs)))
    = map Some l
    /\ loadSchemas Examples.always_ok Examples.pipelined_by_two
         MoreExamples.dependent_first_fs = Some (r, tr)
    /\ sends tr
       = concat
           (map (fun f =>
                   map (prepared Examples.pipelined_by_two)
                     (filter (fun x => nonempty x = true) f.(commands)))
              l)
    /\ (r.(success) = true
        <-> count send_threw tr + count exec_rejected tr = 0)
    /\ (globbed MoreExamples.dependent_first_fs <> [] ->
        r.(errorCount)
        = Some (count send_threw tr + count exec_rejected tr)).
Proof.
  apply (pipelined_load_sends Examples.always_ok
           Examples.pipelined_by_two MoreExamples.dependent_first_fs);
    [reflexivity|reflexivity|reflexivity|by vm_compute].
Defined.

End LoadMore.

(** ** Loading from a string *)

Module StringModeMore.

Import Loader ResolverSpec MoreSpec StringMode.

(** A single file without dependencies, whose base name is not
    [__proto__], is its own ordering. *)
Lemma sort_single (f : schemaFile) :
  basename f.(path) <> "__proto__" ->
  f.(metadata).(dependencies) = [] ->
  sortSchemasByDependencies [f] = Ok [Some f].
Proof.
  intros Hname Hdeps.
  assert (plain_names [f]) as Hp.
  { unfold plain_names, base_names. cbn [map].
    intros Hin. by apply list_elem_of_singleton in Hin. }
  assert (NoDup (base_names [f])) as Hnd by apply NoDup_singleton.
  assert (forall n d, ~ edge [f] n d) as Hedge.
  { intros n d He. apply ResolverFacts.edge_declared in He; [|done].
    destruct He as (g & ->%list_elem_of_singleton & _ & Hd).
    rewrite Hdeps in Hd. by apply not_elem_of_nil in Hd. }
  assert (forall m, ~ tc (edge [f]) m m) as Hacyclic.
  { intros m Hm. inversion Hm; subst; by eapply Hedge. }
  pose proof (ResolverFacts.sortSchemasByDependencies_spec [f] Hp)
    as Hspec.
  destruct (sortSchemasByDependencies [f])
    as [sorted|[name|name dep|]|] eqn:Hs; [| | | |done].
  - destruct (ResolverMore.sort_names [f] sorted Hp Hs)
      as (ns & l & -> & Hall & Hnd' & _ & Hin).
    assert (ns = [basename (path f)]) as ->.
    { assert (forall n, n ∈ ns -> n = basename (path f)) as Hone.
      { intros n Hn%Hin. by apply list_elem_of_singleton in Hn. }
      destruct ns as [|a [|b ns]].
      - exfalso. eapply not_elem_of_nil, Hin. by left.
      - f_equal. apply Hone. by left.
      - exfalso. apply NoDup_cons in Hnd' as [Ha _]. apply Ha.
        rewrite (Hone a), (Hone b); [by left|by right; left|by left]. }
    apply Forall2_cons_inv_l in Hall as (g & l' & Hg & Hl & ->).
    apply Forall2_nil_inv_l in Hl as ->.
    unfold find_schema in Hg. cbn in Hg.
    rewrite bool_decide_eq_true_2 in Hg by done. by injection Hg as <-.
  - exfalso. destruct Hspec as (_ & m & _ & Hm). by eapply Hacyclic.
  - exfalso. destruct Hspec as (_ & _ & He & _). by eapply Hedge.
  - exfalso. destruct Hspec as (n & m & Hn & Hm & Hnone).
    apply rtc_inv in Hm as [<-|(x & He & _)]; [|by eapply Hedge].
    by destruct (ResolverFacts.deps_of_key [f] Hp n Hn) as [? ?];
      simplify_eq.
Qed.

(** X17.  Loading a non-empty schema from a string makes the same calls
    on the client, in the same order, as loading a directory that holds
    this schema as its only file, and reports the same success and the
    same number of executed commands, provided the schema declares no
    dependencies.  (The string mode never looks at the declared
    dependencies; the directory mode would throw on them.) *)
Theorem string_mode_as_single_file (c : client) (config : Config)
    (p : globMatch) (text : string) :
  text <> "" ->
  (parseSchemaContent text config.(variables)).(SchemaParser.metadata)
    .(dependencies) = [] ->
  exists r r' tr,
    loadSchemas c config
      {| dirExists := true; matches := [(p, Some text)] |} = Some (r, tr)
    /\ loadSchemaFromString c config (Some text) = Some (r', tr)
    /\ r'.(success) = r.(success)
    /\ r'.(commandsExecuted) = r.(commandsExecuted)
    /\ (config.(dryRun) = false -> r'.(errorCount) = r.(errorCount)).
Proof.
  intros Htext Hdeps. unfold loadSchemas, loadSchemaFromString, globbed.
  cbn [dirExists matches map fst snd negb parse_files].
  rewrite sort_single by (done || apply LoaderFacts.basename_match).
  assert (is_empty text = false) as -> by (by destruct text).
  cbn [defined_schemas mapM id mbind option_bind mret option_ret
       process_all]. cbn [mapM]. cbn.
  unfold process_schema. cbn [commands trace executed errs].
  destruct (dryRun config).
  { eexists _, _, _. split; [done|]. split; [done|]. done. }
  destruct (useTransactions config && _).
  - destruct (Transactions.executeInTransaction _ _ _) as [result tr].
    destruct (Transactions.success result);
      eexists _, _, _; (split; [done|]); (split; [done|]); done.
  - match goal with
    | |- context [batch_loop ?a ?b ?n ?s ?l ?i ?st] =>
        destruct (ExecutionFacts.batch_loop_total a b n s l i st)
          as [st' ->];
          [apply LoaderFacts.effective_batch_size_pos|lia|]
    end.
    eexists _, _, _. split; [done|]. split; [done|]. done.
Qed.

Lemma string_mode_as_single_file_witness :
  exists r r' tr,
    loadSchemas Examples.always_ok Examples.pipelined_by_two
      {| dirExists := true;
         matches :=
           [(Examples.redis_file "dir/a", Some Examples.two_commands)] |}
    = Some (r, tr)
    /\ loadSchemaFromString Examples.always_ok Examples.pipelined_by_two
         (Some Examples.two_commands) = Some (r', tr)
    /\ r'.(success) = r.(success)
    /\ r'.(commandsExecuted) = r.(commandsExecuted)
    /\ (false = false -> r'.(errorCount) = r.(errorCount)).
Proof.
  apply (string_mode_as_single_file Examples.always_ok
           Examples.pipelined_by_two (Examples.redis_file "dir/a")
           Examples.two_commands); [done|by vm_compute].
Defined.

End StringModeMore.

(** ** The parser: commands, comments, tokens *)

Module ParserMore.

Import MoreSpec MetadataSpec.

(** *** No empty command *)

Lemma parse_line_emitted (lines : list string) (p : parser) (i : nat) :
  Forall (fun cmd => cmd <> []) p.(emitted) ->
  Forall (fun cmd => cmd <> []) (parse_line lines p i).(emitted).
Proof.
  intros Hp. unfold parse_line.
  destruct (_ <? _)%Z; [done|].
  destruct (lines !! i) as [raw|]; [|done].
  destruct (is_empty _); [done|].
  destruct (if startsWith "SCRIPT:" _ then _ else _); [done|].
  destruct (endsWithChar _ _); [|done]. cbn [emitted].
  destruct (tokenize _) eqn:Ht; [done|]. by constructor.
Qed.

Lemma parse_lines_nonempty (lines : list string) :
  Forall (fun cmd => cmd <> []) (parse_lines lines).
Proof.
  unfold parse_lines.
  assert (forall l p,
            Forall (fun cmd => cmd <> []) p.(emitted) ->
            Forall (fun cmd => cmd <> [])
              (foldl (parse_line lines) p l).(emitted)) as H.
  { induction l as [|i l IH]; intros p Hp; [done|].
    cbn [foldl]. by apply IH, parse_line_emitted. }
  apply Forall_rev, H. constructor.
Qed.

(** X18.  No command that [parseSchemaContent] returns is empty,
    whatever the content and the variables: the guards against empty
    commands in the execution loops never fire for a parsed schema. *)
Theorem parsed_commands_nonempty (content : string)
    (vars : option (gmap string string)) :
  Forall (fun cmd => cmd <> [])
    (SchemaParser.commands (parseSchemaContent content vars)).
Proof. unfold parseSchemaContent. apply parse_lines_nonempty. Qed.

(** *** Comments and carriage returns *)

Lemma includes_app_r (c : ascii) (s t : string) :
  includes c t = true -> includes c (s +:+ t) = true.
Proof.
  intros H. induction s as [|a s IH]; [done|].
  rewrite sapp_cons. cbn [includes]. by destruct (decide (a = c)).
Qed.

Lemma no_terminator_cr (s : string) :
  no_terminator (s +:+ String "013" "") = false.
Proof.
  destruct (no_terminator _) eqn:H; [|done].
  apply ParserFacts.no_terminator_spec in H as [_ H].
  by rewrite includes_app_r in H.
Qed.

Lemma trimEnd_cr (s : string) :
  trimEnd (s +:+ String "013" "") = trimEnd s.
Proof.
  induction s as [|c s IH]; [done|]. rewrite sapp_cons.
  cbn [trimEnd]. by rewrite IH.
Qed.

(** X19.  On a line that ends with a carriage return, as every line of
    a file with CRLF line endings does, no comment is stripped: the
    line is kept whole, and after trimming it is the trimmed line with
    its comment text still in it. *)
Theorem carriage_return_keeps_comment (line : string) :
  strip_comment (line +:+ String "013" "") = line +:+ String "013" ""
  /\ trim (strip_comment (line +:+ String "013" "")) = trim line.
Proof.
  assert (strip_comment (line +:+ String "013" "")
          = line +:+ String "013" "") as Hkept.
  { induction line as [|c s IH]; [done|].
    rewrite sapp_cons. cbn [strip_comment].
    rewrite no_terminator_cr, andb_false_r. by rewrite IH. }
  split; [done|]. rewrite Hkept. unfold trim.
  induction line as [|c s IH]; [done|].
  rewrite sapp_cons. cbn [trimStart]. destruct (is_space c).
  - apply IH. clear IH Hkept.
    induction s as [|a s IH]; [done|].
    rewrite sapp_cons. cbn [strip_comment].
    rewrite no_terminator_cr, andb_false_r. by rewrite IH.
  - rewrite <-sapp_cons. apply trimEnd_cr.
Qed.

(** The example of a commented CRLF file: the comment becomes part of
    the command. *)
Example crlf_comment_leaks :
  SchemaParser.commands
    (parseSchemaContent
       ("# note" +:+ String "013" newline +:+ "SET a 1;"
        +:+ String "013" newline) None)
  = [["#"; "note"; "SET"; "a"; "1"]].
Proof. vm_compute. reflexivity. Qed.

(** *** Tokens *)

Lemma rev_app_onto (s acc k : string) :
  String.rev_app (rev_onto s acc) k = String.rev_app acc (s +:+ k).
Proof.
  revert acc. induction s as [|c s IH]; intros acc; [done|].
  cbn [rev_onto]. by rewrite IH.
Qed.

Lemma rev_onto_rev (s : string) : String.rev (rev_onto s "") = s.
Proof.
  unfold String.rev. rewrite rev_app_onto. cbn. apply sapp_nil_r.
Qed.

Lemma rev_onto_app (s t acc : string) :
  rev_onto (s +:+ t) acc = rev_onto t (rev_onto s acc).
Proof.
  revert acc. induction s as [|c s IH]; intros acc; [done|].
  rewrite sapp_cons. cbn [rev_onto]. apply IH.
Qed.

Lemma rev_onto_nonempty (s acc : string) :
  is_empty s = false -> is_empty (rev_onto s acc) = false.
Proof.
  assert (forall k acc', is_empty acc' = false ->
                         is_empty (rev_onto k acc') = false) as H.
  { induction k as [|a k IH]; intros acc' Hacc; [done|].
    cbn [rev_onto]. by apply IH. }
  destruct s as [|c s]; [done|]. intros _. cbn [rev_onto]. by apply H.
Qed.

Lemma last_char_is_Some (a : ascii) (s : string) :
  is_Some (last_char (String a s)).
Proof.
  revert a. induction s as [|b s IH]; intros a; [done|].
  change (last_char (String a (String b s)))
    with (last_char (String b s)). apply IH.
Qed.

(** What the tokenizer remembers as the previous character after
    reading [s]. *)
Lemma token_loop_plain (s rest : string) (t : tokenizer) :
  includes dquote s = false ->
  t.(inQuotes) = true \/ includes " "%char s = false ->
  token_loop t (s +:+ rest)
  = token_loop
      {| prev := match last_char s with
                 | Some c => Some c
                 | None => t.(prev)
                 end;
         inQuotes := t.(inQuotes);
         currentPart := rev_onto s t.(currentPart);
         parts := t.(parts) |} rest.
Proof.
  revert t. induction s as [|c s IH]; intros t Hq Hs.
  - rewrite sapp_nil_l. by destruct t.
  - rewrite sapp_cons. cbn [token_loop]. cbn [includes] in Hq, Hs.
    destruct (decide (c = dquote)) as [|Hc]; [done|].
    unfold token_step at 1.
    rewrite (bool_decide_eq_false_2 (c = dquote)) by done.
    cbn [andb].
    assert (bool_decide (c = " "%char) && negb (inQuotes t) = false)
      as ->.
    { destruct Hs as [->|Hs]; [by rewrite andb_false_r|].
      destruct (decide (c = " "%char)) as [|Hne]; [done|].
      by rewrite bool_decide_eq_false_2. }
    rewrite IH; cbn [inQuotes prev currentPart parts]; [|done|].
    + destruct s as [|a s]; [done|].
      change (last_char (String c (String a s)))
        with (last_char (String a s)).
      by destruct (last_char_is_Some a s) as [b ->].
    + destruct Hs as [?|Hs]; [by left|right].
      by destruct (decide (c = " "%char)).
Qed.

Lemma last_char_app (s : string) (c : ascii) :
  last_char (s +:+ String c "") = Some c.
Proof.
  induction s as [|a s IH]; [done|]. rewrite sapp_cons.
  cbn [last_char]. rewrite IH. by destruct (s +:+ String c "").
Qed.

Lemma dropLast_app (s : string) (c : ascii) :
  dropLast (s +:+ String c "") = s.
Proof.
  induction s as [|a s IH]; [done|]. rewrite sapp_cons.
  cbn [dropLast]. rewrite IH.
  destruct (s +:+ String c "") eqn:H; [by destruct s|done].
Qed.

Lemma strip_quotes_render (p : string) :
  quotable p = true -> strip_quotes (render p) = p.
Proof.
  intros Hq. unfold render. destruct (bare p) eqn:Hb.
  - unfold strip_quotes. destruct p as [|c p]; [done|].
    unfold bare in Hb. cbn [includes is_empty negb andb] in Hb.
    cbn [startsWith].
    destruct (decide (dquote = c)) as [<-|]; [|done].
    rewrite decide_True in Hb by done. by rewrite andb_false_r in Hb.
  - unfold strip_quotes, quoted. cbn [startsWith].
    rewrite decide_True by done. unfold endsWithChar.
    rewrite <-sapp_cons, last_char_app, bool_decide_eq_true_2 by done.
    rewrite bool_decide_eq_true_2.
    2:{ cbn [String.length]. rewrite length_sapp. cbn. lia. }
    cbn [andb]. rewrite sapp_cons. cbn [substring_from].
    apply dropLast_app.
Qed.

Lemma token_step_quote (t : tokenizer) :
  t.(prev) <> Some "\"%char ->
  token_step t dquote
  = {| prev := Some dquote; inQuotes := negb t.(inQuotes);
       currentPart := String dquote t.(currentPart);
       parts := t.(parts) |}.
Proof.
  intros Hprev. unfold token_step.
  rewrite (bool_decide_eq_true_2 (dquote = dquote)) by done.
  rewrite (bool_decide_eq_false_2 (prev t = _)) by done.
  by rewrite (bool_decide_eq_false_2 (dquote = " "%char)).
Qed.

Lemma token_step_space (t : tokenizer) :
  t.(inQuotes) = false ->
  token_step t " "%char
  = {| prev := Some " "%char; inQuotes := false; currentPart := "";
       parts := push_part t.(currentPart) t.(parts) |}.
Proof.
  intros Hin. unfold token_step.
  rewrite (bool_decide_eq_false_2 (" "%char = dquote)) by done.
  rewrite (bool_decide_eq_true_2 (" "%char = " "%char)) by done.
  by rewrite Hin.
Qed.

(** Reading one written token, from a state between two tokens. *)
Lemma token_loop_render (p rest : string) (t : tokenizer) :
  quotable p = true ->
  t.(inQuotes) = false -> t.(currentPart) = "" ->
  t.(prev) <> Some "\"%char ->
  exists last,
    last <> Some "\"%char
    /\ token_loop t (render p +:+ rest)
       = token_loop
           {| prev := last; inQuotes := false;
              currentPart := rev_onto (render p) "";
              parts := t.(parts) |} rest.
Proof.
  intros Hq Hin Hcur Hprev. unfold quotable in Hq.
  apply andb_true_iff in Hq as [Hdq Hbs].
  apply negb_true_iff in Hdq. apply negb_true_iff in Hbs.
  unfold endsWithChar in Hbs. apply bool_decide_eq_false in Hbs.
  unfold render. destruct (bare p) eqn:Hb.
  - unfold bare in Hb.
    apply andb_true_iff in Hb as [[_ Hsp]%andb_true_iff _].
    apply negb_true_iff in Hsp.
    rewrite token_loop_plain by auto. rewrite Hin, Hcur.
    eexists. split; [|done].
    destruct (last_char p) as [c|]; [congruence|done].
  - unfold quoted. rewrite sapp_cons. cbn [token_loop].
    rewrite token_step_quote by done. rewrite Hin, Hcur. cbn [negb].
    rewrite sapp_assoc, token_loop_plain by auto.
    cbn [prev inQuotes currentPart parts].
    rewrite sapp_cons, sapp_nil_l. cbn [token_loop].
    rewrite token_step_quote.
    2:{ cbn [prev]. destruct (last_char p) as [c|]; [congruence|done]. }
    cbn [prev inQuotes currentPart parts negb].
    exists (Some dquote). split; [done|].
    do 2 f_equal. cbn [rev_onto]. by rewrite rev_onto_app.
Qed.

Lemma render_nonempty (p : string) : is_empty (render p) = false.
Proof.
  unfold render, bare. destruct p as [|c p]; [done|].
  by destruct (_ && _).
Qed.

Lemma tokenize_written (ps : list string) (t : tokenizer) :
  Forall (fun p => quotable p = true) ps ->
  t.(inQuotes) = false -> t.(currentPart) = "" ->
  t.(prev) <> Some "\"%char ->
  let t' := token_loop t (join " " (map render ps)) in
  rev (push_part t'.(currentPart) t'.(parts)) = rev t.(parts) ++ ps.
Proof.
  intros Hps. revert t.
  induction Hps as [|p ps Hp Hps IH]; intros t Hin Hcur Hprev.
  - cbn. rewrite Hcur. cbn. by rewrite app_nil_r.
  - cbn zeta. cbn [map].
    destruct ps as [|q ps].
    + cbn [map join].
      destruct (token_loop_render p "" t Hp Hin Hcur Hprev)
        as (last & _ & Hloop).
      rewrite sapp_nil_r in Hloop. rewrite Hloop.
      cbn [token_loop currentPart parts]. unfold push_part.
      rewrite rev_onto_nonempty by apply render_nonempty.
      rewrite rev_onto_rev.
      rewrite strip_quotes_render by done. done.
    + change (join " " (render p :: map render (q :: ps)))
        with (render p +:+ " " +:+ join " " (map render (q :: ps))).
      destruct (token_loop_render p
                  (" " +:+ join " " (map render (q :: ps))) t
                  Hp Hin Hcur Hprev) as (last & Hlast & Hloop).
      rewrite Hloop. clear Hloop.
      change (" " +:+ ?s) with (String " "%char s).
      cbn [token_loop]. rewrite token_step_space by done.
      cbn [prev inQuotes currentPart parts].
      specialize (IH {| prev := Some " "%char; inQuotes := false;
                        currentPart := "";
                        parts := push_part (rev_onto (render p) "")
                                   (parts t) |}).
      cbn zeta in IH. rewrite IH by done.
      cbn [parts]. unfold push_part.
      rewrite rev_onto_nonempty by apply render_nonempty.
      rewrite rev_onto_rev.
      rewrite strip_quotes_render by done.
      cbn [rev]. by rewrite <-(assoc_L (++)).
Qed.

(** X20.  Writing tokens and reading them back.  Take tokens without a
    double quote inside and without a backslash at the end; write each
    one as it is, or between double quotes when it is empty or holds a
    space, and separate them by single spaces.  The tokenizer returns
    exactly these tokens: spaces inside quotes do not split, and the
    quotes are removed. *)
Theorem tokenize_round_trip (ps : list string) :
  Forall (fun p => quotable p = true) ps ->
  tokenize (join " " (map render ps)) = ps.
Proof.
  intros Hps. unfold tokenize.
  by rewrite (tokenize_written ps
                {| prev := None; inQuotes := false;
                   currentPart := ""; parts := [] |} Hps).
Qed.

Lemma tokenize_round_trip_witness :
  tokenize ("HSET user:1 name " +:+ quoted "Ada Lovelace" +:+ " note "
            +:+ quoted "")
  = ["HSET"; "user:1"; "name"; "Ada Lovelace"; "note"; ""].
Proof.
  apply (tokenize_round_trip
           ["HSET"; "user:1"; "name"; "Ada Lovelace"; "note"; ""]).
  repeat constructor.
Defined.

End ParserMore.

(** ** The dependencies header, written and read back *)

Module MetadataMore.

Import MoreSpec MetadataSpec.

Lemma not_space_Some (o : option ascii) :
  not_space o = true -> exists c, o = Some c /\ is_space c = false.
Proof.
  destruct o as [c|]; [|done]. cbn. intros H%negb_true_iff. eauto.
Qed.

Lemma plain_name_inv (n : string) :
  plain_name n = true ->
  (exists c r, n = String c r /\ is_space c = false)
  /\ (exists c, last_char n = Some c /\ is_space c = false)
  /\ includes ","%char n = false
  /\ no_terminator n = true.
Proof.
  unfold plain_name.
  intros [[[Hf Hl]%andb_true_iff Hc]%andb_true_iff Ht]%andb_true_iff.
  apply not_space_Some in Hf as (c & Hf & Hc1).
  apply not_space_Some in Hl. apply negb_true_iff in Hc.
  split; [|done]. destruct n as [|a r]; [done|].
  injection Hf as ->. eauto.
Qed.

Lemma trimEnd_last (s : string) (c : ascii) :
  last_char s = Some c -> is_space c = false -> trimEnd s = s.
Proof.
  intros Hl Hc. induction s as [|a s IH]; [done|].
  cbn [trimEnd]. destruct s as [|b s].
  - cbn in Hl. injection Hl as ->. cbn. by rewrite Hc.
  - rewrite IH by done. done.
Qed.

Lemma trim_plain (n : string) : plain_name n = true -> trim n = n.
Proof.
  intros ((c & r & -> & Hc) & (l & Hl & Hs) & _)%plain_name_inv.
  unfold trim. cbn [trimStart]. rewrite Hc. by eapply trimEnd_last.
Qed.

(** No separator starts inside a name. *)
Lemma separator_at_name (u rest : string) (l : ascii) :
  includes ","%char u = false ->
  last_char u = Some l -> is_space l = false ->
  separator_at (u +:+ rest) = None.
Proof.
  intros Hc Hl Hs. induction u as [|a u IH]; [done|].
  rewrite sapp_cons. cbn [separator_at]. cbn [includes] in Hc.
  destruct (decide (a = ","%char)) as [|Ha]; [done|].
  destruct (is_space a) eqn:Hsa; [|done].
  destruct u as [|b u].
  { cbn in Hl. injection Hl as ->. congruence. }
  by apply IH.
Qed.

Lemma split_commas_name (n rest cur : string) (l : ascii) :
  includes ","%char n = false ->
  last_char n = Some l -> is_space l = false ->
  split_commas (n +:+ rest) 0 cur = split_commas rest 0 (rev_onto n cur).
Proof.
  intros Hc Hl Hs. revert cur.
  induction n as [|a n IH]; intros cur; [done|].
  pose proof (separator_at_name (String a n) rest l Hc Hl Hs) as Hsep.
  rewrite sapp_cons in Hsep |- *. cbn [split_commas]. rewrite Hsep.
  cbn [includes] in Hc. destruct (decide (a = ","%char)); [done|].
  destruct n as [|b n]; [done|].
  cbn [rev_onto]. by apply IH.
Qed.

Lemma join_cons_cons (sep p q : string) (l : list string) :
  join sep (p :: q :: l) = p +:+ sep +:+ join sep (q :: l).
Proof. done. Qed.

Lemma join_first (names : list string) (n : string) :
  Forall (fun n => plain_name n = true) (n :: names) ->
  exists c r, join ", " (n :: names) = String c r /\ is_space c = false.
Proof.
  intros [Hn _]%Forall_cons.
  apply plain_name_inv in Hn as ((c & r & -> & Hc) & _).
  destruct names as [|m names].
  - by exists c, r.
  - rewrite join_cons_cons, sapp_cons. eauto.
Qed.

Lemma split_commas_join (names : list string) (n : string) :
  Forall (fun n => plain_name n = true) (n :: names) ->
  split_commas (join ", " (n :: names)) 0 "" = n :: names.
Proof.
  revert n. induction names as [|m names IH]; intros n Hall.
  - apply Forall_cons in Hall as [Hn _].
    apply plain_name_inv in Hn as (_ & (l & Hl & Hs) & Hc & _).
    cbn [join]. rewrite <-(sapp_nil_r n) at 1.
    rewrite (split_commas_name n "" "" l) by done.
    cbn [split_commas]. by rewrite ParserMore.rev_onto_rev.
  - pose proof Hall as [Hn Hrest]%Forall_cons.
    apply plain_name_inv in Hn as (_ & (l & Hl & Hs) & Hc & _).
    rewrite join_cons_cons.
    rewrite (split_commas_name n _ "" l) by done.
    destruct (join_first names m Hrest) as (c & r & Hj & Hsc).
    change (", " +:+ ?s) with (String ","%char (String " "%char s)).
    cbn [split_commas separator_at].
    rewrite decide_True by done.
    rewrite ParserMore.rev_onto_rev. f_equal.
    assert (trimStart (String " "%char (join ", " (m :: names)))
            = join ", " (m :: names)) as ->.
    { rewrite Hj. cbn [trimStart is_space]. by rewrite Hsc. }
    cbn [String.length].
    replace (S (S (String.length (join ", " (m :: names))))
             - String.length (join ", " (m :: names)) - 1)
      with 1 by lia.
    cbn [split_commas]. by apply IH.
Qed.

Lemma take_line_plain (s rest : string) :
  no_terminator s = true ->
  take_line (s +:+ rest) = s +:+ take_line rest.
Proof.
  intros [H1 H2]%ParserFacts.no_terminator_spec.
  induction s as [|c s IH]; [done|].
  rewrite !sapp_cons. cbn [take_line]. cbn [includes] in H1, H2.
  destruct (decide (c = "010"%char)); [done|].
  destruct (decide (c = "013"%char)); [done|].
  assert (is_line_terminator c = false) as ->.
  { destruct c as [[] [] [] [] [] [] [] []]; done. }
  by rewrite IH.
Qed.

Lemma take_line_at_end (s : string) :
  at_line_end s = true -> take_line s = "".
Proof. destruct s as [|c s]; [done|]. cbn. by intros ->. Qed.

Lemma take_line_join (names : list string) (tail : string) :
  Forall (fun n => plain_name n = true) names ->
  at_line_end tail = true ->
  take_line (join ", " names +:+ tail) = join ", " names.
Proof.
  intros Hall Htail. induction Hall as [|n names Hn Hall IH].
  - by apply take_line_at_end.
  - apply plain_name_inv in Hn as (_ & _ & _ & Ht).
    destruct names as [|m names].
    + cbn [join]. rewrite take_line_plain by done.
      by rewrite take_line_at_end, sapp_nil_r.
    + rewrite join_cons_cons, !sapp_assoc.
      rewrite take_line_plain by done.
      change (", " +:+ ?s) with (String ","%char (String " "%char s)).
      cbn [take_line is_line_terminator]. by rewrite IH.
Qed.

Lemma trimStart_gap (gap s : string) :
  all_space gap = true -> trimStart (gap +:+ s) = trimStart s.
Proof.
  intros Hgap. induction gap as [|c gap IH]; [done|].
  cbn [all_space] in Hgap. apply andb_true_iff in Hgap as [Hc Hgap].
  rewrite sapp_cons. cbn [trimStart]. rewrite Hc. by apply IH.
Qed.

(** X21.  The dependencies header, written and read back.  Let the
    first dependencies marker of the content be followed by white
    space, then by one or more names separated by a comma and a space,
    then by the end of the line.  If each name starts and ends with a
    character that is not white space and holds no comma and no line
    terminator, the metadata lists exactly these names, in order. *)
Theorem dependencies_round_trip (content before gap tail : string)
    (n : string) (names : list string)
    (vars : option (gmap string string)) :
  first_occurrence "dependencies:" content before
    (gap +:+ join ", " (n :: names) +:+ tail) ->
  all_space gap = true ->
  at_line_end tail = true ->
  Forall (fun n => plain_name n = true) (n :: names) ->
  dependencies (SchemaParser.metadata (parseSchemaContent content vars))
  = n :: names.
Proof.
  intros Hfirst Hgap Htail Hall.
  unfold parseSchemaContent. cbn [SchemaParser.metadata].
  unfold extract_metadata. cbn [dependencies]. unfold dependenciesMatch.
  rewrite (MetadataFacts.first_match_first _ _ _ _ _
             (join ", " (n :: names)) Hfirst).
  - unfold parse_dependencies. rewrite split_commas_join by done.
    clear -Hall. induction Hall as [|m ms Hm _ IH]; [done|].
    cbn [map]. by rewrite trim_plain, IH.
  - f_equal. rewrite trimStart_gap by done.
    destruct (join_first names n Hall) as (c & r & Hj & Hc).
    assert (trimStart (join ", " (n :: names) +:+ tail)
            = join ", " (n :: names) +:+ tail) as ->.
    { rewrite Hj, sapp_cons. cbn [trimStart]. by rewrite Hc. }
    by apply take_line_join.
Qed.

Lemma dependencies_round_trip_witness :
  dependencies
    (SchemaParser.metadata
       (parseSchemaContent
          ("# dependencies: base.redis, users v2.redis" +:+ newline
           +:+ "SET a 1;") None))
  = ["base.redis"; "users v2.redis"].
Proof.
  apply (dependencies_round_trip _ "# " " " (newline +:+ "SET a 1;")
           "base.redis" ["users v2.redis"] None).
  - split; [done|]. intros a b Heq.
    do 2 (destruct a as [|? a];
          [exfalso; vm_compute in Heq; by simplify_eq|]).
    vm_compute. lia.
  - reflexivity.
  - reflexivity.
  - repeat constructor.
Defined.

End MetadataMore.

(** ** Script blocks *)

Module LuaMore.

Import MoreSpec.

Lemma find_end_inv (j : nat) (rest body : list string) (e : nat) :
  find_end j rest = Some (body, e) ->
  exists terminator post,
    rest = body ++ terminator :: post
    /\ Forall (fun l => trim l <> "END_SCRIPT") body
    /\ trim terminator = "END_SCRIPT"
    /\ e = j + length body.
Proof.
  revert j body. induction rest as [|l rest IH]; intros j body; [done|].
  cbn [find_end].
  destruct (decide (trim l = "END_SCRIPT")) as [Hl|Hl].
  - intros [= <- <-]. exists l, rest. cbn. split; [done|].
    split; [constructor|]. split; [done|lia].
  - destruct (find_end (S j) rest) as [[b e']|] eqn:Hf; [|done].
    intros [= <- <-].
    destruct (IH _ _ Hf) as (t & post & -> & Hb & Ht & ->).
    exists t, post. cbn. split; [done|].
    split; [by constructor|]. split; [done|lia].
Qed.

(** X22.  [parseSchemaForLuaScripts] answers with a block at line [i]
    exactly when line [i], as it stands, starts with the tag, the text
    behind the tag is not blank, and some later line is the terminator
    once trimmed.  The name is the trimmed text behind the tag, the end
    is the first such line, and the script is the lines strictly
    between the two, joined by line feeds, untrimmed. *)
Theorem script_block_iff (lines : list string) (i : nat)
    (info : scriptInfo) :
  parseSchemaForLuaScripts lines i = Some info
  <-> exists pre tag body terminator post,
        lines = pre ++ tag :: body ++ terminator :: post
        /\ length pre = i
        /\ startsWith "SCRIPT:" tag = true
        /\ trim (substring_from 7 tag) <> ""
        /\ Forall (fun l => trim l <> "END_SCRIPT") body
        /\ trim terminator = "END_SCRIPT"
        /\ info = {| name := trim (substring_from 7 tag);
                     script := join newline body;
                     startIndex := i;
                     endIndex := i + length body + 1 |}.
Proof.
  split.
  - unfold parseSchemaForLuaScripts.
    destruct (lines !! i) as [tag|] eqn:Htag; [|done].
    destruct (is_empty tag || negb (startsWith "SCRIPT:" tag)) eqn:Hs;
      [done|].
    apply orb_false_iff in Hs as [_ Hs]. apply negb_false_iff in Hs.
    destruct (is_empty (trim (substring_from 7 tag))) eqn:Hn; [done|].
    destruct (find_end (S i) (drop (S i) lines)) as [[body e]|] eqn:Hf;
      [|done].
    intros [= <-].
    destruct (find_end_inv _ _ _ _ Hf) as (t & post & Hrest & Hb & Ht & ->).
    exists (take i lines), tag, body, t, post.
    split; [by rewrite <-Hrest, take_drop_middle|].
    split.
    { rewrite length_take. apply lookup_lt_Some in Htag. lia. }
    split; [done|]. split; [by intros Heq; rewrite Heq in Hn|].
    split; [done|]. split; [done|]. f_equal. lia.
  - intros (pre & tag & body & t & post & -> & <- & Hs & Hn & Hb & Ht & ->).
    by apply ParserFacts.parseSchemaForLuaScripts_block.
Qed.

Lemma parse_block_bounds (lines : list string) (i : nat)
    (info : scriptInfo) :
  parseSchemaForLuaScripts lines i = Some info ->
  info.(startIndex) = i /\ i < info.(endIndex)
  /\ exists tag, lines !! i = Some tag /\ startsWith "SCRIPT:" tag = true.
Proof.
  unfold parseSchemaForLuaScripts.
  destruct (lines !! i) as [tag|] eqn:Htag; [|done].
  destruct (is_empty tag || negb (startsWith "SCRIPT:" tag)) eqn:Hs;
    [done|].
  apply orb_false_iff in Hs as [_ Hs]. apply negb_false_iff in Hs.
  destruct (is_empty _); [done|].
  destruct (find_end (S i) (drop (S i) lines)) as [[body e]|] eqn:Hf;
    [|done].
  intros [= <-]. cbn.
  destruct (find_end_inv _ _ _ _ Hf) as (_ & _ & _ & _ & _ & ->).
  split; [done|]. split; [lia|]. eauto.
Qed.

Lemma separated_mono (from from' : nat) (infos : list scriptInfo) :
  from' <= from -> separated from infos -> separated from' infos.
Proof.
  destruct infos as [|info infos]; [done|]. cbn.
  intros Hle (H1 & H2 & H3). split; [lia|done].
Qed.

Lemma find_scripts_loop_spec (lines : list string) (sourceName : string)
    (todo : list string) :
  forall i skip,
    exists infos,
      find_scripts_loop lines sourceName i todo skip
      = map (found_script sourceName) infos
      /\ Forall (fun info =>
                   parseSchemaForLuaScripts lines info.(startIndex)
                   = Some info) infos
      /\ separated (i + skip) infos.
Proof.
  induction todo as [|l todo IH]; intros i skip; cbn [find_scripts_loop].
  - by exists [].
  - destruct skip as [|k].
    + destruct (startsWith "SCRIPT:" (trim l)).
      * destruct (parseSchemaForLuaScripts lines i) as [info|] eqn:Hp.
        -- destruct (parse_block_bounds _ _ _ Hp) as (Hstart & Hend & _).
           destruct (IH (S i) (endIndex info - i))
             as (infos & -> & Hall & Hsep).
           exists (info :: infos). split; [done|].
           split; [constructor; [by rewrite Hstart|done]|].
           cbn. split; [lia|]. split; [lia|].
           by replace (S (endIndex info))
             with (S i + (endIndex info - i)) by lia.
        -- destruct (IH (S i) 0) as (infos & -> & Hall & Hsep).
           exists infos. split; [done|]. split; [done|].
           eapply separated_mono; [|done]. lia.
      * destruct (IH (S i) 0) as (infos & -> & Hall & Hsep).
        exists infos. split; [done|]. split; [done|].
        eapply separated_mono; [|done]. lia.
    + destruct (IH (S i) k) as (infos & -> & Hall & Hsep).
      exists infos. split; [done|]. split; [done|].
      by replace (i + S k) with (S i + k) by lia.
Qed.

Lemma find_scripts_none (content sourceName : string) :
  (forall l, l ∈ split_on "010"%char content ->
             startsWith "SCRIPT:" l = false) ->
  findLuaScriptsInSchema content sourceName = [].
Proof.
  intros Hnone. unfold findLuaScriptsInSchema.
  set (lines := split_on "010"%char content) in *.
  destruct (find_scripts_loop_spec lines sourceName lines 0 0)
    as (infos & -> & Hall & _).
  destruct infos as [|info infos]; [done|]. exfalso.
  apply Forall_cons in Hall as [Hinfo _].
  destruct (parse_block_bounds _ _ _ Hinfo)
    as (_ & _ & tag & Htag & Hs).
  rewrite (Hnone tag) in Hs; [done|].
  by eapply list_elem_of_lookup_2.
Qed.

(** X23.  Every script [findLuaScriptsInSchema] returns is a block
    that [parseSchemaForLuaScripts] answers with, so its tag starts its
    line; the blocks are returned in the order of the content and each
    starts behind the terminator of the one before.  In particular a
    content none of whose lines starts with the tag has no script: a
    block whose tag is indented is not found. *)
Theorem found_scripts_are_blocks (content sourceName : string) :
  let lines := split_on "010"%char content in
  (exists infos,
     findLuaScriptsInSchema content sourceName
     = map (found_script sourceName) infos
     /\ Forall (fun info =>
                  parseSchemaForLuaScripts lines info.(startIndex)
                  = Some info) infos
     /\ separated 0 infos)
  /\ ((forall l, l ∈ lines -> startsWith "SCRIPT:" l = false) ->
      findLuaScriptsInSchema content sourceName = []).
Proof.
  intros lines. unfold findLuaScriptsInSchema. fold lines.
  destruct (find_scripts_loop_spec lines sourceName lines 0 0)
    as (infos & Hfound & Hall & Hsep).
  split; [by exists infos|].
  apply find_scripts_none.
Qed.

End LuaMore.

(** ** A script block in the middle of a schema *)

Module BlockMore.

Import MoreSpec.

(** A line that is not a tag is read without looking at the other
    lines. *)
Lemma parse_line_prefix (pre rest rest' : list string) (p : parser)
    (i : nat) :
  Forall (fun l => startsWith "SCRIPT:" (trim (strip_comment l)) = false)
    pre ->
  i < length pre ->
  parse_line (pre ++ rest) p i = parse_line (pre ++ rest') p i
  /\ (parse_line (pre ++ rest) p i).(skipToLine) = p.(skipToLine).
Proof.
  intros Hpre Hi. unfold parse_line.
  destruct (_ <? _)%Z; [done|].
  rewrite !lookup_app_l by done.
  destruct (pre !! i) as [raw|] eqn:Hraw; [|done].
  rewrite (proj1 (Forall_lookup _ _) Hpre i raw Hraw).
  destruct (is_empty _); [done|].
  by destruct (endsWithChar _ _).
Qed.

Lemma parse_prefix (pre rest rest' : list string) (idxs : list nat)
    (p : parser) :
  Forall (fun l => startsWith "SCRIPT:" (trim (strip_comment l)) = false)
    pre ->
  Forall (fun i => i < length pre) idxs ->
  foldl (parse_line (pre ++ rest)) p idxs
  = foldl (parse_line (pre ++ rest')) p idxs
  /\ (foldl (parse_line (pre ++ rest)) p idxs).(skipToLine)
     = p.(skipToLine).
Proof.
  intros Hpre Hidx. revert p.
  induction Hidx as [|i idxs Hi _ IH]; intros p; [done|].
  cbn [foldl].
  destruct (parse_line_prefix pre rest rest' p i Hpre Hi) as [Heq Hskip].
  destruct (IH (parse_line (pre ++ rest) p i)) as [Hfold Hskip'].
  rewrite Hskip', Hskip. split; [|done]. by rewrite Hfold, Heq.
Qed.

Lemma parse_blank (lines : list string) (p : parser) (start n : nat) :
  (forall i, start <= i < start + n -> lines !! i = Some "") ->
  foldl (parse_line lines) p (seq start n) = p.
Proof.
  revert start p. induction n as [|n IH]; intros start p Hblank; [done|].
  cbn [seq foldl].
  assert (parse_line lines p start = p) as ->.
  { unfold parse_line. destruct (_ <? _)%Z; [done|].
    by rewrite Hblank by lia. }
  apply IH. intros i Hi. apply Hblank. lia.
Qed.

Lemma parse_block_suffix (head head' post : list string) (i : nat) :
  length head = length head' -> length head <= i ->
  (head ++ post) !! i = (head' ++ post) !! i
  /\ parseSchemaForLuaScripts (head ++ post) i
     = parseSchemaForLuaScripts (head' ++ post) i.
Proof.
  intros Hlen Hi.
  assert ((head ++ post) !! i = (head' ++ post) !! i) as Hlook.
  { rewrite !lookup_app_r by lia. by rewrite Hlen. }
  split; [done|]. unfold parseSchemaForLuaScripts. rewrite Hlook.
  rewrite !drop_app_ge by lia. by rewrite Hlen.
Qed.

(** Behind the block the two readings go in step: the same command in
    progress, the same commands emitted, and no line passed over in one
    and read in the other. *)
Lemma parse_suffix (head head' post : list string) (n start : nat)
    (p p' : parser) :
  length head = length head' -> length head <= start ->
  p.(currentCommand) = p'.(currentCommand) ->
  p.(emitted) = p'.(emitted) ->
  p.(skipToLine) = p'.(skipToLine)
  \/ ((p.(skipToLine) <= Z.of_nat start)%Z
      /\ (p'.(skipToLine) <= Z.of_nat start)%Z) ->
  (foldl (parse_line (head ++ post)) p (seq start n)).(emitted)
  = (foldl (parse_line (head' ++ post)) p' (seq start n)).(emitted).
Proof.
  intros Hlen. revert start p p'.
  induction n as [|n IH]; intros start p p' Hstart Hcur Hem Hskip;
    [done|].
  cbn [seq foldl].
  destruct (parse_block_suffix head head' post start Hlen Hstart)
    as [Hlook Hparse].
  apply IH; [lia|..]; unfold parse_line; rewrite <-Hlook, <-Hparse;
    destruct Hskip as [Heq|[H1 H2]].
  - rewrite <-Heq. destruct (_ <? _)%Z; [done|].
    destruct (_ !! start); [|done]. destruct (is_empty _); [done|].
    destruct (if startsWith _ _ then _ else _); [done|].
    destruct (endsWithChar _ _); cbn; by rewrite ?Hcur.
  - rewrite (proj2 (Z.ltb_ge _ _) H1), (proj2 (Z.ltb_ge _ _) H2).
    destruct (_ !! start); [|done]. destruct (is_empty _); [done|].
    destruct (if startsWith _ _ then _ else _); [done|].
    destruct (endsWithChar _ _); cbn; by rewrite ?Hcur.
  - rewrite <-Heq. destruct (_ <? _)%Z; [done|].
    destruct (_ !! start); [|done]. destruct (is_empty _); [done|].
    destruct (if startsWith _ _ then _ else _); [done|].
    destruct (endsWithChar _ _); cbn; by rewrite ?Hcur, ?Hem.
  - rewrite (proj2 (Z.ltb_ge _ _) H1), (proj2 (Z.ltb_ge _ _) H2).
    destruct (_ !! start); [|done]. destruct (is_empty _); [done|].
    destruct (if startsWith _ _ then _ else _); [done|].
    destruct (endsWithChar _ _); cbn; by rewrite ?Hcur, ?Hem.
  - rewrite <-Heq. destruct (_ <? _)%Z; [by left|].
    destruct (_ !! start); [|by left]. destruct (is_empty _); [by left|].
    destruct (if startsWith _ _ then _ else _); [by left|].
    destruct (endsWithChar _ _); cbn; by left.
  - rewrite (proj2 (Z.ltb_ge _ _) H1), (proj2 (Z.ltb_ge _ _) H2).
    destruct (_ !! start); [|right; lia].
    destruct (is_empty _); [right; lia|].
    destruct (if startsWith _ _ then _ else _); [by left|].
    destruct (endsWithChar _ _); cbn; right; lia.
Qed.

(** X24.  A script block whose tag starts its line, with a name and a
    terminator, adds nothing to the commands of a schema: the commands
    are those of the same content with the lines of the block, from the
    tag to the terminator, made blank.  (Stated for a block that no
    tag line precedes.) *)
Theorem flush_block_adds_nothing (pre body post : list string)
    (tag terminator : string) :
  Forall (fun l => startsWith "SCRIPT:" (trim (strip_comment l)) = false)
    pre ->
  startsWith "SCRIPT:" tag = true ->
  trim (substring_from 7 tag) <> "" ->
  Forall (fun l => trim l <> "END_SCRIPT") body ->
  trim terminator = "END_SCRIPT" ->
  parse_lines (pre ++ tag :: body ++ terminator :: post)
  = parse_lines (pre ++ replicate (length body + 2) "" ++ post).
Proof.
  intros Hpre Htag Hname Hbody Hend. unfold parse_lines. f_equal.
  set (init := {| skipToLine := -1; currentCommand := [];
                  emitted := [] |}).
  remember (pre ++ tag :: body ++ terminator :: post) as L1 eqn:HL1.
  remember (pre ++ replicate (length body + 2) "" ++ post) as L2 eqn:HL2.
  assert (length L1 = length pre + ((length body + 2) + length post))
    as ->.
  { subst L1. rewrite length_app. cbn. rewrite length_app. cbn. lia. }
  assert (length L2 = length pre + ((length body + 2) + length post))
    as ->.
  { subst L2. by rewrite !length_app, length_replicate. }
  rewrite !(seq_app (length pre) (length body + 2 + length post)),
    !(seq_app (length body + 2) (length post)), !foldl_app.
  cbn [Nat.add].
  assert (Forall (fun i => i < length pre) (seq 0 (length pre))) as Hidx.
  { apply Forall_forall. intros i Hi%elem_of_seq. lia. }
  destruct (parse_prefix pre (tag :: body ++ terminator :: post)
              (replicate (length body + 2) "" ++ post)
              (seq 0 (length pre)) init Hpre Hidx) as [Hsame Hskip].
  rewrite <-HL1, <-HL2 in Hsame. rewrite <-HL1 in Hskip.
  rewrite <-Hsame.
  set (p := foldl (parse_line L1) init (seq 0 (length pre))) in *.
  rewrite (parse_blank L2 p (length pre) (length body + 2)).
  2:{ intros i Hi. subst L2. rewrite lookup_app_r by lia.
      rewrite lookup_app_l by (rewrite length_replicate; lia).
      apply lookup_replicate_2. lia. }
  assert (foldl (parse_line L1) p (seq (length pre) (length body + 2))
          = {| skipToLine :=
                 Z.of_nat (length pre + length body + 1) + 1;
               currentCommand := p.(currentCommand);
               emitted := p.(emitted) |}) as ->.
  { rewrite HL1. apply ParserFacts.script_block_skipped; try done.
    rewrite Hskip. cbn. lia. }
  assert (L1 = (pre ++ tag :: body ++ [terminator]) ++ post) as HL1'.
  { rewrite HL1, <-!(assoc_L (++)). cbn. by rewrite <-(assoc_L (++)). }
  assert (L2 = (pre ++ replicate (length body + 2) "") ++ post) as HL2'.
  { by rewrite HL2, <-(assoc_L (++)). }
  rewrite HL1', HL2'.
  apply parse_suffix; cbn [currentCommand emitted skipToLine].
  - rewrite !length_app, length_replicate. cbn. rewrite length_app.
    cbn. lia.
  - rewrite length_app. cbn. rewrite length_app. cbn. lia.
  - done.
  - done.
  - right. rewrite Hskip. cbn. lia.
Qed.

Lemma flush_block_adds_nothing_witness :
  parse_lines
    ( ["SET key1 v;"]
      ++ "SCRIPT: test_script"
         :: ["local key = KEYS[1]"; "return key;"]
         ++ "END_SCRIPT" :: ["SET key2 v;"] )
  = parse_lines (["SET key1 v;"] ++ replicate (2 + 2) "" ++ ["SET key2 v;"]).
Proof.
  apply (flush_block_adds_nothing ["SET key1 v;"]
           ["local key = KEYS[1]"; "return key;"] ["SET key2 v;"]
           "SCRIPT: test_script" "END_SCRIPT").
  - repeat constructor.
  - reflexivity.
  - by vm_compute.
  - repeat constructor; by vm_compute.
  - reflexivity.
Defined.

End BlockMore.

(** ** Expiry rules *)

Module TtlMore.

Import Ttl TtlSpec.

Lemma stretch_app (n1 n2 : list event) (r : option string) :
  Forall quiet n1 -> stretch n2 r -> stretch (n1 ++ n2) r.
Proof.
  destruct r as [m|]; cbn.
  - intros H1 (b & e & -> & Hb & He). exists (n1 ++ b), e.
    rewrite (assoc_L (++)). split; [done|]. split; [|done].
    by apply Forall_app.
  - intros H1 H2. by apply Forall_app.
Qed.

Lemma expired_app (l k : list event) :
  expired (l ++ k) = expired l ++ expired k.
Proof. apply omap_app. Qed.

Lemma asked_app (l k : list event) : asked (l ++ k) = asked l ++ asked k.
Proof. apply omap_app. Qed.

Lemma execs_app (l k : list event) : execs (l ++ k) = execs l + execs k.
Proof. unfold execs. by rewrite filter_app, length_app. Qed.

Lemma batches_step (n : nat) :
  0 < n -> batches n = S (batches (n - batchSize)).
Proof.
  unfold batches, batchSize. intros Hn.
  change (1000 - 1) with 999.
  destruct (decide (n < 1000)) as [Hlt|Hge].
  - replace (n - 1000) with 0 by lia.
    rewrite (Nat.div_small (0 + 999)) by lia.
    symmetry. apply (Nat.div_unique _ _ 1 (n - 1)); lia.
  - replace (n + 999) with ((n - 1000 + 999) + 1 * 1000) by lia.
    rewrite Nat.div_add by lia. lia.
Qed.

Lemma expire_batch_spec (c : client) (s : Z) (batch : list string)
    (tr : list event) :
  exists new,
    (expire_batch c s batch tr).1 = tr ++ new
    /\ stretch new (expire_batch c s batch tr).2
    /\ asked new = [] /\ execs new = 0
    /\ ((expire_batch c s batch tr).2 = None ->
        expired new = map (fun k => (k, s)) batch).
Proof.
  revert tr. induction batch as [|key rest IH]; intros tr;
    cbn [expire_batch].
  - exists []. cbn. rewrite app_nil_r. repeat split; constructor.
  - destruct (on_expire c tr key s) as [m|] eqn:Hr.
    + exists [EvExpire key s (Some m)]. cbn.
      split; [done|]. split; [|done].
      exists [], (EvExpire key s (Some m)). repeat split. constructor.
    + destruct (IH (tr ++ [EvExpire key s None]))
        as (new & Ht & Hs & Ha & Hx & He).
      exists (EvExpire key s None :: new).
      rewrite Ht, <-(assoc_L (++)). split; [done|].
      split; [|split; [done|split; [done|]]].
      * apply (stretch_app [_]); [|done]. by repeat constructor.
      * intros Hnone. cbn [map]. rewrite <-(He Hnone). reflexivity.
Qed.

Lemma batch_loop_spec (fuel : nat) (c : client) (s : Z)
    (keys : list string) :
  forall i tr,
    length keys - i <= fuel ->
    exists new r,
      batch_loop fuel c s keys i tr = Some (tr ++ new, r)
      /\ stretch new r /\ asked new = []
      /\ (r = None ->
          expired new = map (fun k => (k, s)) (drop i keys)
          /\ execs new = batches (length keys - i)).
Proof.
  induction fuel as [|fuel IH]; intros i tr Hfuel; cbn [batch_loop].
  - rewrite bool_decide_eq_false_2 by lia. exists [], None.
    rewrite app_nil_r, drop_ge by lia.
    replace (length keys - i) with 0 by lia.
    repeat split; constructor.
  - case_bool_decide as Hi.
    2:{ exists [], None. rewrite app_nil_r, drop_ge by lia.
        replace (length keys - i) with 0 by lia.
        repeat split; constructor. }
    destruct (expire_batch_spec c s (take batchSize (drop i keys))
                (tr ++ [EvPipeline])) as (q & Ht & Hs & Ha & Hx & He).
    destruct (expire_batch c s _ _) as [tr2 [m|]]; cbn [fst snd] in *;
      subst tr2.
    + exists (EvPipeline :: q), (Some m). rewrite <-(assoc_L (++)).
      split; [done|]. split; [|done].
      apply (stretch_app [_]); [|done]. by repeat constructor.
    + destruct (on_exec c _) as [m|] eqn:Hexec.
      * exists (EvPipeline :: q ++ [EvExec (Some m)]), (Some m).
        rewrite <-!(assoc_L (++)). split; [done|].
        split; [|split; [|done]].
        -- exists (EvPipeline :: q), (EvExec (Some m)).
           split; [done|]. split; [|done].
           constructor; [done|exact Hs].
        -- change (EvPipeline :: ?l) with ([EvPipeline] ++ l).
           by rewrite !asked_app, Ha.
      * destruct (IH (i + batchSize)
                    (((tr ++ [EvPipeline]) ++ q) ++ [EvExec None]))
          as (n2 & r & Hloop & Hs2 & Ha2 & He2); [unfold batchSize; lia|].
        exists (EvPipeline :: q ++ [EvExec None] ++ n2), r.
        split.
        { rewrite Hloop. by rewrite <-!(assoc_L (++)). }
        split.
        { rewrite (assoc_L (++) q).
          apply (stretch_app (EvPipeline :: q ++ [EvExec None]));
            [|done].
          constructor; [done|]. apply Forall_app. split; [exact Hs|].
          by repeat constructor. }
        split.
        { change (EvPipeline :: ?l) with ([EvPipeline] ++ l).
          by rewrite !asked_app, Ha, Ha2. }
        intros ->. destruct (He2 eq_refl) as [Hex Hn]. split.
        -- change (EvPipeline :: ?l) with ([EvPipeline] ++ l).
           rewrite !expired_app, (He eq_refl), Hex.
           change (expired [EvPipeline]) with (@nil (string * Z)).
           change (expired [EvExec None]) with (@nil (string * Z)).
           cbn [app]. rewrite <-map_app, <-drop_drop, take_drop. done.
        -- change (EvPipeline :: ?l) with ([EvPipeline] ++ l).
           rewrite !execs_app, Hx, Hn.
           change (execs [EvPipeline]) with 0.
           change (execs [EvExec None]) with 1.
           rewrite (batches_step (length keys - i)) by lia.
           replace (length keys - (i + batchSize))
             with (length keys - i - batchSize) by lia.
           done.
Qed.

(** The zip of the rules with the keys each was answered. *)
Lemma rules_loop_spec (c : client) (prefix : string)
    (rules : list (string * Z)) :
  forall total tr,
    exists new r,
      rules_loop c prefix rules total tr = Some (tr ++ new, r)
      /\ stretch new (match r with inl m => Some m | inr _ => None end)
      /\ forall total',
           r = inr total' ->
           exists answers,
             length answers = length rules
             /\ asked new
                = zip_with (fun rule ks => (fullPattern prefix rule.1, ks))
                    rules answers
             /\ expired new
                = concat (zip_with
                            (fun rule ks => map (fun k => (k, rule.2)) ks)
                            rules answers)
             /\ total' = total + length (expired new)
             /\ execs new
                = sum_list (map (fun ks => batches (length ks)) answers).
Proof.
  induction rules as [|[pattern s] rules IH]; intros total tr;
    cbn [rules_loop].
  - exists [], (inr total). rewrite app_nil_r. split; [done|].
    split; [constructor|]. intros total' [= <-]. exists [].
    cbn. repeat split; lia.
  - set (p := fullPattern prefix pattern).
    destruct (on_keys c tr p) as [keys|m] eqn:Hkeys.
    2:{ exists [EvKeys p (inr m)], (inl m). split; [done|].
        split; [|done]. exists [], (EvKeys p (inr m)).
        repeat split. constructor. }
    assert (exists n1 r1,
              (match keys with
               | [] => Some (tr ++ [EvKeys p (inl keys)], None)
               | _ => batch_loop (length keys) c s keys 0
                        (tr ++ [EvKeys p (inl keys)])
               end) = Some ((tr ++ [EvKeys p (inl keys)]) ++ n1, r1)
              /\ stretch n1 r1 /\ asked n1 = []
              /\ (r1 = None ->
                  expired n1 = map (fun k => (k, s)) keys
                  /\ execs n1 = batches (length keys)))
      as (n1 & r1 & Hloop & Hs1 & Ha1 & He1).
    { destruct keys as [|k ks].
      - exists [], None. rewrite app_nil_r. repeat split; constructor.
      - destruct (batch_loop_spec (length (k :: ks)) c s (k :: ks) 0
                    (tr ++ [EvKeys p (inl (k :: ks))]))
          as (n1 & r1 & Hloop & Hs1 & Ha1 & He1); [lia|].
        exists n1, r1. rewrite Nat.sub_0_r, drop_0 in He1. done. }
    destruct r1 as [m|].
    + exists (EvKeys p (inl keys) :: n1), (inl m).
      split.
      { destruct keys as [|k ks]; [done|]. rewrite Hloop.
        by rewrite <-(assoc_L (++)). }
      split; [|done].
      apply (stretch_app [_]); [|done]. by repeat constructor.
    + destruct (He1 eq_refl) as [Hex1 Hn1].
      destruct (IH (total + length keys)
                  ((tr ++ [EvKeys p (inl keys)]) ++ n1))
        as (n2 & r & Hrest & Hs2 & Hacc).
      exists (EvKeys p (inl keys) :: n1 ++ n2), r.
      split.
      { destruct keys as [|k ks].
        - injection Hloop as Hn.
          rewrite <-(app_nil_r (tr ++ [EvKeys p (inl [])])) in Hn at 1.
          apply app_inv_head in Hn as <-.
          rewrite app_nil_r in Hrest.
          replace (total + length (@nil string)) with total in Hrest
            by (cbn; lia).
          rewrite Hrest. by rewrite <-(assoc_L (++)).
        - rewrite Hloop, Hrest. by rewrite <-!(assoc_L (++)). }
      split.
      { change (EvKeys p (inl keys) :: n1 ++ n2)
          with ((EvKeys p (inl keys) :: n1) ++ n2).
        apply stretch_app; [|done]. constructor; [done|exact Hs1]. }
      intros total' ->.
      destruct (Hacc total' eq_refl)
        as (answers & Hlen & Hask & Hexp & Htot & Hexec).
      exists (keys :: answers). cbn [length zip_with concat map sum_list].
      split; [by rewrite Hlen|].
      change (EvKeys p (inl keys) :: n1 ++ n2)
        with ([EvKeys p (inl keys)] ++ n1 ++ n2).
      rewrite !asked_app, !expired_app, !execs_app, Ha1, Hask, Hex1,
        Hexp, Hn1, Hexec.
      split; [done|]. split; [done|]. split; [|done].
      rewrite Htot, Hexp.
      change (expired [EvKeys p (inl keys)]) with (@nil (string * Z)).
      cbn [app]. rewrite length_app, length_map. lia.
Qed.

(** X25.  [applyTTL] always returns, and it stops at the first call on
    the client that throws, whichever it is: either no call threw and
    the result is a success, or the call that threw is the last call
    made, the result is a failure carrying its message, and no count of
    keys is reported, also not for the rules already applied. *)
Theorem ttl_stops_at_first_throw (c : client) (prefix : string)
    (ttlRules : option (JsObject.obj Z)) :
  exists r tr,
    applyTTL c prefix ttlRules = Some (r, tr)
    /\ ((r.(success) = true /\ r.(message) = None /\ Forall quiet tr)
        \/ (r.(success) = false /\ r.(keysAffected) = None
            /\ exists m, r.(message) = Some m /\ stretch tr (Some m))).
Proof.
  unfold applyTTL.
  destruct (JsObject.keys (default [] ttlRules)).
  { eexists _, _. split; [done|]. left. repeat split. constructor. }
  destruct (rules_loop_spec c prefix (entries (default [] ttlRules)) 0 [])
    as (new & r & -> & Hs & _).
  destruct r as [m|total]; eexists _, _; (split; [done|]); cbn [app].
  - right. repeat split. by exists m.
  - left. by repeat split.
Qed.

(** X26.  What a successful [applyTTL] has done.  [keys] was called
    once per rule, in the order of [Object.entries], with the prefix in
    front of the rule's pattern; [expire] was called exactly once for
    each key of each answer, with the seconds of the rule, rule after
    rule and in the order of the answer; [keysAffected] is the number of
    these calls; and [exec] was called once for every 1000 keys of an
    answer, started thousands included. *)
Theorem ttl_success_accounting (c : client) (prefix : string)
    (ttlRules : option (JsObject.obj Z)) (r : ttlResult)
    (tr : list event) :
  applyTTL c prefix ttlRules = Some (r, tr) ->
  r.(success) = true ->
  let rules := entries (default [] ttlRules) in
  exists answers,
    length answers = length rules
    /\ asked tr
       = zip_with (fun rule ks => (fullPattern prefix rule.1, ks))
           rules answers
    /\ expired tr
       = concat (zip_with (fun rule ks => map (fun k => (k, rule.2)) ks)
                   rules answers)
    /\ r.(keysAffected) = Some (length (expired tr))
    /\ execs tr = sum_list (map (fun ks => batches (length ks)) answers).
Proof.
  intros Hrun Hok rules. unfold applyTTL in Hrun. cbv zeta in Hrun.
  destruct (JsObject.keys (default [] ttlRules)) eqn:Hkeys.
  { injection Hrun as <- <-. exists []. subst rules. unfold entries.
    rewrite Hkeys. done. }
  destruct (rules_loop_spec c prefix rules 0 [])
    as (new & res & Hloop & _ & Hacc).
  fold rules in Hrun. rewrite Hloop in Hrun. cbn [app] in Hrun.
  destruct res as [m|total]; injection Hrun as <- <-; [done|].
  destruct (Hacc total eq_refl) as (answers & Hlen & Ha & He & Ht & Hx).
  exists answers. cbn [keysAffected]. rewrite Ht. done.
Qed.

Lemma ttl_success_accounting_witness :
  let r := {| success := true; keysAffected := Some 2;
              message := None |} in
  let tr := [ EvKeys "app:session:*"
                (inl ["app:session:1"; "app:session:2"]);
              EvPipeline;
              EvExpire "app:session:1" 3600 None;
              EvExpire "app:session:2" 3600 None;
              EvExec None;
              EvKeys "app:cache:*" (inl []) ] in
  exists answers,
    length answers = length (entries MoreExamples.ttl_rules)
    /\ asked tr
       = zip_with (fun rule ks => (fullPattern "app:" rule.1, ks))
           (entries MoreExamples.ttl_rules) answers
    /\ expired tr
       = concat (zip_with (fun rule ks => map (fun k => (k, rule.2)) ks)
                   (entries MoreExamples.ttl_rules) answers)
    /\ r.(keysAffected) = Some (length (expired tr))
    /\ execs tr = sum_list (map (fun ks => batches (length ks)) answers).
Proof.
  intros r tr.
  apply (ttl_success_accounting MoreExamples.two_sessions "app:"
           (Some MoreExamples.ttl_rules) r tr); [by vm_compute|done].
Defined.

End TtlMore.

(** ** Registering the scripts *)

Module RegistryMore.

Import Registry RegistrySpec.

Lemma digests_cons (a : string + string) (l : list (string + string)) :
  digests (a :: l) = (if is_digest a then 1 else 0) + digests l.
Proof.
  unfold digests. destruct a; cbn [is_digest].
  - by rewrite filter_cons_True.
  - by rewrite filter_cons_False.
Qed.

Lemma last_registered_cons (name name' : string) (v : info)
    (l : list (string * info)) :
  last_registered name ((name', v) :: l)
  = match last_registered name l with
    | Some w => Some w
    | None => if decide (name' = name) then Some v else None
    end.
Proof.
  unfold last_registered. destruct (decide (name' = name)) as [->|Hne].
  - rewrite filter_cons_True by done. rewrite last_cons.
    by destruct (last _).
  - rewrite filter_cons_False by done. by destruct (last _).
Qed.

Lemma get_assign (name name' : string) (v : info)
    (registry : JsObject.obj info) :
  JsObject.get name (assign name' v registry)
  = if decide (name = "__proto__") then JsObject.get name registry
    else if decide (name' = name) then Some v
         else JsObject.get name registry.
Proof.
  unfold assign. destruct (decide (name' = "__proto__")) as [->|Hp].
  - destruct (decide (name = "__proto__")) as [->|Hne]; [done|].
    by rewrite decide_False.
  - rewrite JsObjectFacts.get_set.
    destruct (decide (name = "__proto__")) as [->|Hne]; [|done].
    by rewrite decide_False.
Qed.

Section Client.
Variable c : client.

Lemma load_all_spec (found : list luaScript) :
  forall registry n tr,
    exists answers registry',
      length answers = length found
      /\ load_all c found registry n tr
         = (registry', n + digests answers,
            tr ++ zip_with load_event found answers)
      /\ forall name,
           JsObject.get name registry'
           = if decide (name = "__proto__")
             then JsObject.get name registry
             else match last_registered name (registered found answers)
                  with
                  | Some v => Some v
                  | None => JsObject.get name registry
                  end.
Proof.
  induction found as [|s found IH]; intros registry n tr;
    cbn [load_all].
  - exists [], registry. cbn. rewrite app_nil_r, Nat.add_0_r.
    split; [done|]. split; [done|]. intros name.
    by destruct (decide _).
  - destruct (on_scriptLoad c tr (ls_script s)) as [d|m] eqn:Ha.
    + destruct (IH (assign (ls_name s)
                      {| sha := d; source := ls_source s |} registry)
                  (S n) (tr ++ [EvScriptLoad (ls_script s) (inl d)]))
        as (answers & registry' & Hlen & Hrun & Hget).
      exists (inl d :: answers), registry'.
      split; [cbn; by rewrite Hlen|]. split.
      { rewrite Hrun, digests_cons. cbn [is_digest zip_with].
        rewrite <-(assoc_L (++)). do 2 f_equal. lia. }
      intros name. rewrite Hget, get_assign. cbn [registered].
      rewrite last_registered_cons.
      destruct (decide (name = "__proto__")); [done|].
      destruct (last_registered _ _); [done|].
      by destruct (decide (ls_name s = name)).
    + destruct (IH registry n
                  (tr ++ [EvScriptLoad (ls_script s) (inr m)]))
        as (answers & registry' & Hlen & Hrun & Hget).
      exists (inr m :: answers), registry'.
      split; [cbn; by rewrite Hlen|]. split.
      { rewrite Hrun, digests_cons. cbn [is_digest zip_with].
        by rewrite <-(assoc_L (++)). }
      intros name. by rewrite Hget.
Qed.

Lemma only_last_threw_cons (e : event) (l : list event) :
  threw e = false -> only_last_threw l -> only_last_threw (e :: l).
Proof.
  intros He Hl [|i] x Hx Hthrew; cbn in Hx.
  - injection Hx as <-. congruence.
  - cbn. f_equal. by eapply Hl.
Qed.

Lemma store_all_spec (key : string) (entries : list (string * info)) :
  forall tr,
    exists new,
      store_all c key entries tr = tr ++ new
      /\ Forall (stores_under key) new
      /\ hsets new `prefix_of` entries
      /\ only_last_threw new
      /\ (Forall (fun e => threw e = false) new ->
          hsets new = entries).
Proof.
  induction entries as [|[name v] entries IH]; intros tr;
    cbn [store_all].
  - exists []. rewrite app_nil_r. split; [done|].
    split; [constructor|]. split; [done|]. split; [|done].
    by intros i e ?.
  - destruct (on_hSet c tr key name v) as [m|] eqn:Hr.
    + exists [EvHSet key name v (Some m)]. split; [done|].
      split; [by repeat constructor|]. split.
      { cbn. exists entries. done. }
      split.
      { intros [|i] e He _; [done|]. by destruct i. }
      by intros [? _]%Forall_cons.
    + destruct (IH (tr ++ [EvHSet key name v None]))
        as (new & Hrun & Hkey & Hpre & Hlast & Hall).
      exists (EvHSet key name v None :: new).
      rewrite Hrun, <-(assoc_L (++)). split; [done|].
      split; [by constructor|]. split.
      { cbn. by apply prefix_cons. }
      split; [by apply only_last_threw_cons|].
      intros [_ Hq]%Forall_cons.
      change (hsets (EvHSet key name v None :: new))
        with ((name, v) :: hsets new).
      by rewrite (Hall Hq).
Qed.

(** The run outside a dry run, in one piece: the loads with their
    answers, the registry they leave, and the calls that store it. *)
Lemma register_spec (prefix : string) (found : list luaScript) :
  found <> [] ->
  exists answers registry rest,
    length answers = length found
    /\ register c prefix false found
       = ({| success := bool_decide (0 < digests answers);
             count := Some (digests answers);
             total := Some (length found);
             scripts := Some registry;
             message := None |},
          zip_with load_event found answers ++ rest)
    /\ (forall name,
          JsObject.get name registry
          = if decide (name = "__proto__") then None
            else last_registered name (registered found answers))
    /\ (digests answers = 0 -> rest = [])
    /\ (0 < digests answers ->
        exists d stored,
          rest = EvDel (registryKey prefix) d :: stored
          /\ Forall (stores_under (registryKey prefix)) stored
          /\ hsets stored `prefix_of` Ttl.entries registry
          /\ only_last_threw rest
          /\ (Forall (fun e => threw e = false) rest ->
              hsets stored = Ttl.entries registry)).
Proof.
  intros Hne. unfold register.
  destruct found as [|s0 found0] eqn:Hfound; [done|].
  rewrite <-Hfound. clear Hfound Hne.
  destruct (load_all_spec found [] 0 [])
    as (answers & registry & Hlen & Hrun & Hget).
  rewrite Hrun. cbn [app Nat.add].
  exists answers, registry.
  assert (forall name,
            JsObject.get name registry
            = if decide (name = "__proto__") then None
              else last_registered name (registered found answers))
    as Hget'.
  { intros name. rewrite Hget. cbn [JsObject.get].
    destruct (decide _); [done|]. by destruct (last_registered _ _). }
  case_bool_decide as Hpos.
  - set (loads := zip_with load_event found answers).
    destruct (on_del c loads (registryKey prefix)) as [m|] eqn:Hd.
    + exists [EvDel (registryKey prefix) (Some m)].
      split; [done|]. split; [done|]. split; [done|].
      split; [lia|]. intros _.
      exists (Some m), []. split; [done|]. split; [constructor|].
      split; [by apply prefix_nil|]. split.
      { intros [|i] e He _; [done|]. by destruct i. }
      by intros [? _]%Forall_cons.
    + destruct (store_all_spec (registryKey prefix)
                  (Ttl.entries registry)
                  (loads ++ [EvDel (registryKey prefix) None]))
        as (stored & Hstore & Hkey & Hpre & Hlast & Hall).
      exists (EvDel (registryKey prefix) None :: stored).
      split; [done|]. split.
      { rewrite Hstore. by rewrite <-(assoc_L (++)). }
      split; [done|]. split; [lia|]. intros _.
      exists None, stored. split; [done|]. split; [done|].
      split; [done|]. split; [by apply only_last_threw_cons|].
      by intros [_ Hq]%Forall_cons; apply Hall.
  - exists []. rewrite app_nil_r. split; [done|]. split; [done|].
    split; [done|]. split; [done|]. lia.
Qed.

(** X27.  Outside a dry run, every script that was found is handed
    to [scriptLoad] exactly once, in the order found, whether or not
    earlier ones failed, and these are the first calls made.  The
    count reported is the number of loads that returned, the total is
    the number of scripts found, and success is reported as soon as
    one load returned: a run in which some scripts failed to load is
    still a success. *)
Theorem register_loads_every_script (prefix : string)
    (found : list luaScript) (r : registerResult) (tr : list event) :
  found <> [] ->
  register c prefix false found = (r, tr) ->
  exists answers rest,
    length answers = length found
    /\ tr = zip_with load_event found answers ++ rest
    /\ Forall (fun e => is_load e = false) rest
    /\ r.(count) = Some (digests answers)
    /\ r.(total) = Some (length found)
    /\ r.(success) = bool_decide (0 < digests answers)
    /\ r.(message) = None.
Proof.
  intros Hne Hrun.
  destruct (register_spec prefix found Hne)
    as (answers & registry & rest & Hlen & Heq & _ & Hzero & Hpos).
  rewrite Heq in Hrun. injection Hrun as <- <-.
  exists answers, rest. split; [done|]. split; [done|].
  split; [|done].
  destruct (decide (digests answers = 0)) as [H0|H0].
  - rewrite (Hzero H0). constructor.
  - destruct Hpos as (d & stored & -> & Hkey & _); [lia|].
    constructor; [done|].
    eapply Forall_impl; [exact Hkey|]. by intros [].
Qed.

(** X28.  The registry returned as [scripts] holds, for each name
    other than [__proto__], the digest and the source of the last
    script of that name whose load returned, and nothing for a name
    none of whose scripts loaded: of two scripts with one name the
    later one replaces the earlier, while both are counted.  A script
    named [__proto__] is counted and never entered. *)
Theorem registry_keeps_last_of_each_name (prefix : string)
    (found : list luaScript) (r : registerResult) (tr : list event) :
  found <> [] ->
  register c prefix false found = (r, tr) ->
  exists answers registry,
    length answers = length found
    /\ take (length found) tr = zip_with load_event found answers
    /\ r.(scripts) = Some registry
    /\ forall name,
         JsObject.get name registry
         = if decide (name = "__proto__") then None
           else last_registered name (registered found answers).
Proof.
  intros Hne Hrun.
  destruct (register_spec prefix found Hne)
    as (answers & registry & rest & Hlen & Heq & Hget & _).
  rewrite Heq in Hrun. injection Hrun as <- <-.
  exists answers, registry. split; [done|]. split; [|done].
  rewrite take_app_length'; [done|].
  rewrite length_zip_with. lia.
Qed.

(** X29.  Storing the registry is best effort.  When at least one
    load returned, the loads are followed by one [del] of the registry
    key (the prefix, if any, before [lua:scripts]) and then by one
    [hSet] under that key for each entry of the registry, in the order
    of [Object.entries]; the first of these calls that throws is the
    last call made.  When no load returned nothing follows.  In both
    cases the result is the one the loads alone determine: a failure
    to store is not reported. *)
Theorem registry_stored_best_effort (prefix : string)
    (found : list luaScript) (r : registerResult) (tr : list event) :
  found <> [] ->
  register c prefix false found = (r, tr) ->
  exists answers registry rest,
    length answers = length found
    /\ tr = zip_with load_event found answers ++ rest
    /\ r = {| success := bool_decide (0 < digests answers);
              count := Some (digests answers);
              total := Some (length found);
              scripts := Some registry;
              message := None |}
    /\ (digests answers = 0 -> rest = [])
    /\ (0 < digests answers ->
        exists d stored,
          rest = EvDel (registryKey prefix) d :: stored
          /\ Forall (stores_under (registryKey prefix)) stored
          /\ hsets stored `prefix_of` Ttl.entries registry
          /\ only_last_threw rest
          /\ (Forall (fun e => threw e = false) rest ->
              hsets stored = Ttl.entries registry)).
Proof.
  intros Hne Hrun.
  destruct (register_spec prefix found Hne)
    as (answers & registry & rest & Hlen & Heq & _ & Hzero & Hpos).
  rewrite Heq in Hrun. injection Hrun as <- <-.
  by exists answers, registry, rest.
Qed.

Lemma find_all_none (names : list (string * option string)) :
  (forall file text l,
     (file, Some text) ∈ names -> l ∈ split_on "010"%char text ->
     startsWith "SCRIPT:" l = false) ->
  find_all names = [].
Proof.
  induction names as [|[file [text|]] names IH]; intros Hnone;
    cbn [find_all]; [done| |].
  - rewrite LuaMore.find_scripts_none.
    + apply IH. intros f t l Hf. apply (Hnone f t l). by right.
    + intros l. apply (Hnone file text l). by left.
  - apply IH. intros f t l Hf. apply (Hnone f t l). by right.
Qed.

(** X30.  Script blocks whose tag is indented are never registered.
    If in every readable file of the directory no line starts with
    the tag, [registerLuaScripts] makes no call on the client and
    reports a success with count 0, in the directory mode and, for
    each of these contents, in the string mode; dry run or not. *)
Theorem indented_scripts_not_registered (prefix : string)
    (dryRun : bool) (schemasDir : string)
    (names : list (string * option string)) :
  (forall file text l,
     (file, Some text) ∈ names -> l ∈ split_on "010"%char text ->
     startsWith "SCRIPT:" l = false) ->
  registerFromDirectory c prefix dryRun schemasDir
    {| dirExists := true; listing := inl names |}
  = (nothing_to_do 0, [])
  /\ forall file text schemaName,
       (file, Some text) ∈ names ->
       registerFromString c prefix dryRun (Some text) schemaName
       = (nothing_to_do 0, []).
Proof.
  intros Hnone. split.
  - unfold registerFromDirectory. cbn [dirExists listing negb].
    rewrite find_all_none; [done|].
    intros file text l Hf. apply (Hnone file text l).
    apply list_elem_of_In, List.filter_In in Hf as [Hf _].
    by apply list_elem_of_In.
  - intros file text schemaName Hf. unfold registerFromString.
    destruct (is_empty text); [done|].
    rewrite LuaMore.find_scripts_none; [done|].
    intros l. by apply (Hnone file text l).
Qed.

End Client.

Lemma register_loads_every_script_witness :
  let run := register MoreExamples.refuses_first "app:" false
               MoreExamples.two_scripts in
  exists answers rest,
    length answers = 2
    /\ run.2 = zip_with load_event MoreExamples.two_scripts answers ++ rest
    /\ Forall (fun e => is_load e = false) rest
    /\ run.1.(count) = Some (digests answers)
    /\ run.1.(total) = Some 2
    /\ run.1.(success) = bool_decide (0 < digests answers)
    /\ run.1.(message) = None.
Proof.
  intros run.
  apply (register_loads_every_script MoreExamples.refuses_first "app:"
           MoreExamples.two_scripts run.1 run.2); [done|by vm_compute].
Defined.

Lemma registry_keeps_last_of_each_name_witness :
  let run := register MoreExamples.refuses_first "app:" false
               MoreExamples.two_scripts in
  exists answers registry,
    length answers = 2
    /\ take 2 run.2 = zip_with load_event MoreExamples.two_scripts answers
    /\ run.1.(scripts) = Some registry
    /\ forall name,
         JsObject.get name registry
         = if decide (name = "__proto__") then None
           else last_registered name
                  (registered MoreExamples.two_scripts answers).
Proof.
  intros run.
  apply (registry_keeps_last_of_each_name MoreExamples.refuses_first
           "app:" MoreExamples.two_scripts run.1 run.2);
    [done|by vm_compute].
Defined.

Lemma registry_stored_best_effort_witness :
  let run := register MoreExamples.refuses_first "app:" false
               MoreExamples.two_scripts in
  exists answers registry rest,
    length answers = 2
    /\ run.2 = zip_with load_event MoreExamples.two_scripts answers ++ rest
    /\ run.1 = {| success := bool_decide (0 < digests answers);
                  count := Some (digests answers);
                  total := Some 2;
                  scripts := Some registry;
                  message := None |}
    /\ (digests answers = 0 -> rest = [])
    /\ (0 < digests answers ->
        exists d stored,
          rest = EvDel "app:lua:scripts" d :: stored
          /\ Forall (stores_under "app:lua:scripts") stored
          /\ hsets stored `prefix_of` Ttl.entries registry
          /\ only_last_threw rest
          /\ (Forall (fun e => threw e = false) rest ->
              hsets stored = Ttl.entries registry)).
Proof.
  intros run.
  apply (registry_stored_best_effort MoreExamples.refuses_first "app:"
           MoreExamples.two_scripts run.1 run.2); [done|by vm_compute].
Defined.

Lemma indented_scripts_not_registered_witness :
  let names := [("a.redis", Some Examples.indented_script);
                ("notes.txt", None)] in
  registerFromDirectory MoreExamples.refuses_first "" false "schemas"
    {| dirExists := true; listing := inl names |}
  = (nothing_to_do 0, [])
  /\ forall file text schemaName,
       (file, Some text) ∈ names ->
       registerFromString MoreExamples.refuses_first "" false (Some text)
         schemaName
       = (nothing_to_do 0, []).
Proof.
  intros names.
  apply (indented_scripts_not_registered MoreExamples.refuses_first ""
           false "schemas" names).
  intros file text l Hf Hl.
  assert (bool_decide
            (Forall (fun l => startsWith "SCRIPT:" l = false)
               (split_on "010"%char Examples.indented_script)) = true)
    as Hall by (by vm_compute).
  apply bool_decide_eq_true in Hall.
  apply elem_of_cons in Hf as [[= -> ->]|Hf].
  - by apply (proj1 (Forall_forall _ _) Hall).
  - apply elem_of_cons in Hf as [[=]|Hf]. by apply elem_of_nil in Hf.
Defined.

End RegistryMore.
